(** * The Ethereum oracle loop of the peggo orchestrator

    A shallow embedding of [orchestrator/oracle.go]: the event bundle
    [ethEvents] with [Num], [Filter] and [Sort], the claim dispatcher
    [sendEthEventClaim], the retried steps [getLatestEthHeight],
    [getEthEvents], [sendNewEventClaims] and [autoResync], and [tick],
    the function that [ethOracleLoop.Run] runs at every iteration.

    Conventions.
    - [uint64] values are integers of [Z]; every [uint64] addition and
      subtraction of the source is written with its wrap-around.
    - A Go function that returns an [error] and may panic is a
      computation with three outcomes: [Ok], [Error] and [Panic].
    - The Ethereum client, the Injective client, the clock and the
      context are consumed interfaces.  Their answers are given by an
      oracle indexed by the number of interactions made so far, so that
      any sequence of answers can be represented.
    - Every interaction with the two chains, every [time.Sleep] and
      every back-off of the retry harness is recorded in a trace.
      Logging is not modelled.
    - The library functions [sort.Slice] and [retry.Do] are taken by
      their contracts.
    - An event of the data model stands for a non-nil pointer; the two
      type switches are given on explicit pointers as well, in the
      module [Pointers].

    The first part holds the definitions, the second part the lemmas and
    the theorems on the claims C1 to C10. *)

From Stdlib Require Import String ZArith List Bool Lia Permutation Sorted.
Import ListNotations.

Local Open Scope Z_scope.

(* ================================================================== *)
(** ** Machine integers *)

Module U64.

Definition modulus : Z := 2 ^ 64.
Definition max : Z := modulus - 1.

Definition wrap (z : Z) : Z := z mod modulus.

(** [a + b] and [a - b] on [uint64]. *)
Definition add (a b : Z) : Z := wrap (a + b).
Definition sub (a b : Z) : Z := wrap (a - b).

(** The values a [uint64] variable can hold. *)
Definition in_range (z : Z) : Prop := 0 <= z <= max.

(** [Uint64] of [big.Int]: the low 64 bits of the absolute value. *)
Definition of_bigInt (x : Z) : Z := wrap (Z.abs x).

End U64.

(* ================================================================== *)
(** ** Events of the Peggy contract

    The five event types are generated bindings of the Peggy contract.
    The oracle reads one field, [EventNonce] (a pointer to a [big.Int]);
    the block number stands for the rest of the log entry.  Slice entries
    are pointers in the source; they are taken non-nil, as the bindings
    return them. *)

Record PeggySendToCosmosEvent := {
  stc_EventNonce : Z;
  stc_BlockNumber : Z
}.

Record PeggySendToInjectiveEvent := {
  sti_EventNonce : Z;
  sti_BlockNumber : Z
}.

Record PeggyTransactionBatchExecutedEvent := {
  tbe_EventNonce : Z;
  tbe_BlockNumber : Z
}.

Record PeggyValsetUpdatedEvent := {
  vsu_EventNonce : Z;
  vsu_BlockNumber : Z
}.

Record PeggyERC20DeployedEvent := {
  erc_EventNonce : Z;
  erc_BlockNumber : Z
}.

(** [x.EventNonce.Uint64()] for each of the five types. *)
Definition stc_nonce (e : PeggySendToCosmosEvent) : Z :=
  U64.of_bigInt (stc_EventNonce e).
Definition sti_nonce (e : PeggySendToInjectiveEvent) : Z :=
  U64.of_bigInt (sti_EventNonce e).
Definition tbe_nonce (e : PeggyTransactionBatchExecutedEvent) : Z :=
  U64.of_bigInt (tbe_EventNonce e).
Definition vsu_nonce (e : PeggyValsetUpdatedEvent) : Z :=
  U64.of_bigInt (vsu_EventNonce e).
Definition erc_nonce (e : PeggyERC20DeployedEvent) : Z :=
  U64.of_bigInt (erc_EventNonce e).

(** ** [ethEvents] *)

Record ethEvents := {
  OldDeposits : list PeggySendToCosmosEvent;
  Deposits : list PeggySendToInjectiveEvent;
  Withdrawals : list PeggyTransactionBatchExecutedEvent;
  ValsetUpdates : list PeggyValsetUpdatedEvent;
  ERC20Deployments : list PeggyERC20DeployedEvent
}.

Definition empty_ethEvents : ethEvents :=
  {| OldDeposits := []; Deposits := []; Withdrawals := [];
     ValsetUpdates := []; ERC20Deployments := [] |}.

Definition Num (e : ethEvents) : nat :=
  (length (OldDeposits e) + length (Deposits e) + length (Withdrawals e)
   + length (ValsetUpdates e) + length (ERC20Deployments e))%nat.

(** One of the five loops of [Filter], over the slice [xs]: every [d]
    with [d.EventNonce.Uint64() > nonce] is appended to [out]. *)
Definition filter_loop {A : Type} (nonce_of : A -> Z) (nonce : Z)
    (xs : list A) : list A :=
  fold_left
    (fun out d => if nonce_of d >? nonce then out ++ [d] else out)
    xs [].

Definition Filter (e : ethEvents) (nonce : Z) : ethEvents :=
  let oldDeposits := filter_loop stc_nonce nonce (OldDeposits e) in
  let deposits := filter_loop sti_nonce nonce (Deposits e) in
  let withdrawals := filter_loop tbe_nonce nonce (Withdrawals e) in
  let valsetUpdates := filter_loop vsu_nonce nonce (ValsetUpdates e) in
  let erc20Deployments := filter_loop erc_nonce nonce (ERC20Deployments e) in
  {| OldDeposits := oldDeposits;
     Deposits := deposits;
     Withdrawals := withdrawals;
     ValsetUpdates := valsetUpdates;
     ERC20Deployments := erc20Deployments |}.

(* ================================================================== *)
(** ** Outcomes of Go calls *)

(** An [error] value; the text is the message. *)
Definition error := string.

Inductive result (A : Type) : Type :=
| Ok (a : A)
| Error (err : error)
| Panic (msg : string).

Arguments Ok {A} a.
Arguments Error {A} err.
Arguments Panic {A} msg.

Definition is_panic {A : Type} (r : result A) : bool :=
  match r with Panic _ => true | _ => false end.

Definition result_bind {A B : Type} (r : result A) (k : A -> result B)
    : result B :=
  match r with
  | Ok a => k a
  | Error err => Error err
  | Panic msg => Panic msg
  end.

(** ** Values of the interface type [any]

    The five pointer types of the type switches, and [OtherValue] for a
    value of any other dynamic type (the untyped nil included), named by
    its [%T] rendering. *)

Inductive any : Type :=
| SendToCosmosEvent (e : PeggySendToCosmosEvent)
| SendToInjectiveEvent (e : PeggySendToInjectiveEvent)
| ValsetUpdatedEvent (e : PeggyValsetUpdatedEvent)
| TransactionBatchExecutedEvent (e : PeggyTransactionBatchExecutedEvent)
| ERC20DeployedEvent (e : PeggyERC20DeployedEvent)
| OtherValue (dynamic_type : string).

Definition known_kind (event : any) : Prop :=
  match event with OtherValue _ => False | _ => True end.

Definition unknown_event_type (T : string) : string :=
  String.append "unknown event type " T.

(** The closure [eventNonce] of [Sort]. *)
Definition eventNonce (event : any) : result Z :=
  match event with
  | SendToCosmosEvent e => Ok (stc_nonce e)
  | SendToInjectiveEvent e => Ok (sti_nonce e)
  | ValsetUpdatedEvent e => Ok (vsu_nonce e)
  | TransactionBatchExecutedEvent e => Ok (tbe_nonce e)
  | ERC20DeployedEvent e => Ok (erc_nonce e)
  | OtherValue T => Panic (unknown_event_type T)
  end.

(** The nonce as a total function, for stating properties: the nonce of
    a value of the five kinds, and [0] for any other value. *)
Definition nonce_of (event : any) : Z :=
  match eventNonce event with Ok n => n | _ => 0 end.

(** ** [sort.Slice]

    The standard library's [sort.Slice] is specified by its contract: when
    [less] answers on all elements of the slice and is the strict order
    of a key, the result is a permutation of the slice in which no
    element is [less] than an earlier one.  The order of elements with
    equal keys is not specified. *)

Definition less_fn := any -> any -> result bool.

Class SliceSorter : Type := {
  sort_Slice : list any -> less_fn -> result (list any);
  sort_Slice_contract :
    forall (x : list any) (less : less_fn) (key : any -> Z),
      (forall a b, In a x -> In b x -> less a b = Ok (key a <? key b)) ->
      exists y, sort_Slice x less = Ok y
             /\ Permutation x y
             /\ StronglySorted (fun a b => key a <= key b) y
}.

(** The insertion sort that [sort.Slice] runs on slices shorter than
    twelve elements: each element moves left while it is [less] than
    its left neighbour.  [sorted_rev] is the sorted prefix, last
    element first. *)
Fixpoint insert_left (less : less_fn) (v : any) (sorted_rev : list any)
    : result (list any) :=
  match sorted_rev with
  | [] => Ok [v]
  | u :: rest =>
      result_bind (less v u) (fun lt =>
        if lt : bool
        then result_bind (insert_left less v rest) (fun r => Ok (u :: r))
        else Ok (v :: u :: rest))
  end.

Fixpoint insertion_loop (less : less_fn) (todo : list any)
    (sorted_rev : list any) : result (list any) :=
  match todo with
  | [] => Ok (rev sorted_rev)
  | v :: todo' =>
      result_bind (insert_left less v sorted_rev)
        (insertion_loop less todo')
  end.

Definition insertionSort (x : list any) (less : less_fn)
    : result (list any) :=
  insertion_loop less x [].

(** ** [Sort] *)

Definition Sort `{SliceSorter} (e : ethEvents) : result (list any) :=
  let events :=
    map SendToCosmosEvent (OldDeposits e)
    ++ map SendToInjectiveEvent (Deposits e)
    ++ map TransactionBatchExecutedEvent (Withdrawals e)
    ++ map ERC20DeployedEvent (ERC20Deployments e)
    ++ map ValsetUpdatedEvent (ValsetUpdates e) in
  sort_Slice events
    (fun a b =>
       result_bind (eventNonce a) (fun na =>
       result_bind (eventNonce b) (fun nb => Ok (na <? nb)))).

(** The events of a set as one sequence, kind after kind in the order of
    the fields, and their nonces. *)
Definition events_of (e : ethEvents) : list any :=
  map SendToCosmosEvent (OldDeposits e)
  ++ map SendToInjectiveEvent (Deposits e)
  ++ map TransactionBatchExecutedEvent (Withdrawals e)
  ++ map ValsetUpdatedEvent (ValsetUpdates e)
  ++ map ERC20DeployedEvent (ERC20Deployments e).

Definition nonces (e : ethEvents) : list Z :=
  map stc_nonce (OldDeposits e)
  ++ map sti_nonce (Deposits e)
  ++ map tbe_nonce (Withdrawals e)
  ++ map vsu_nonce (ValsetUpdates e)
  ++ map erc_nonce (ERC20Deployments e).

(** The nonces of the set are unique across the five kinds. *)
Definition unique_nonces (e : ethEvents) : Prop := NoDup (nonces e).

(* ================================================================== *)
(** ** The consumed interfaces *)

(** Durations and instants are counted in nanoseconds, as [time.Duration]
    is. *)
Definition Millisecond : Z := 1000000.
Definition Hour : Z := 3600 * 1000 * Millisecond.

Definition ethBlockConfirmationDelay : Z := 12.
Definition defaultBlocksToSearch : Z := 2000.

(** The answer of [LastClaimEventByAddr]; both fields are [uint64]. *)
Record LastClaimEvent := {
  EthereumEventNonce : Z;
  EthereumEventHeight : Z
}.

(** What a call to one of the chains answers: a value or an error. *)
Inductive answer (A : Type) : Type :=
| Answer (a : A)
| Failure (err : error).

Arguments Answer {A} a.
Arguments Failure {A} err.

(** The answers depend on the moment of the call, the number of
    interactions made before it. *)
Definition moment := nat.

Record EthereumNetwork := {
  (** the [Number] of the latest header *)
  HeaderByNumber : moment -> answer Z;
  GetSendToCosmosEvents :
    moment -> Z -> Z -> answer (list PeggySendToCosmosEvent);
  GetSendToInjectiveEvents :
    moment -> Z -> Z -> answer (list PeggySendToInjectiveEvent);
  GetTransactionBatchExecutedEvents :
    moment -> Z -> Z -> answer (list PeggyTransactionBatchExecutedEvent);
  GetPeggyERC20DeployedEvents :
    moment -> Z -> Z -> answer (list PeggyERC20DeployedEvent);
  GetValsetUpdatedEvents :
    moment -> Z -> Z -> answer (list PeggyValsetUpdatedEvent)
}.

Record InjectiveNetwork := {
  LastClaimEventByAddr : moment -> answer LastClaimEvent;
  SendOldDepositClaim : moment -> PeggySendToCosmosEvent -> answer unit;
  SendDepositClaim : moment -> PeggySendToInjectiveEvent -> answer unit;
  SendValsetClaim : moment -> PeggyValsetUpdatedEvent -> answer unit;
  SendWithdrawalClaim :
    moment -> PeggyTransactionBatchExecutedEvent -> answer unit;
  SendERC20DeployedClaim : moment -> PeggyERC20DeployedEvent -> answer unit
}.

(** The fields of [PeggyOrchestrator] the loop uses, with the clock and
    the context of the run. *)
Record PeggyOrchestrator := {
  eth : EthereumNetwork;
  inj : InjectiveNetwork;
  maxAttempts : nat;
  (** what [time.Now()] shows *)
  clock : moment -> Z;
  (** [ctx.Err()]: [Some] once the context is cancelled *)
  ctx_Err : moment -> option error
}.

Record ethOracleLoop := {
  loopDuration : Z;
  lastResyncWithInjective : Z;
  lastCheckedEthHeight : Z
}.

(** ** Traces *)

Inductive event_query : Type :=
| QSendToCosmos
| QSendToInjective
| QTransactionBatchExecuted
| QPeggyERC20Deployed
| QValsetUpdated.

(** A claim handed to one of the five [Send...Claim] methods. *)
Inductive claim : Type :=
| OldDepositClaim (e : PeggySendToCosmosEvent)
| DepositClaim (e : PeggySendToInjectiveEvent)
| ValsetClaim (e : PeggyValsetUpdatedEvent)
| WithdrawalClaim (e : PeggyTransactionBatchExecutedEvent)
| ERC20DeployedClaim (e : PeggyERC20DeployedEvent).

Definition claim_nonce (c : claim) : Z :=
  match c with
  | OldDepositClaim e => stc_nonce e
  | DepositClaim e => sti_nonce e
  | ValsetClaim e => vsu_nonce e
  | WithdrawalClaim e => tbe_nonce e
  | ERC20DeployedClaim e => erc_nonce e
  end.

Inductive action : Type :=
| HeadQuery
| EventQuery (q : event_query) (startBlock endBlock : Z)
| LastClaimRead (a : answer LastClaimEvent)
| Submit (c : claim) (accepted : bool)
| Sleep (d : Z)
| RetryDelay.

Definition trace := list action.

(** The claim that [sendEthEventClaim] makes of an event. *)
Definition claim_of (event : any) : option claim :=
  match event with
  | SendToCosmosEvent e => Some (OldDepositClaim e)
  | SendToInjectiveEvent e => Some (DepositClaim e)
  | ValsetUpdatedEvent e => Some (ValsetClaim e)
  | TransactionBatchExecutedEvent e => Some (WithdrawalClaim e)
  | ERC20DeployedEvent e => Some (ERC20DeployedClaim e)
  | OtherValue _ => None
  end.

Fixpoint claims_of (events : list any) : list claim :=
  match events with
  | [] => []
  | event :: rest =>
      match claim_of event with
      | Some c => c :: claims_of rest
      | None => claims_of rest
      end
  end.

(** The ranges of the event queries of a trace, the claims handed to
    the home chain, and those the chain accepted. *)
Fixpoint event_queries (t : trace) : list (Z * Z) :=
  match t with
  | [] => []
  | EventQuery _ startBlock endBlock :: t' =>
      (startBlock, endBlock) :: event_queries t'
  | _ :: t' => event_queries t'
  end.

Fixpoint submitted (t : trace) : list claim :=
  match t with
  | [] => []
  | Submit c _ :: t' => c :: submitted t'
  | _ :: t' => submitted t'
  end.

Fixpoint accepted (t : trace) : list claim :=
  match t with
  | [] => []
  | Submit c true :: t' => c :: accepted t'
  | _ :: t' => accepted t'
  end.

(** The answer to the last [LastClaimEventByAddr] of a trace. *)
Fixpoint last_claim_read (t : trace) : option (answer LastClaimEvent) :=
  match t with
  | [] => None
  | a :: t' =>
      match last_claim_read t', a with
      | Some r, _ => Some r
      | None, LastClaimRead r => Some r
      | None, _ => None
      end
  end.

(** Between two submissions of the trace there is a sleep of 1200 ms:
    [pending] tells that a claim was submitted and no such sleep was
    taken since. *)
Fixpoint sleeps_between (pending : bool) (t : trace) : bool :=
  match t with
  | [] => true
  | Submit _ _ :: t' => negb pending && sleeps_between true t'
  | Sleep d :: t' =>
      sleeps_between (pending && negb (d =? 1200 * Millisecond)) t'
  | _ :: t' => sleeps_between pending t'
  end.

(** ** Computations *)

Record World := {
  loop : ethOracleLoop;
  now : moment
}.

Definition M (A : Type) : Type := World -> result A * World * trace.

Definition ret {A : Type} (a : A) : M A := fun w => (Ok a, w, []).

Definition bind {A B : Type} (m : M A) (k : A -> M B) : M B :=
  fun w =>
    match m w with
    | (Ok a, w1, t1) =>
        let '(r, w2, t2) := k a w1 in (r, w2, t1 ++ t2)
    | (Error err, w1, t1) => (Error err, w1, t1)
    | (Panic msg, w1, t1) => (Panic msg, w1, t1)
    end.

Notation "x <- m ;; k" := (bind m (fun x => k))
  (at level 61, m at next level, right associativity).
Notation "m ;;; k" := (bind m (fun _ => k))
  (at level 61, right associativity).

Definition fail {A : Type} (err : error) : M A := fun w => (Error err, w, []).
Definition panic {A : Type} (msg : string) : M A :=
  fun w => (Panic msg, w, []).

Definition lift {A : Type} (r : result A) : M A := fun w => (r, w, []).

Definition of_answer {A : Type} (a : answer A) : result A :=
  match a with Answer v => Ok v | Failure err => Error err end.

Definition accepted_answer {A : Type} (a : answer A) : bool :=
  match a with Answer _ => true | Failure _ => false end.

Definition advance (w : World) : World :=
  {| loop := loop w; now := S (now w) |}.

(** One interaction: the answer at the present moment, logged. *)
Definition interact {A : Type} (ask : moment -> answer A)
    (log : answer A -> action) : M A :=
  fun w => (of_answer (ask (now w)), advance w, [log (ask (now w))]).

Definition time_Sleep (d : Z) : M unit :=
  fun w => (Ok tt, advance w, [Sleep d]).

(** A read of the fields of the loop, and the assignments
    [l.lastCheckedEthHeight = h] and [l.lastResyncWithInjective = t]. *)
Definition get_loop : M ethOracleLoop := fun w => (Ok (loop w), w, []).

Definition store_lastCheckedEthHeight (h : Z) (w : World) : World :=
  {| loop :=
       {| loopDuration := loopDuration (loop w);
          lastResyncWithInjective := lastResyncWithInjective (loop w);
          lastCheckedEthHeight := h |};
     now := now w |}.

Definition store_lastResyncWithInjective (t : Z) (w : World) : World :=
  {| loop :=
       {| loopDuration := loopDuration (loop w);
          lastResyncWithInjective := t;
          lastCheckedEthHeight := lastCheckedEthHeight (loop w) |};
     now := now w |}.

Definition set_lastCheckedEthHeight (h : Z) : M unit :=
  fun w => (Ok tt, store_lastCheckedEthHeight h w, []).

Definition set_lastResyncWithInjective (t : Z) : M unit :=
  fun w => (Ok tt, store_lastResyncWithInjective t w, []).

(** [time.Now()] and [time.Since(t)]: the clock is read, no time
    passes. *)
Definition time_Now (o : PeggyOrchestrator) : M Z :=
  fun w => (Ok (clock o (now w)), w, []).

Definition time_Since (o : PeggyOrchestrator) (t : Z) : M Z :=
  fun w => (Ok (clock o (now w) - t), w, []).

(** [errors.Wrap(err, msg)] on the error branch of a call. *)
Definition wrap_error {A : Type} (msg : string) (m : M A) : M A :=
  fun w =>
    match m w with
    | (Error err, w1, t1) =>
        (Error (String.append msg (String.append ": " err)), w1, t1)
    | other => other
    end.

(* ================================================================== *)
(** ** The retry harness *)

(** The error returned when the budget allows no attempt at all. *)
Definition no_attempt : error := "retry: no attempt allowed"%string.

(** [retry_from budget op]: run [op]; a panic is not caught; after an
    error, stop with that error when [budget] further attempts are used
    up, stop with the context's error when the context is cancelled, and
    else wait the back-off and run [op] again. *)
Fixpoint retry_from {A : Type} (o : PeggyOrchestrator) (budget : nat)
    (op : M A) : M A :=
  fun w =>
    match op w with
    | (Ok a, w1, t1) => (Ok a, w1, t1)
    | (Panic msg, w1, t1) => (Panic msg, w1, t1)
    | (Error err, w1, t1) =>
        match budget with
        | O => (Error err, w1, t1)
        | S budget' =>
            match ctx_Err o (now w1) with
            | Some cancelled => (Error cancelled, w1, t1)
            | None =>
                let '(r, w2, t2) :=
                  retry_from o budget' op (advance w1) in
                (r, w2, t1 ++ RetryDelay :: t2)
            end
        end
    end.

(** [retry.Do(op, retry.Context(ctx), retry.Attempts(l.maxAttempts), ...)]
    of the library [github.com/avast/retry-go], by its contract: it
    returns the context's error when the context is cancelled already;
    else it calls [op]; on failure it sleeps a back-off and retries, up
    to [maxAttempts - 1] additional times; it stops when the context is
    cancelled during a back-off; it returns the last error when all
    attempts fail.  With a budget of zero attempts [op] is never run and
    an error is returned. *)
Definition retry_Do {A : Type} (o : PeggyOrchestrator) (op : M A) : M A :=
  fun w =>
    match ctx_Err o (now w) with
    | Some cancelled => (Error cancelled, w, [])
    | None =>
        match maxAttempts o with
        | O => (Error no_attempt, w, [])
        | S budget => retry_from o budget op w
        end
    end.

(* ================================================================== *)
(** ** The steps of the loop *)

Section Steps.

Context {sorter : SliceSorter}.
Variable o : PeggyOrchestrator.

Definition getLatestEthHeightFn : M Z :=
  latestHeader <-
    wrap_error "failed to get latest ethereum header"
      (interact (HeaderByNumber (eth o)) (fun _ => HeadQuery)) ;;
  ret (U64.of_bigInt latestHeader).

Definition getLatestEthHeight : M Z :=
  retry_Do o getLatestEthHeightFn.

Definition scanEthEventsFn (startBlock endBlock : Z) : M ethEvents :=
  legacyDeposits <-
    wrap_error "failed to get SendToCosmos events"
      (interact (fun t => GetSendToCosmosEvents (eth o) t startBlock endBlock)
         (fun _ => EventQuery QSendToCosmos startBlock endBlock)) ;;
  deposits <-
    wrap_error "failed to get SendToInjective events"
      (interact
         (fun t => GetSendToInjectiveEvents (eth o) t startBlock endBlock)
         (fun _ => EventQuery QSendToInjective startBlock endBlock)) ;;
  withdrawals <-
    wrap_error "failed to get TransactionBatchExecuted events"
      (interact
         (fun t =>
            GetTransactionBatchExecutedEvents (eth o) t startBlock endBlock)
         (fun _ => EventQuery QTransactionBatchExecuted startBlock endBlock)) ;;
  erc20Deployments <-
    wrap_error "failed to get ERC20Deployed events"
      (interact
         (fun t => GetPeggyERC20DeployedEvents (eth o) t startBlock endBlock)
         (fun _ => EventQuery QPeggyERC20Deployed startBlock endBlock)) ;;
  valsetUpdates <-
    wrap_error "failed to get ValsetUpdated events"
      (interact
         (fun t => GetValsetUpdatedEvents (eth o) t startBlock endBlock)
         (fun _ => EventQuery QValsetUpdated startBlock endBlock)) ;;
  ret {| OldDeposits := legacyDeposits;
         Deposits := deposits;
         Withdrawals := withdrawals;
         ValsetUpdates := valsetUpdates;
         ERC20Deployments := erc20Deployments |}.

Definition getEthEvents (startBlock endBlock : Z) : M ethEvents :=
  retry_Do o (scanEthEventsFn startBlock endBlock).

Definition sendEthEventClaim (event : any) : M unit :=
  match event with
  | SendToCosmosEvent e =>
      interact (fun t => SendOldDepositClaim (inj o) t e)
        (fun a => Submit (OldDepositClaim e) (accepted_answer a))
  | SendToInjectiveEvent e =>
      interact (fun t => SendDepositClaim (inj o) t e)
        (fun a => Submit (DepositClaim e) (accepted_answer a))
  | ValsetUpdatedEvent e =>
      interact (fun t => SendValsetClaim (inj o) t e)
        (fun a => Submit (ValsetClaim e) (accepted_answer a))
  | TransactionBatchExecutedEvent e =>
      interact (fun t => SendWithdrawalClaim (inj o) t e)
        (fun a => Submit (WithdrawalClaim e) (accepted_answer a))
  | ERC20DeployedEvent e =>
      interact (fun t => SendERC20DeployedClaim (inj o) t e)
        (fun a => Submit (ERC20DeployedClaim e) (accepted_answer a))
  | OtherValue T => panic (unknown_event_type T)
  end.

(** [for _, event := range sortedEvents { ... }] of [sendEventsFn]. *)
Fixpoint send_each (sortedEvents : list any) : M unit :=
  match sortedEvents with
  | [] => ret tt
  | event :: rest =>
      sendEthEventClaim event ;;;
      time_Sleep (1200 * Millisecond) ;;;
      send_each rest
  end.

Definition sendEventsFn (events : ethEvents) : M unit :=
  lastClaim <- interact (LastClaimEventByAddr (inj o)) LastClaimRead ;;
  let newEvents := Filter events (EthereumEventNonce lastClaim) in
  if (Num newEvents =? 0)%nat then ret tt
  else
    sortedEvents <- lift (Sort newEvents) ;;
    send_each sortedEvents.

Definition sendNewEventClaims (events : ethEvents) : M unit :=
  retry_Do o (sendEventsFn events).

(** Modelled from the spec: [PeggyOrchestrator.getLastClaimBlockHeight],
    declared outside [oracle.go].  It reads
    [last_claim_event(ctx, orchestrator_addr).ethereum_event_height]. *)
Definition getLastClaimBlockHeight : M Z :=
  claim <- interact (LastClaimEventByAddr (inj o)) LastClaimRead ;;
  ret (EthereumEventHeight claim).

Definition autoResync : M unit :=
  latestHeight <- retry_Do o getLastClaimBlockHeight ;;
  set_lastCheckedEthHeight latestHeight ;;;
  instant <- time_Now o ;;
  set_lastResyncWithInjective instant.

(** The function that [Run] hands to [loops.RunLoop]: one iteration. *)
Definition tick : M unit :=
  latestHeight <- getLatestEthHeight ;;
  if latestHeight <=? ethBlockConfirmationDelay then ret tt
  else
    let latestHeight := U64.sub latestHeight ethBlockConfirmationDelay in
    l <- get_loop ;;
    if latestHeight <=? lastCheckedEthHeight l then ret tt
    else
      let latestHeight :=
        if latestHeight
           >? U64.add (lastCheckedEthHeight l) defaultBlocksToSearch
        then U64.add (lastCheckedEthHeight l) defaultBlocksToSearch
        else latestHeight in
      events <- getEthEvents (lastCheckedEthHeight l) latestHeight ;;
      sendNewEventClaims events ;;;
      set_lastCheckedEthHeight latestHeight ;;;
      l <- get_loop ;;
      elapsed <- time_Since o (lastResyncWithInjective l) ;;
      if elapsed >=? 48 * Hour then autoResync else ret tt.

(** The range of blocks an iteration scans from the cursor
    [lastChecked] when the head of the chain is [latestHeight]: [None]
    when one of the two gates stops the iteration, else the end of the
    range.  These are the computations of [tick] between the head
    query and [getEthEvents]. *)
Definition scan_window (lastChecked latestHeight : Z) : option Z :=
  if latestHeight <=? ethBlockConfirmationDelay then None
  else
    let latestHeight := U64.sub latestHeight ethBlockConfirmationDelay in
    if latestHeight <=? lastChecked then None
    else
      Some (if latestHeight >? U64.add lastChecked defaultBlocksToSearch
            then U64.add lastChecked defaultBlocksToSearch
            else latestHeight).

(** [tick] in two parts.  The first part is [tick] up to the return of
    [sendNewEventClaims]: it yields the end of the scanned range, or
    [None] when a gate stopped the iteration. *)
Definition scan_and_submit : M (option Z) :=
  latestHeight <- getLatestEthHeight ;;
  l <- get_loop ;;
  match scan_window (lastCheckedEthHeight l) latestHeight with
  | None => ret None
  | Some latestHeight =>
      events <- getEthEvents (lastCheckedEthHeight l) latestHeight ;;
      sendNewEventClaims events ;;;
      ret (Some latestHeight)
  end.

(** The second part is the rest of [tick]: the cursor moves to the end
    of the range, and the loop resynchronises when that is due. *)
Definition advance_and_resync (latestHeight : Z) : M unit :=
  set_lastCheckedEthHeight latestHeight ;;;
  l <- get_loop ;;
  elapsed <- time_Since o (lastResyncWithInjective l) ;;
  if elapsed >=? 48 * Hour then autoResync else ret tt.

(** The moment at which the tick started in [w] reads the clock for the
    test [time.Since(l.lastResyncWithInjective) >= 48*time.Hour]: the
    moment at which [sendNewEventClaims] has returned without error.  The
    clock is read once, there.  [None] when the tick returns before the
    test. *)
Definition resync_check_moment (w : World) : option moment :=
  match scan_and_submit w with
  | (Ok (Some _), w3, _) => Some (now w3)
  | _ => None
  end.

(** In the world [w], the head query, the scan of the range that
    ends at [latest] and the submission of the scanned [events] all
    succeeded, leaving the world [w3]. *)
Definition steps_succeeded (w : World) (latest : Z) (events : ethEvents)
    (w3 : World) : Prop :=
  exists h w1 t1 w2 t2 t3,
    getLatestEthHeight w = (Ok h, w1, t1)
    /\ scan_window (lastCheckedEthHeight (loop w)) h = Some latest
    /\ getEthEvents (lastCheckedEthHeight (loop w)) latest w1
       = (Ok events, w2, t2)
    /\ sendNewEventClaims events w2 = (Ok tt, w3, t3).

End Steps.

(* ================================================================== *)
(** ** The type switches on pointers

    The values that reach the two type switches are pointers.  Above, an
    event of one of the five kinds stands for a non-nil pointer to an
    event whose [EventNonce] is set, as the contract bindings return
    them.  Here the pointers are explicit: a pointer of one of the five
    types is nil or points to an event, and the [EventNonce] of that
    event is nil or points to a [big.Int]. *)

Module Pointers.

Inductive pointer (A : Type) : Type :=
| Nil
| To (a : A).

Arguments Nil {A}.
Arguments To {A} a.

(** The struct behind a pointer: its [EventNonce] is nil, or it is the
    event [e], whose [EventNonce] is set. *)
Inductive event_struct (E : Type) : Type :=
| NilEventNonce
| Event (e : E).

Arguments NilEventNonce {E}.
Arguments Event {E} e.

(** A value of the interface type [any]: a pointer of one of the five
    types, or a value of another dynamic type. *)
Inductive value : Type :=
| SendToCosmosPointer
    (e : pointer (event_struct PeggySendToCosmosEvent))
| SendToInjectivePointer
    (e : pointer (event_struct PeggySendToInjectiveEvent))
| ValsetUpdatedPointer
    (e : pointer (event_struct PeggyValsetUpdatedEvent))
| TransactionBatchExecutedPointer
    (e : pointer (event_struct PeggyTransactionBatchExecutedEvent))
| ERC20DeployedPointer
    (e : pointer (event_struct PeggyERC20DeployedEvent))
| Other (dynamic_type : string).



(** The run-time panic of a nil dereference. *)
Definition nil_dereference : string :=
  "runtime error: invalid memory address or nil pointer dereference".

(** [e.EventNonce.Uint64()]: reading the field through a nil [e]
    panics, and so does [Uint64] on a nil [big.Int], which reads the
    magnitude of its receiver. *)
Definition EventNonce_Uint64 {E : Type} (nonce : E -> Z)
    (e : pointer (event_struct E)) : result Z :=
  match e with
  | Nil => Panic nil_dereference
  | To NilEventNonce => Panic nil_dereference
  | To (Event x) => Ok (nonce x)
  end.

(** The closure [eventNonce] of [Sort]. *)
Definition eventNonce (event : value) : result Z :=
  match event with
  | SendToCosmosPointer e => EventNonce_Uint64 stc_nonce e
  | SendToInjectivePointer e => EventNonce_Uint64 sti_nonce e
  | ValsetUpdatedPointer e => EventNonce_Uint64 vsu_nonce e
  | TransactionBatchExecutedPointer e => EventNonce_Uint64 tbe_nonce e
  | ERC20DeployedPointer e => EventNonce_Uint64 erc_nonce e
  | Other T => Panic (unknown_event_type T)
  end.

(** The five methods of the home chain that take a claim, on pointers.
    A call returns: what a method does with a nil pointer is its own
    matter. *)
Record Endpoints := {
  SendOldDepositClaim :
    moment -> pointer (event_struct PeggySendToCosmosEvent) -> answer unit;
  SendDepositClaim :
    moment -> pointer (event_struct PeggySendToInjectiveEvent)
    -> answer unit;
  SendValsetClaim :
    moment -> pointer (event_struct PeggyValsetUpdatedEvent) -> answer unit;
  SendWithdrawalClaim :
    moment -> pointer (event_struct PeggyTransactionBatchExecutedEvent)
    -> answer unit;
  SendERC20DeployedClaim :
    moment -> pointer (event_struct PeggyERC20DeployedEvent) -> answer unit
}.

(** [sendEthEventClaim], called at the moment [t]: the pointer is handed
    to the method of its type without being read. *)
Definition sendEthEventClaim (inj : Endpoints) (event : value)
    (t : moment) : result unit :=
  match event with
  | SendToCosmosPointer e => of_answer (SendOldDepositClaim inj t e)
  | SendToInjectivePointer e => of_answer (SendDepositClaim inj t e)
  | ValsetUpdatedPointer e => of_answer (SendValsetClaim inj t e)
  | TransactionBatchExecutedPointer e =>
      of_answer (SendWithdrawalClaim inj t e)
  | ERC20DeployedPointer e => of_answer (SendERC20DeployedClaim inj t e)
  | Other T => Panic (unknown_event_type T)
  end.

End Pointers.


(** ** Notions for the statements *)

(** A result that ends a sequence of steps, at another type. *)
Definition stops {A B : Type} (r : result A) (r' : result B) : Prop :=
  match r, r' with
  | Error err, Error err' => err = err'
  | Panic msg, Panic msg' => msg = msg'
  | _, _ => False
  end.

(** [quiet Q m]: [m] leaves the loop's fields alone and every action it
    takes satisfies [Q]. *)
Definition quiet {A : Type} (Q : action -> Prop) (m : M A) : Prop :=
  forall w r w' t, m w = (r, w', t) -> loop w' = loop w /\ Forall Q t.

(** The actions of each step: the head query, the scan of a range, the
    submit step and the resync. *)

Definition head_action (a : action) : Prop :=
  match a with HeadQuery | RetryDelay => True | _ => False end.

Definition scan_action (startBlock endBlock : Z) (a : action) : Prop :=
  match a with
  | EventQuery _ s e => s = startBlock /\ e = endBlock
  | RetryDelay => True
  | _ => False
  end.

Definition submit_action (a : action) : Prop :=
  match a with
  | LastClaimRead _ | Submit _ _ | Sleep _ | RetryDelay => True
  | _ => False
  end.

Definition resync_action (a : action) : Prop :=
  match a with LastClaimRead _ | RetryDelay => True | _ => False end.

(** [calm m]: [m] never panics.  [steady m]: the moments only advance
    while [m] runs. *)
Definition calm {A : Type} (m : M A) : Prop :=
  forall w, is_panic (fst (fst (m w))) = false.

Definition steady {A : Type} (m : M A) : Prop :=
  forall w r w' t, m w = (r, w', t) -> (now w <= now w')%nat.

(** The numbers of head queries and of reads of the last claim in a
    trace. *)
Fixpoint head_queries (t : trace) : nat :=
  match t with
  | [] => O
  | HeadQuery :: t' => S (head_queries t')
  | _ :: t' => head_queries t'
  end.

Fixpoint last_claim_reads (t : trace) : nat :=
  match t with
  | [] => O
  | LastClaimRead _ :: t' => S (last_claim_reads t')
  | _ :: t' => last_claim_reads t'
  end.

(** Every read of the last claim in the trace failed. *)
Definition reads_failed (t : trace) : Prop :=
  forall a, In (LastClaimRead a) t -> exists err, a = Failure err.

(** The error that the event query of the kind [q] answers at the
    moment [m] over the range, if it fails there. *)
Definition failure_of {A : Type} (a : answer A) : option error :=
  match a with Answer _ => None | Failure err => Some err end.

Definition query_failure (o : PeggyOrchestrator) (q : event_query)
    (m : moment) (startBlock endBlock : Z) : option error :=
  match q with
  | QSendToCosmos =>
      failure_of (GetSendToCosmosEvents (eth o) m startBlock endBlock)
  | QSendToInjective =>
      failure_of (GetSendToInjectiveEvents (eth o) m startBlock endBlock)
  | QTransactionBatchExecuted =>
      failure_of
        (GetTransactionBatchExecutedEvents (eth o) m startBlock endBlock)
  | QPeggyERC20Deployed =>
      failure_of (GetPeggyERC20DeployedEvents (eth o) m startBlock endBlock)
  | QValsetUpdated =>
      failure_of (GetValsetUpdatedEvents (eth o) m startBlock endBlock)
  end.

(** The kinds of the five event queries in the order of
    [scanEthEventsFn]. *)
Definition scan_order : list event_query :=
  [QSendToCosmos; QSendToInjective; QTransactionBatchExecuted;
   QPeggyERC20Deployed; QValsetUpdated].

(** The five event queries of one attempt of the scan, in the order of
    [scanEthEventsFn], and the messages under which their errors are
    wrapped. *)
Definition scan_queries (startBlock endBlock : Z) : trace :=
  [EventQuery QSendToCosmos startBlock endBlock;
   EventQuery QSendToInjective startBlock endBlock;
   EventQuery QTransactionBatchExecuted startBlock endBlock;
   EventQuery QPeggyERC20Deployed startBlock endBlock;
   EventQuery QValsetUpdated startBlock endBlock].

Definition scan_messages : list string :=
  ["failed to get SendToCosmos events";
   "failed to get SendToInjective events";
   "failed to get TransactionBatchExecuted events";
   "failed to get ERC20Deployed events";
   "failed to get ValsetUpdated events"]%string.

(** The chains answer every call: the source chain every event query,
    the home chain every read of the last claim, and it accepts every
    claim. *)
Definition answers {A : Type} (a : answer A) : Prop :=
  match a with Answer _ => True | Failure _ => False end.

Definition ethereum_answers (o : PeggyOrchestrator) : Prop :=
  forall m s e,
    answers (GetSendToCosmosEvents (eth o) m s e)
    /\ answers (GetSendToInjectiveEvents (eth o) m s e)
    /\ answers (GetTransactionBatchExecutedEvents (eth o) m s e)
    /\ answers (GetPeggyERC20DeployedEvents (eth o) m s e)
    /\ answers (GetValsetUpdatedEvents (eth o) m s e).

Definition injective_accepts (o : PeggyOrchestrator) : Prop :=
  forall m,
    answers (LastClaimEventByAddr (inj o) m)
    /\ (forall e, answers (SendOldDepositClaim (inj o) m e))
    /\ (forall e, answers (SendDepositClaim (inj o) m e))
    /\ (forall e, answers (SendValsetClaim (inj o) m e))
    /\ (forall e, answers (SendWithdrawalClaim (inj o) m e))
    /\ (forall e, answers (SendERC20DeployedClaim (inj o) m e)).

(** The actions of the loop over the sorted events. *)
Definition send_action (a : action) : Prop :=
  match a with Submit _ _ | Sleep _ => True | _ => False end.

(** A refused claim is the last action of the trace. *)
Fixpoint nothing_after_refusal (t : trace) : bool :=
  match t with
  | [] => true
  | Submit _ false :: t' => match t' with [] => true | _ => false end
  | _ :: t' => nothing_after_refusal t'
  end.

(* ================================================================== *)
(** ** Example data *)

Module Examples.

Definition old_deposit_10 : PeggySendToCosmosEvent :=
  {| stc_EventNonce := 10; stc_BlockNumber := 1020 |}.
Definition withdrawal_8 : PeggyTransactionBatchExecutedEvent :=
  {| tbe_EventNonce := 8; tbe_BlockNumber := 1015 |}.
Definition valset_update_9 : PeggyValsetUpdatedEvent :=
  {| vsu_EventNonce := 9; vsu_BlockNumber := 1018 |}.
Definition deposit_10 : PeggySendToInjectiveEvent :=
  {| sti_EventNonce := 10; sti_BlockNumber := 1021 |}.

(** An old deposit, a withdrawal and a valset update with the nonces
    10, 8 and 9. *)
Definition mixed : ethEvents :=
  {| OldDeposits := [old_deposit_10];
     Deposits := [];
     Withdrawals := [withdrawal_8];
     ValsetUpdates := [valset_update_9];
     ERC20Deployments := [] |}.

(** The same with a deposit that repeats the nonce 10. *)
Definition repeated : ethEvents :=
  {| OldDeposits := [old_deposit_10];
     Deposits := [deposit_10];
     Withdrawals := [withdrawal_8];
     ValsetUpdates := [valset_update_9];
     ERC20Deployments := [] |}.

(** A source chain whose head is [head] and whose five event queries
    answer, at the moment [t], the five sequences of [scan t]. *)
Definition ethereum (head : Z) (scan : moment -> answer ethEvents)
    : EthereumNetwork :=
  let query {A : Type} (field : ethEvents -> list A) (t : moment)
      : answer (list A) :=
    match scan t with
    | Answer e => Answer (field e)
    | Failure err => Failure err
    end in
  {| HeaderByNumber := fun _ => Answer head;
     GetSendToCosmosEvents := fun t _ _ => query OldDeposits t;
     GetSendToInjectiveEvents := fun t _ _ => query Deposits t;
     GetTransactionBatchExecutedEvents := fun t _ _ => query Withdrawals t;
     GetPeggyERC20DeployedEvents := fun t _ _ => query ERC20Deployments t;
     GetValsetUpdatedEvents := fun t _ _ => query ValsetUpdates t |}.

(** A home chain that answers [lastClaim t] and accepts or refuses
    every claim as [send t] tells. *)
Definition injective (lastClaim : moment -> answer LastClaimEvent)
    (send : moment -> answer unit) : InjectiveNetwork :=
  {| LastClaimEventByAddr := lastClaim;
     SendOldDepositClaim := fun t _ => send t;
     SendDepositClaim := fun t _ => send t;
     SendValsetClaim := fun t _ => send t;
     SendWithdrawalClaim := fun t _ => send t;
     SendERC20DeployedClaim := fun t _ => send t |}.

Definition orchestrator (head : Z) (scan : moment -> answer ethEvents)
    (lastClaim : moment -> answer LastClaimEvent)
    (send : moment -> answer unit) (shown : moment -> Z)
    (attempts : nat) : PeggyOrchestrator :=
  {| eth := ethereum head scan;
     inj := injective lastClaim send;
     maxAttempts := attempts;
     clock := shown;
     ctx_Err := fun _ => None |}.

(** A loop created at the instant 0 with the cursor at [cursor]. *)
Definition start (cursor : Z) : World :=
  {| loop :=
       {| loopDuration := 60 * 1000 * Millisecond;
          lastResyncWithInjective := 0;
          lastCheckedEthHeight := cursor |};
     now := O |}.

Definition claimed (nonce height : Z) : answer LastClaimEvent :=
  Answer {| EthereumEventNonce := nonce; EthereumEventHeight := height |}.

(** Head at 1200; the scan finds the events 10, 8 and 9; the last
    claim is 7; every claim is accepted. *)
Definition mixed_ordering : PeggyOrchestrator :=
  orchestrator 1200 (fun _ => Answer mixed) (fun _ => claimed 7 1000)
    (fun _ => Answer tt) (fun _ => 0) 3.

(** The same, but the claim sent at the moment 9 (the second claim of
    the first attempt) is refused, and the home chain still reports 7
    as the last claim when the submission is retried. *)
Definition refused_once : PeggyOrchestrator :=
  orchestrator 1200 (fun _ => Answer mixed) (fun _ => claimed 7 1000)
    (fun t => if (t =? 9)%nat then Failure "refused"%string else Answer tt)
    (fun _ => 0) 3.

(** The scan finds two events of nonce 10. *)
Definition repeated_nonce : PeggyOrchestrator :=
  orchestrator 1200 (fun _ => Answer repeated) (fun _ => claimed 7 1000)
    (fun _ => Answer tt) (fun _ => 0) 3.

(** Every event query fails. *)
Definition scan_fails : PeggyOrchestrator :=
  orchestrator 1200 (fun _ => Failure "no provider"%string)
    (fun _ => claimed 7 1000) (fun _ => Answer tt) (fun _ => 0) 3.

(** Head at 1100, no event; the clock shows 49 hours; the home chain
    answers the read of the submit step (moment 6) and fails after. *)
Definition resync_fails : PeggyOrchestrator :=
  orchestrator 1100 (fun _ => Answer empty_ethEvents)
    (fun t => if (t =? 6)%nat then claimed 7 1000 else Failure "timeout"%string)
    (fun _ => Answer tt) (fun _ => 49 * Hour) 1.

(** Head at 5100, no event; the clock shows 49 hours; the last claim
    was observed at the height 4200. *)
Definition rewind : PeggyOrchestrator :=
  orchestrator 5100 (fun _ => Answer empty_ethEvents)
    (fun _ => claimed 7 4200) (fun _ => Answer tt)
    (fun _ => 49 * Hour) 3.

(** Head at the largest height of 64 bits. *)
Definition highest : PeggyOrchestrator :=
  orchestrator U64.max (fun _ => Answer empty_ethEvents)
    (fun _ => claimed 7 1000) (fun _ => Answer tt) (fun _ => 0) 3.

(** A clock that advances by one second at every moment. *)
Definition ticking : PeggyOrchestrator :=
  orchestrator 5100 (fun _ => Answer empty_ethEvents)
    (fun _ => claimed 7 4200) (fun _ => Answer tt)
    (fun t => Z.of_nat t * 1000 * Millisecond) 3.

(** Head at 99999, far above the cursor. *)
Definition long_downtime : PeggyOrchestrator :=
  orchestrator 99999 (fun _ => Answer mixed) (fun _ => claimed 7 1000)
    (fun _ => Answer tt) (fun _ => 0) 3.

End Examples.

Module MoreExamples.

Definition old_deposit_11 : PeggySendToCosmosEvent :=
  {| stc_EventNonce := 11; stc_BlockNumber := 1030 |}.

(** Two old deposits, in the order of the chain and in the other
    order. *)
Definition two_deposits : ethEvents :=
  {| OldDeposits := [Examples.old_deposit_10; old_deposit_11];
     Deposits := [];
     Withdrawals := [Examples.withdrawal_8];
     ValsetUpdates := [];
     ERC20Deployments := [] |}.

Definition two_deposits_swapped : ethEvents :=
  {| OldDeposits := [old_deposit_11; Examples.old_deposit_10];
     Deposits := [];
     Withdrawals := [Examples.withdrawal_8];
     ValsetUpdates := [];
     ERC20Deployments := [] |}.

(** Head at 1200; the scan finds the events 10, 8 and 9, all claimed
    already: the last claim is 10. *)
Definition caught_up : PeggyOrchestrator :=
  Examples.orchestrator 1200 (fun _ => Answer Examples.mixed)
    (fun _ => Examples.claimed 10 1020) (fun _ => Answer tt) (fun _ => 0) 3.

(** The home chain refuses every claim; one attempt only. *)
Definition refusing : PeggyOrchestrator :=
  Examples.orchestrator 1200 (fun _ => Answer Examples.mixed)
    (fun _ => Examples.claimed 7 1000)
    (fun _ => Failure "refused"%string) (fun _ => 0) 1.

(** Head at 99999, far above the cursor; the scan finds the events 10,
    8 and 9; the last claim is 7; the clock advances by one second at
    every moment. *)
Definition catching_up : PeggyOrchestrator :=
  Examples.orchestrator 99999 (fun _ => Answer Examples.mixed)
    (fun _ => Examples.claimed 7 1000) (fun _ => Answer tt)
    (fun t => Z.of_nat t * 1000 * Millisecond) 3.

(** The first query of every scan answers and the second fails. *)
Definition second_query_fails : PeggyOrchestrator :=
  {| eth :=
       {| HeaderByNumber := fun _ => Answer 1200;
          GetSendToCosmosEvents := fun _ _ _ => Answer [];
          GetSendToInjectiveEvents :=
            fun _ _ _ => Failure "no provider"%string;
          GetTransactionBatchExecutedEvents := fun _ _ _ => Answer [];
          GetPeggyERC20DeployedEvents := fun _ _ _ => Answer [];
          GetValsetUpdatedEvents := fun _ _ _ => Answer [] |};
     inj := Examples.injective (fun _ => Examples.claimed 7 1000)
              (fun _ => Answer tt);
     maxAttempts := 3;
     clock := fun _ => 0;
     ctx_Err := fun _ => None |}.

End MoreExamples.

(* ================================================================== *)
(** * Properties *)

(** ** Lists *)

Section ListFacts.

Context {A : Type}.

Lemma filter_loop_filter (nonce_of' : A -> Z) (n : Z) (xs : list A) :
  filter_loop nonce_of' n xs = filter (fun d => n <? nonce_of' d) xs.
Proof.
  unfold filter_loop.
  enough (G : forall acc,
    fold_left (fun out d => if nonce_of' d >? n then out ++ [d] else out)
      xs acc
    = acc ++ filter (fun d => n <? nonce_of' d) xs) by apply (G []).
  induction xs as [|d xs IH]; intros acc; simpl.
  - now rewrite app_nil_r.
  - rewrite IH, Z.gtb_ltb.
    destruct (n <? nonce_of' d); [now rewrite <- app_assoc | reflexivity].
Qed.

Lemma StronglySorted_app (R : A -> A -> Prop) (l1 l2 : list A) :
  StronglySorted R l1 -> StronglySorted R l2 ->
  (forall a b, In a l1 -> In b l2 -> R a b) ->
  StronglySorted R (l1 ++ l2).
Proof.
  induction l1 as [|a l1 IH]; simpl; intros S1 S2 C; [exact S2|].
  apply StronglySorted_inv in S1 as [S1 F1].
  constructor.
  - apply IH; auto.
  - apply Forall_app; split; [exact F1|].
    apply Forall_forall; intros b Hb; apply C; auto.
Qed.

Lemma StronglySorted_rev (R : A -> A -> Prop) (l : list A) :
  StronglySorted (fun a b => R b a) l -> StronglySorted R (rev l).
Proof.
  induction 1 as [|a l S IH F]; simpl; [constructor|].
  apply StronglySorted_app; [exact IH | repeat constructor |].
  intros x y Hx [<-|[]].
  rewrite Forall_forall in F. apply F. now apply in_rev.
Qed.

Lemma StronglySorted_filter (R : A -> A -> Prop) (f : A -> bool)
    (l : list A) :
  StronglySorted R l -> StronglySorted R (filter f l).
Proof.
  induction 1 as [|a l S IH F]; simpl; [constructor|].
  destruct (f a); [|exact IH].
  constructor; [exact IH|].
  rewrite Forall_forall in *. intros x Hx.
  apply filter_In in Hx as [Hx _]. now apply F.
Qed.

Lemma Permutation_filter' (f : A -> bool) (l l' : list A) :
  Permutation l l' -> Permutation (filter f l) (filter f l').
Proof.
  induction 1 as [| x l l' P IH | x y l | l l' l'' P1 IH1 P2 IH2]; simpl.
  - constructor.
  - destruct (f x); [now constructor | exact IH].
  - destruct (f x), (f y); try reflexivity. apply perm_swap.
  - now transitivity (filter f l').
Qed.

(** A list sorted by a key whose values are pairwise distinct is
    strictly sorted. *)
Lemma sorted_nodup_strict (key : A -> Z) (l : list A) :
  StronglySorted (fun a b => key a <= key b) l ->
  NoDup (map key l) ->
  StronglySorted (fun a b => key a < key b) l.
Proof.
  induction 1 as [|a l S IH F]; simpl; intros N; [constructor|].
  apply NoDup_cons_iff in N as [Na N].
  constructor; [now apply IH|].
  rewrite Forall_forall in *. intros x Hx.
  specialize (F x Hx).
  assert (key a <> key x).
  { intros E. apply Na. rewrite E. now apply in_map. }
  lia.
Qed.

(** Two strictly sorted lists with the same elements are equal. *)
Lemma strictly_sorted_unique (key : A -> Z) (l1 l2 : list A) :
  StronglySorted (fun a b => key a < key b) l1 ->
  StronglySorted (fun a b => key a < key b) l2 ->
  Permutation l1 l2 ->
  l1 = l2.
Proof.
  intros S1; revert l2.
  induction S1 as [|a l1 S1 IH F1]; intros l2 S2 P.
  - apply Permutation_nil in P. now subst.
  - destruct l2 as [|b l2].
    { apply Permutation_sym, Permutation_nil in P. discriminate. }
    apply StronglySorted_inv in S2 as [S2 F2].
    rewrite Forall_forall in F1, F2.
    assert (a = b) as <-.
    { assert (Ha : In a (b :: l2))
        by (eapply Permutation_in; [exact P | now left]).
      assert (Hb : In b (a :: l1))
        by (eapply Permutation_in;
            [apply Permutation_sym; exact P | now left]).
      destruct Ha as [Ha|Ha]; [now symmetry|].
      destruct Hb as [Hb|Hb]; [exact Hb|].
      specialize (F1 b Hb). specialize (F2 a Ha). lia. }
    f_equal. apply IH; [exact S2|].
    eapply Permutation_cons_inv; exact P.
Qed.

Lemma StronglySorted_firstn (R : A -> A -> Prop) (k : nat) (l : list A) :
  StronglySorted R l -> StronglySorted R (firstn k l).
Proof.
  intros S. revert k.
  induction S as [|a l S IH F]; intros [|k]; simpl; try constructor.
  - apply IH.
  - rewrite Forall_forall in *. intros x Hx.
    apply F. rewrite <- (firstn_skipn k l). apply in_or_app. now left.
Qed.

Lemma StronglySorted_map_key (R : Z -> Z -> Prop) (key : A -> Z)
    (l : list A) :
  StronglySorted (fun a b => R (key a) (key b)) l ->
  StronglySorted R (map key l).
Proof.
  induction 1 as [|a l S IH F]; simpl; constructor; [exact IH|].
  rewrite Forall_forall in *. intros x Hx.
  apply in_map_iff in Hx as (b & <- & Hb). now apply F.
Qed.

End ListFacts.

(** ** The insertion sort meets the contract of [sort.Slice] *)

Section InsertionSort.

Variable less : less_fn.
Variable key : any -> Z.

Let descending : any -> any -> Prop := fun a b => key b <= key a.

Lemma insert_left_sorted (v : any) (sorted_rev : list any) :
  (forall u, In u sorted_rev -> less v u = Ok (key v <? key u)) ->
  StronglySorted descending sorted_rev ->
  exists r, insert_left less v sorted_rev = Ok r
         /\ Permutation (v :: sorted_rev) r
         /\ StronglySorted descending r.
Proof.
  induction sorted_rev as [|u rest IH]; intros L S; simpl.
  - exists [v]. repeat split; auto. repeat constructor.
  - rewrite (L u (or_introl eq_refl)). simpl.
    apply StronglySorted_inv in S as [S F].
    destruct (key v <? key u) eqn:E.
    + destruct IH as (r & -> & P & Sr);
        [intros; apply L; now right | exact S |].
      simpl. exists (u :: r). repeat split.
      * rewrite perm_swap. now constructor.
      * constructor; [exact Sr|].
        apply Forall_forall. intros x Hx.
        apply (Permutation_in _ (Permutation_sym P)) in Hx.
        destruct Hx as [<-|Hx].
        -- unfold descending. apply Z.ltb_lt in E. lia.
        -- rewrite Forall_forall in F. now apply F.
    + exists (v :: u :: rest). repeat split; auto.
      apply Z.ltb_ge in E.
      constructor; [now constructor|].
      constructor; [exact E|].
      rewrite Forall_forall in *. intros x Hx.
      specialize (F x Hx). unfold descending in *. lia.
Qed.

Lemma insertion_loop_sorted (todo sorted_rev : list any) :
  (forall a b, In a (todo ++ sorted_rev) -> In b (todo ++ sorted_rev) ->
               less a b = Ok (key a <? key b)) ->
  StronglySorted descending sorted_rev ->
  exists y, insertion_loop less todo sorted_rev = Ok y
         /\ Permutation (todo ++ sorted_rev) y
         /\ StronglySorted (fun a b => key a <= key b) y.
Proof.
  revert sorted_rev.
  induction todo as [|v todo IH]; intros sorted_rev L S; simpl.
  - exists (rev sorted_rev). repeat split.
    + apply Permutation_rev.
    + now apply StronglySorted_rev.
  - destruct (insert_left_sorted v sorted_rev) as (r & -> & P & Sr).
    { intros u Hu. apply L; [now left | right; apply in_or_app; now right]. }
    { exact S. }
    simpl.
    assert (Q : Permutation (v :: todo ++ sorted_rev) (todo ++ r)).
    { rewrite <- P. apply Permutation_middle. }
    destruct (IH r) as (y & E & Py & Sy); [| exact Sr |].
    { intros a b Ha Hb. apply L.
      - apply (Permutation_in _ (Permutation_sym Q)), Ha.
      - apply (Permutation_in _ (Permutation_sym Q)), Hb. }
    exists y. repeat split; auto.
    now rewrite Q.
Qed.

End InsertionSort.

Lemma insertionSort_contract (x : list any) (less : less_fn)
    (key : any -> Z) :
  (forall a b, In a x -> In b x -> less a b = Ok (key a <? key b)) ->
  exists y, insertionSort x less = Ok y
         /\ Permutation x y
         /\ StronglySorted (fun a b => key a <= key b) y.
Proof.
  intros L. unfold insertionSort.
  destruct (insertion_loop_sorted less key x []) as (y & E & P & S).
  - now rewrite app_nil_r.
  - constructor.
  - exists y. rewrite app_nil_r in P. auto.
Qed.

(** The sorter used to run the examples. *)
Lemma insertion_sorter : SliceSorter.
Proof.
  exact {| sort_Slice := insertionSort;
           sort_Slice_contract := insertionSort_contract |}.
Defined.

(** ** The event set *)

Lemma known_kind_nonce (event : any) :
  known_kind event -> eventNonce event = Ok (nonce_of event).
Proof. destruct event; simpl; intros K; try reflexivity; contradiction. Qed.

Lemma events_of_known (e : ethEvents) (event : any) :
  In event (events_of e) -> known_kind event.
Proof.
  unfold events_of. rewrite !in_app_iff, !in_map_iff.
  intros [H|[H|[H|[H|H]]]]; destruct H as (x & <- & _); exact I.
Qed.

Lemma events_of_length (e : ethEvents) : length (events_of e) = Num e.
Proof.
  unfold events_of, Num. rewrite !length_app, !length_map. lia.
Qed.

Lemma events_of_nonces (e : ethEvents) :
  map nonce_of (events_of e) = nonces e.
Proof.
  unfold events_of, nonces. rewrite !map_app, !map_map. reflexivity.
Qed.

Lemma filter_map_comm {A B : Type} (g : A -> B) (p : B -> bool)
    (l : list A) :
  filter p (map g l) = map g (filter (fun a => p (g a)) l).
Proof.
  induction l as [|a l IH]; simpl; [reflexivity|].
  destruct (p (g a)); simpl; now rewrite IH.
Qed.

Lemma events_of_Filter (e : ethEvents) (n : Z) :
  events_of (Filter e n) = filter (fun a => n <? nonce_of a) (events_of e).
Proof.
  unfold events_of, Filter; simpl.
  rewrite !filter_loop_filter, !filter_app, !filter_map_comm.
  reflexivity.
Qed.

Lemma NoDup_map_filter {A B : Type} (g : A -> B) (p : A -> bool)
    (l : list A) :
  NoDup (map g l) -> NoDup (map g (filter p l)).
Proof.
  induction l as [|a l IH]; simpl; intros N; [constructor|].
  apply NoDup_cons_iff in N as [Na N].
  destruct (p a); simpl; [|now apply IH].
  constructor; [|now apply IH].
  intros H. apply Na.
  apply in_map_iff in H as (x & E & Hx).
  apply filter_In in Hx as [Hx _].
  rewrite <- E. now apply in_map.
Qed.

Lemma unique_nonces_Filter (e : ethEvents) (n : Z) :
  unique_nonces e -> unique_nonces (Filter e n).
Proof.
  unfold unique_nonces.
  rewrite <- !events_of_nonces, events_of_Filter.
  apply NoDup_map_filter.
Qed.

Lemma claims_of_nonces (events : list any) :
  Forall known_kind events ->
  map claim_nonce (claims_of events) = map nonce_of events.
Proof.
  induction 1 as [|event rest K F IH]; simpl; [reflexivity|].
  destruct event; simpl in *; try contradiction; now rewrite IH.
Qed.

Lemma claims_of_In (events : list any) (event : any) (c : claim) :
  In event events -> claim_of event = Some c -> In c (claims_of events).
Proof.
  induction events as [|x rest IH]; simpl; [auto|].
  intros [->|H] C.
  - rewrite C. now left.
  - destruct (claim_of x); [right|]; auto.
Qed.

Lemma claims_of_from (events : list any) (c : claim) :
  In c (claims_of events) ->
  exists event, In event events /\ claim_of event = Some c.
Proof.
  induction events as [|x rest IH]; simpl; [contradiction|].
  destruct (claim_of x) as [c'|] eqn:C.
  - intros [->|H]; [now exists x; auto|].
    destruct (IH H) as (event & I & E). exists event; auto.
  - intros H. destruct (IH H) as (event & I & E). exists event; auto.
Qed.

Lemma claim_of_nonce (event : any) (c : claim) :
  claim_of event = Some c -> claim_nonce c = nonce_of event.
Proof. destruct event; simpl; intros [= <-]; reflexivity. Qed.

Section SortFacts.

Context {sorter : SliceSorter}.

(** [Sort] never panics: it returns the events of the set, in
    ascending order of nonce. *)
Lemma Sort_ok (e : ethEvents) :
  exists sorted,
    Sort e = Ok sorted
    /\ Permutation (events_of e) sorted
    /\ StronglySorted (fun a b => nonce_of a <= nonce_of b) sorted.
Proof.
  unfold Sort.
  set (events := _ ++ _).
  assert (P : Permutation (events_of e) events).
  { unfold events_of, events.
    do 3 apply Permutation_app_head. apply Permutation_app_comm. }
  destruct (sort_Slice_contract events
              (fun a b =>
                 result_bind (eventNonce a) (fun na =>
                 result_bind (eventNonce b) (fun nb => Ok (na <? nb))))
              nonce_of) as (y & E & Py & Sy).
  - intros a b Ha Hb.
    rewrite (known_kind_nonce a), (known_kind_nonce b); [reflexivity| |].
    + apply (events_of_known e).
      apply (Permutation_in _ (Permutation_sym P)), Hb.
    + apply (events_of_known e).
      apply (Permutation_in _ (Permutation_sym P)), Ha.
  - exists y. repeat split; auto. now rewrite P.
Qed.

Lemma Sort_strict (e : ethEvents) :
  unique_nonces e ->
  exists sorted,
    Sort e = Ok sorted
    /\ Permutation (events_of e) sorted
    /\ StronglySorted (fun a b => nonce_of a < nonce_of b) sorted.
Proof.
  intros U. destruct (Sort_ok e) as (y & E & P & S).
  exists y. repeat split; auto.
  apply sorted_nodup_strict; [exact S|].
  apply (Permutation_NoDup (l := map nonce_of (events_of e))).
  - now apply Permutation_map.
  - now rewrite events_of_nonces.
Qed.

End SortFacts.

(** ** Claims on the event set *)

(** C5. For every event set and every nonce [n], [Filter(n)] keeps in each
    of the five sequences exactly the elements whose event nonce is
    strictly greater than [n], in their original relative order: each
    sequence of the result is the standard [filter] of the same sequence
    of the argument.  So an event is in the result if and only if it is
    in the argument with a nonce strictly greater than [n]. *)
Theorem Filter_keeps_greater_nonces (e : ethEvents) (n : Z) :
  OldDeposits (Filter e n)
    = filter (fun d => n <? stc_nonce d) (OldDeposits e)
  /\ Deposits (Filter e n)
    = filter (fun d => n <? sti_nonce d) (Deposits e)
  /\ Withdrawals (Filter e n)
    = filter (fun d => n <? tbe_nonce d) (Withdrawals e)
  /\ ValsetUpdates (Filter e n)
    = filter (fun d => n <? vsu_nonce d) (ValsetUpdates e)
  /\ ERC20Deployments (Filter e n)
    = filter (fun d => n <? erc_nonce d) (ERC20Deployments e)
  /\ forall event,
       In event (events_of (Filter e n))
       <-> In event (events_of e) /\ n < nonce_of event.
Proof.
  repeat (split; [unfold Filter; simpl; now rewrite !filter_loop_filter|]).
  intros event. rewrite events_of_Filter, filter_In, Z.ltb_lt. reflexivity.
Qed.

(** C6. For every event set whose nonces are unique across the five
    kinds, [Sort()] returns (without panic) one sequence that is a
    permutation of all events of the set, of length [Num()], in strictly
    ascending order of event nonce. *)
Theorem Sort_strictly_ascending_permutation {sorter : SliceSorter}
    (e : ethEvents) :
  unique_nonces e ->
  exists sorted,
    Sort e = Ok sorted
    /\ Permutation (events_of e) sorted
    /\ length sorted = Num e
    /\ StronglySorted (fun a b => nonce_of a < nonce_of b) sorted.
Proof.
  intros U. destruct (Sort_strict e U) as (y & E & P & S).
  exists y. repeat split; auto.
  rewrite <- (Permutation_length P). apply events_of_length.
Qed.

Lemma mixed_unique : unique_nonces Examples.mixed.
Proof.
  unfold unique_nonces. vm_compute.
  repeat constructor; simpl; intuition discriminate.
Defined.

Lemma Sort_strictly_ascending_permutation_witness :
  unique_nonces Examples.mixed
  /\ exists sorted,
       @Sort insertion_sorter Examples.mixed = Ok sorted
       /\ Permutation (events_of Examples.mixed) sorted
       /\ length sorted = Num Examples.mixed
       /\ StronglySorted (fun a b => nonce_of a < nonce_of b) sorted.
Proof.
  split; [exact mixed_unique|].
  exact (@Sort_strictly_ascending_permutation insertion_sorter
           Examples.mixed mixed_unique).
Defined.

(** C7. For every event set with unique nonces and every nonce [n],
    [Filter(n).Sort()] is the sequence [Sort()] returns for the whole
    set with the elements of nonce less than or equal to [n] removed. *)
Theorem Sort_Filter_commute {sorter : SliceSorter} (e : ethEvents) (n : Z) :
  unique_nonces e ->
  exists sorted,
    Sort e = Ok sorted
    /\ Sort (Filter e n)
       = Ok (filter (fun event => negb (nonce_of event <=? n)) sorted).
Proof.
  intros U.
  destruct (Sort_strict e U) as (y & E & P & S).
  destruct (Sort_strict (Filter e n) (unique_nonces_Filter e n U))
    as (z & Ez & Pz & Sz).
  exists y. split; [exact E|]. rewrite Ez. f_equal.
  apply (strictly_sorted_unique nonce_of); [exact Sz | |].
  - now apply StronglySorted_filter.
  - rewrite <- Pz, events_of_Filter.
    rewrite (filter_ext _ (fun event => negb (nonce_of event <=? n))).
    + now apply Permutation_filter'.
    + intros a. now rewrite Z.leb_antisym, negb_involutive.
Qed.

Lemma Sort_Filter_commute_witness :
  unique_nonces Examples.mixed
  /\ exists sorted,
       @Sort insertion_sorter Examples.mixed = Ok sorted
       /\ @Sort insertion_sorter (Filter Examples.mixed 8)
          = Ok (filter (fun event => negb (nonce_of event <=? 8)) sorted).
Proof.
  split; [exact mixed_unique|].
  exact (@Sort_Filter_commute insertion_sorter Examples.mixed 8 mixed_unique).
Defined.

(* ================================================================== *)
(** ** Computations *)

Lemma bind_inv {A B : Type} (m : M A) (k : A -> M B) w r w' t :
  bind m k w = (r, w', t) ->
  (exists a w1 t1 t2,
      m w = (Ok a, w1, t1) /\ k a w1 = (r, w', t2) /\ t = t1 ++ t2)
  \/ (exists r1, m w = (r1, w', t) /\ stops r1 r).
Proof.
  unfold bind. destruct (m w) as [[[a|err|msg] w1] t1].
  - destruct (k a w1) as [[r2 w2] t2] eqn:K. intros [= <- <- <-].
    left. now exists a, w1, t1, t2.
  - intros [= <- <- <-]. right. now exists (Error err).
  - intros [= <- <- <-]. right. now exists (Panic msg).
Qed.

Lemma bind_ok_inv {A B : Type} (m : M A) (k : A -> M B) w b w' t :
  bind m k w = (Ok b, w', t) ->
  exists a w1 t1 t2,
    m w = (Ok a, w1, t1) /\ k a w1 = (Ok b, w', t2) /\ t = t1 ++ t2.
Proof.
  intros E. apply bind_inv in E as [E|(r1 & _ & S)]; [exact E|].
  destruct r1; contradiction.
Qed.

Lemma bind_ok {A B : Type} (m : M A) (k : A -> M B) w a w1 t1 :
  m w = (Ok a, w1, t1) ->
  bind m k w = (let '(r, w2, t2) := k a w1 in (r, w2, t1 ++ t2)).
Proof. unfold bind. now intros ->. Qed.

Lemma bind_stops {A B : Type} (m : M A) (k : A -> M B) w r1 w1 t1 :
  m w = (r1, w1, t1) -> (forall a, r1 <> Ok a) ->
  exists r, bind m k w = (r, w1, t1) /\ stops r1 r.
Proof.
  unfold bind. intros -> N. destruct r1 as [a|err|msg].
  - now destruct (N a).
  - now exists (Error err).
  - now exists (Panic msg).
Qed.

(** A computation that returns at once: its result is read off its
    definition. *)
Ltac returns_at_once :=
  let w := fresh "w" in
  let r := fresh "r" in
  let w' := fresh "w'" in
  let t := fresh "t" in
  intros w r w' t [= <- <- <-]; auto.

Section Quiet.

Variable Q : action -> Prop.

Lemma quiet_ret {A : Type} (a : A) : quiet Q (ret a).
Proof. returns_at_once. Qed.

Lemma quiet_fail {A : Type} (err : error) : quiet Q (@fail A err).
Proof. returns_at_once. Qed.

Lemma quiet_panic {A : Type} (msg : string) : quiet Q (@panic A msg).
Proof. returns_at_once. Qed.

Lemma quiet_lift {A : Type} (x : result A) : quiet Q (lift x).
Proof. returns_at_once. Qed.

Lemma quiet_get_loop : quiet Q get_loop.
Proof. returns_at_once. Qed.

Lemma quiet_interact {A : Type} (ask : moment -> answer A) log :
  (forall a, Q (log a)) -> quiet Q (interact ask log).
Proof. intros L. returns_at_once. Qed.

Lemma quiet_Sleep (d : Z) : Q (Sleep d) -> quiet Q (time_Sleep d).
Proof. intros L. returns_at_once. Qed.

Lemma quiet_bind {A B : Type} (m : M A) (k : A -> M B) :
  quiet Q m -> (forall a, quiet Q (k a)) -> quiet Q (bind m k).
Proof.
  intros Hm Hk w r w' t H.
  apply bind_inv in H
    as [(a & w1 & t1 & t2 & E1 & E2 & ->)|(r1 & E1 & _)].
  - apply Hm in E1 as [L1 F1]. apply Hk in E2 as [L2 F2].
    split; [congruence | now apply Forall_app].
  - now apply Hm in E1.
Qed.

Lemma quiet_wrap_error {A : Type} (msg : string) (m : M A) :
  quiet Q m -> quiet Q (wrap_error msg m).
Proof.
  intros Hm w r w' t. unfold wrap_error.
  destruct (m w) as [[[a|err|p] w1] t1] eqn:E;
    intros [= <- <- <-]; now apply Hm in E.
Qed.

Lemma quiet_retry_from {A : Type} o budget (op : M A) :
  Q RetryDelay -> quiet Q op -> quiet Q (retry_from o budget op).
Proof.
  intros D Hop.
  induction budget as [|budget IH]; intros w r w' t; simpl;
    destruct (op w) as [[[a|err|p] w1] t1] eqn:E;
    try (intros [= <- <- <-]; now apply Hop in E).
  destruct (ctx_Err o (now w1)).
  - intros [= <- <- <-]. now apply Hop in E.
  - destruct (retry_from o budget op (advance w1)) as [[r2 w2] t2] eqn:R.
    intros [= <- <- <-].
    apply Hop in E as [L1 F1]. apply IH in R as [L2 F2].
    split; [simpl in L2; congruence|].
    apply Forall_app; split; auto.
Qed.

Lemma quiet_retry_Do {A : Type} o (op : M A) :
  Q RetryDelay -> quiet Q op -> quiet Q (retry_Do o op).
Proof.
  intros D Hop w r w' t. unfold retry_Do.
  destruct (ctx_Err o (now w)); [intros [= <- <- <-]; auto|].
  destruct (maxAttempts o); [intros [= <- <- <-]; auto|].
  now apply quiet_retry_from.
Qed.

End Quiet.

Lemma quiet_weaken {A : Type} (Q Q' : action -> Prop) (m : M A) :
  (forall a, Q a -> Q' a) -> quiet Q m -> quiet Q' m.
Proof.
  intros I H w r w' t E. apply H in E as [L F]. split; [exact L|].
  eapply Forall_impl; eauto.
Qed.

(** ** Machine arithmetic *)

Lemma of_bigInt_in_range (x : Z) : U64.in_range (U64.of_bigInt x).
Proof.
  unfold U64.in_range, U64.of_bigInt, U64.wrap, U64.max.
  assert (0 <= Z.abs x mod U64.modulus < U64.modulus)
    by (apply Z.mod_pos_bound; reflexivity).
  lia.
Qed.

Lemma wrap_small (z : Z) : U64.in_range z -> U64.wrap z = z.
Proof.
  unfold U64.in_range, U64.max, U64.wrap. intros R.
  apply Z.mod_small. lia.
Qed.

(** The gates of [tick] stop the iteration exactly when the head is at
    most twelve blocks above the cursor. *)
Lemma scan_window_gate (c h : Z) :
  U64.in_range c -> U64.in_range h ->
  (scan_window c h = None <-> h <= c + 12).
Proof.
  unfold scan_window, ethBlockConfirmationDelay, U64.sub.
  intros Rc Rh.
  destruct (h <=? 12) eqn:G1.
  - apply Z.leb_le in G1. unfold U64.in_range in Rc. intuition lia.
  - apply Z.leb_gt in G1.
    rewrite wrap_small by (unfold U64.in_range in *; lia).
    destruct (h - 12 <=? c) eqn:G2.
    + apply Z.leb_le in G2. intuition lia.
    + apply Z.leb_gt in G2. split; [discriminate | lia].
Qed.

(** Past the gates, and when [c + 2000] fits in 64 bits, the range ends
    at the smaller of [h - 12] and [c + 2000]. *)
Lemma scan_window_end (c h latest : Z) :
  U64.in_range c -> U64.in_range h -> c + 2000 <= U64.max ->
  scan_window c h = Some latest ->
  latest = Z.min (h - 12) (c + 2000) /\ c < latest.
Proof.
  unfold scan_window, ethBlockConfirmationDelay, defaultBlocksToSearch,
    U64.sub, U64.add.
  intros Rc Rh Fit.
  destruct (h <=? 12) eqn:G1; [discriminate|]. apply Z.leb_gt in G1.
  rewrite wrap_small by (unfold U64.in_range in *; lia).
  destruct (h - 12 <=? c) eqn:G2; [discriminate|]. apply Z.leb_gt in G2.
  rewrite wrap_small by (unfold U64.in_range in *; lia).
  rewrite Z.gtb_ltb.
  destruct (c + 2000 <? h - 12) eqn:G3; intros [= <-].
  - apply Z.ltb_lt in G3. lia.
  - apply Z.ltb_ge in G3. lia.
Qed.

(** ** The retry harness *)

Lemma last_claim_read_app (t0 : trace) (r : answer LastClaimEvent) :
  last_claim_read (t0 ++ [LastClaimRead r]) = Some r.
Proof.
  induction t0 as [|a t0 IH]; simpl; [reflexivity|]. now rewrite IH.
Qed.

Lemma last_claim_read_app_r (t1 t2 : trace) (r : answer LastClaimEvent) :
  last_claim_read t2 = Some r -> last_claim_read (t1 ++ t2) = Some r.
Proof.
  intros E. induction t1 as [|a t1 IH]; simpl; [exact E|]. now rewrite IH.
Qed.

(** A successful retried call ends with a successful run of the
    operation. *)
Lemma retry_from_ok {A : Type} o budget (op : M A) w a w' t :
  retry_from o budget op w = (Ok a, w', t) ->
  exists w0 t0 t1, op w0 = (Ok a, w', t1) /\ t = t0 ++ t1.
Proof.
  revert w t.
  induction budget as [|budget IH]; intros w t; simpl;
    destruct (op w) as [[[a1|err|p] w1] t1] eqn:E;
    try discriminate;
    try (intros [= <- <- <-]; now exists w, [], t1).
  destruct (ctx_Err o (now w1)); [discriminate|].
  destruct (retry_from o budget op (advance w1)) as [[r2 w2] t2] eqn:R.
  intros [= -> <- <-].
  apply IH in R as (w0 & t0 & t3 & E3 & ->).
  exists w0, (t1 ++ RetryDelay :: t0), t3. split; [exact E3|].
  now rewrite <- app_assoc.
Qed.

Lemma retry_Do_ok {A : Type} o (op : M A) w a w' t :
  retry_Do o op w = (Ok a, w', t) ->
  exists w0 t0 t1, op w0 = (Ok a, w', t1) /\ t = t0 ++ t1.
Proof.
  unfold retry_Do. destruct (ctx_Err o (now w)); [discriminate|].
  destruct (maxAttempts o); [discriminate|].
  apply retry_from_ok.
Qed.


(** ** Traces *)

Lemma event_queries_app (t1 t2 : trace) :
  event_queries (t1 ++ t2) = event_queries t1 ++ event_queries t2.
Proof.
  induction t1 as [|[] t1 IH]; simpl; try exact IH; [reflexivity|].
  now rewrite IH.
Qed.

Lemma submitted_app (t1 t2 : trace) :
  submitted (t1 ++ t2) = submitted t1 ++ submitted t2.
Proof.
  induction t1 as [|[] t1 IH]; simpl; try exact IH; [reflexivity|].
  now rewrite IH.
Qed.

Lemma accepted_app (t1 t2 : trace) :
  accepted (t1 ++ t2) = accepted t1 ++ accepted t2.
Proof.
  induction t1 as [|[| | |c []| |] t1 IH]; simpl; try exact IH;
    [reflexivity|]. now rewrite IH.
Qed.

Lemma event_queries_none (t : trace) :
  Forall (fun a => match a with EventQuery _ _ _ => False | _ => True end) t ->
  event_queries t = [].
Proof.
  induction 1 as [|[] t Q F IH]; simpl; auto. contradiction.
Qed.

Lemma submitted_none (t : trace) :
  Forall (fun a => match a with Submit _ _ => False | _ => True end) t ->
  submitted t = [].
Proof.
  induction 1 as [|[] t Q F IH]; simpl; auto. contradiction.
Qed.

Lemma event_queries_all (P : Z -> Z -> Prop) (t : trace) :
  Forall (fun a => match a with EventQuery _ s e => P s e | _ => True end) t ->
  forall s e, In (s, e) (event_queries t) -> P s e.
Proof.
  induction 1 as [|[] t Q F IH]; simpl; auto; [contradiction|].
  intros s e [[= <- <-]|H]; auto.
Qed.

Lemma event_queries_In (q : event_query) (s e : Z) (t : trace) :
  In (EventQuery q s e) t -> In (s, e) (event_queries t).
Proof.
  induction t as [|a t IH]; simpl; [auto|].
  intros [->|H]; [now left|].
  destruct a; auto. right; auto.
Qed.

(* ================================================================== *)
(** ** The steps *)

Section StepFacts.

Context {sorter : SliceSorter}.
Variable o : PeggyOrchestrator.

Lemma quiet_getLatestEthHeight : quiet head_action (getLatestEthHeight o).
Proof.
  apply quiet_retry_Do; [exact I|].
  apply quiet_bind; [|intros; apply quiet_ret].
  apply quiet_wrap_error, quiet_interact. intros; exact I.
Qed.

Lemma quiet_getEthEvents (startBlock endBlock : Z) :
  quiet (scan_action startBlock endBlock)
    (getEthEvents o startBlock endBlock).
Proof.
  apply quiet_retry_Do; [exact I|].
  unfold scanEthEventsFn.
  repeat (apply quiet_bind;
          [apply quiet_wrap_error, quiet_interact; intros; now split
          |intros ?]).
  apply quiet_ret.
Qed.

Lemma quiet_sendEthEventClaim (event : any) :
  quiet submit_action (sendEthEventClaim o event).
Proof.
  destruct event; simpl;
    try (apply quiet_interact; intros; exact I).
  apply quiet_panic.
Qed.

Lemma quiet_send_each (sortedEvents : list any) :
  quiet submit_action (send_each o sortedEvents).
Proof.
  induction sortedEvents as [|event rest IH]; simpl.
  - apply quiet_ret.
  - apply quiet_bind; [apply quiet_sendEthEventClaim|intros _].
    apply quiet_bind; [now apply quiet_Sleep|intros _; exact IH].
Qed.

Lemma quiet_sendEventsFn (events : ethEvents) :
  quiet submit_action (sendEventsFn o events).
Proof.
  apply quiet_bind; [apply quiet_interact; intros; exact I|].
  intros lastClaim. cbv beta zeta.
  destruct (Num (Filter events _) =? 0)%nat; [apply quiet_ret|].
  apply quiet_bind; [apply quiet_lift|intros; apply quiet_send_each].
Qed.

Lemma quiet_sendNewEventClaims (events : ethEvents) :
  quiet submit_action (sendNewEventClaims o events).
Proof. apply quiet_retry_Do; [exact I | apply quiet_sendEventsFn]. Qed.

Lemma quiet_getLastClaimBlockHeight :
  quiet resync_action (retry_Do o (getLastClaimBlockHeight o)).
Proof.
  apply quiet_retry_Do; [exact I|].
  apply quiet_bind; [apply quiet_interact; intros; exact I|].
  intros; apply quiet_ret.
Qed.

(** [tick] is its two parts in sequence. *)
Lemma tick_phases (w : World) :
  tick o w
  = bind (scan_and_submit o)
      (fun end_of_range =>
         match end_of_range with
         | None => ret tt
         | Some latestHeight => advance_and_resync o latestHeight
         end) w.
Proof.
  unfold tick, scan_and_submit, advance_and_resync, scan_window,
    bind, get_loop, set_lastCheckedEthHeight, time_Since, ret.
  destruct (getLatestEthHeight o w) as [[[h|err|msg] w1] t1];
    try reflexivity.
  destruct (h <=? ethBlockConfirmationDelay);
    [now rewrite !app_nil_r|].
  destruct (U64.sub h ethBlockConfirmationDelay
            <=? lastCheckedEthHeight (loop w1));
    [now rewrite !app_nil_r|].
  destruct (getEthEvents o _ _ w1) as [[[events|err|msg] w2] t2] eqn:E2;
    try reflexivity.
  destruct (sendNewEventClaims o events w2) as [[[[]|err|msg] w3] t3]
    eqn:E3; try reflexivity.
  apply quiet_getEthEvents in E2 as [L2 _].
  apply quiet_sendNewEventClaims in E3 as [L3 _].
  unfold store_lastCheckedEthHeight.
  cbn [loop now lastResyncWithInjective].
  rewrite L3, L2.
  match goal with |- context [if ?c then _ else _] => destruct c end.
  - destruct (autoResync o _) as [[r4 w4] t4].
    f_equal. cbn [app]. now rewrite ?app_nil_r, <- ?app_assoc.
  - f_equal. cbn [app]. now rewrite ?app_nil_r, <- ?app_assoc.
Qed.

Lemma getLatestEthHeight_in_range w h w1 t1 :
  getLatestEthHeight o w = (Ok h, w1, t1) -> U64.in_range h.
Proof.
  intros E. apply retry_Do_ok in E as (w0 & t0 & t2 & E & _).
  unfold getLatestEthHeightFn in E.
  apply bind_ok_inv in E as (a & w2 & t3 & t4 & _ & E & _).
  injection E as <- _ _. apply of_bigInt_in_range.
Qed.

(** The first run of a retried operation. *)
Lemma retry_from_first {A : Type} budget (op : M A) w r w' t :
  retry_from o budget op w = (r, w', t) ->
  exists r1 w1 t1 t2, op w = (r1, w1, t1) /\ t = t1 ++ t2.
Proof.
  destruct budget as [|budget]; simpl;
    destruct (op w) as [[[a|err|p] w1] t1];
    try (intros [= <- <- <-]; eexists _, _, t1, [];
         split; [reflexivity | now rewrite app_nil_r]).
  destruct (ctx_Err o (now w1)).
  - intros [= <- <- <-]. eexists _, _, t1, [].
    split; [reflexivity | now rewrite app_nil_r].
  - destruct (retry_from o budget op (advance w1)) as [[r2 w2] t2].
    intros [= <- <- <-]. eexists _, _, t1, _. split; reflexivity.
Qed.

Lemma scanEthEventsFn_first startBlock endBlock w r w' t :
  scanEthEventsFn o startBlock endBlock w = (r, w', t) ->
  exists t', t = EventQuery QSendToCosmos startBlock endBlock :: t'.
Proof.
  unfold scanEthEventsFn. intros E.
  apply bind_inv in E
    as [(a & w1 & t1 & t2 & E & _ & ->)|(r1 & E & _)];
    unfold wrap_error, interact in E;
    destruct (of_answer _); injection E as _ _ <-; eexists; reflexivity.
Qed.

Lemma getEthEvents_first startBlock endBlock w r w' t :
  maxAttempts o <> O ->
  ctx_Err o (now w) = None ->
  getEthEvents o startBlock endBlock w = (r, w', t) ->
  exists t', t = EventQuery QSendToCosmos startBlock endBlock :: t'.
Proof.
  unfold getEthEvents, retry_Do. intros MA Live E. rewrite Live in E.
  destruct (maxAttempts o) as [|budget]; [contradiction|].
  apply retry_from_first in E as (r1 & w1 & t1 & t2 & E & ->).
  apply scanEthEventsFn_first in E as (t3 & ->).
  eexists; reflexivity.
Qed.

(** What the first part of [tick] does, by the answer to the head
    query. *)
Lemma scan_and_submit_inv w r w' t :
  scan_and_submit o w = (r, w', t) ->
  loop w' = loop w
  /\ ((exists r1, getLatestEthHeight o w = (r1, w', t) /\ stops r1 r)
      \/ exists h w1 t1,
           getLatestEthHeight o w = (Ok h, w1, t1)
           /\ match scan_window (lastCheckedEthHeight (loop w)) h with
              | None => r = Ok None /\ w' = w1 /\ t = t1
              | Some latest =>
                  exists t2,
                    t = t1 ++ t2
                    /\ Forall
                         (fun a =>
                            scan_action (lastCheckedEthHeight (loop w))
                              latest a
                            \/ submit_action a) t2
                    /\ (ctx_Err o (now w1) = None ->
                        In (EventQuery QSendToCosmos
                              (lastCheckedEthHeight (loop w)) latest) t2)
                    /\ (forall x, r = Ok x -> x = Some latest)
              end).
Proof.
  unfold scan_and_submit. intros E.
  apply bind_inv in E
    as [(h & w1 & t1 & t2 & E1 & E & ->)|(r1 & E1 & S)].
  2:{ split; [now apply quiet_getLatestEthHeight in E1|].
      left. now exists r1. }
  pose proof (quiet_getLatestEthHeight _ _ _ _ E1) as [L1 _].
  unfold bind at 1 in E. unfold get_loop at 1 in E.
  rewrite L1 in E.
  destruct (scan_window (lastCheckedEthHeight (loop w)) h)
    as [latest|] eqn:W.
  2:{ injection E as <- <- <-. split; [exact L1|].
      right. exists h, w1, t1. rewrite W, app_nil_r. auto. }
  destruct (bind _ _ w1) as [[r2 w2] t3] eqn:B.
  injection E as <- <- <-.
  assert (G : loop w2 = loop w1
              /\ Forall (fun a =>
                   scan_action (lastCheckedEthHeight (loop w)) latest a
                   \/ submit_action a) t3).
  { revert B. apply (quiet_bind _ (getEthEvents o _ latest)).
    - eapply quiet_weaken; [|apply quiet_getEthEvents]. now left.
    - intros events. apply quiet_bind; [|intros; apply quiet_ret].
      eapply quiet_weaken; [|apply quiet_sendNewEventClaims]. now right. }
  destruct G as [L2 F].
  split; [congruence|]. right. exists h, w1, t1.
  split; [exact E1|]. rewrite W. exists t3. repeat split; auto.
  - intros Live.
    assert (MA : maxAttempts o <> O).
    { intros Z. unfold getLatestEthHeight, retry_Do in E1.
      rewrite Z in E1. now destruct (ctx_Err o (now w)). }
    apply bind_inv in B
      as [(ev & w3 & t4 & t5 & E2 & _ & ->)|(r3 & E2 & _)];
      apply (getEthEvents_first _ _ _ _ _ _ MA Live) in E2 as (t8 & ->);
      now left.
  - intros x ->.
    apply bind_ok_inv in B as (ev & w3 & t4 & t5 & _ & B & _).
    apply bind_ok_inv in B as (u & w4 & t6 & t7 & _ & B & _).
    now injection B as <- _ _.
Qed.

Lemma getLastClaimBlockHeight_ok w height w' t :
  getLastClaimBlockHeight o w = (Ok height, w', t) ->
  exists lc, t = [LastClaimRead (Answer lc)]
          /\ height = EthereumEventHeight lc.
Proof.
  unfold getLastClaimBlockHeight, bind, interact, ret.
  destruct (LastClaimEventByAddr (inj o) (now w)) as [lc|err]; simpl;
    [|discriminate].
  intros [= <- <- <-]. now exists lc.
Qed.

(** What [autoResync] does: on success the cursor is the height of the
    last claim read and the time of the resync is the clock's. *)
Lemma autoResync_inv w r w' t :
  autoResync o w = (r, w', t) ->
  Forall resync_action t
  /\ match r with
     | Ok _ =>
         exists lc,
           last_claim_read t = Some (Answer lc)
           /\ loop w'
              = {| loopDuration := loopDuration (loop w);
                   lastResyncWithInjective := clock o (now w');
                   lastCheckedEthHeight := EthereumEventHeight lc |}
     | _ => loop w' = loop w
     end.
Proof.
  unfold autoResync. intros E.
  apply bind_inv in E
    as [(height & w1 & t1 & t2 & E1 & E & ->)|(r1 & E1 & S)].
  - pose proof (quiet_getLastClaimBlockHeight _ _ _ _ E1) as [L1 F1].
    unfold bind, set_lastCheckedEthHeight, time_Now,
      set_lastResyncWithInjective in E.
    injection E as <- <- <-.
    rewrite !app_nil_r. split; [exact F1|].
    apply retry_Do_ok in E1 as (w0 & t0 & t3 & E1 & ->).
    apply getLastClaimBlockHeight_ok in E1 as (lc & -> & ->).
    exists lc. rewrite last_claim_read_app.
    unfold store_lastResyncWithInjective, store_lastCheckedEthHeight.
    cbn [loop now loopDuration lastCheckedEthHeight]. rewrite L1. auto.
  - pose proof (quiet_getLastClaimBlockHeight _ _ _ _ E1) as [L1 F1].
    split; [exact F1|]. destruct r1, r; try contradiction; exact L1.
Qed.

Lemma advance_and_resync_inv latestHeight w r w' t :
  advance_and_resync o latestHeight w = (r, w', t) ->
  (clock o (now w) - lastResyncWithInjective (loop w) < 48 * Hour
   /\ r = Ok tt /\ w' = store_lastCheckedEthHeight latestHeight w /\ t = [])
  \/ (48 * Hour <= clock o (now w) - lastResyncWithInjective (loop w)
      /\ autoResync o (store_lastCheckedEthHeight latestHeight w) = (r, w', t)).
Proof.
  unfold advance_and_resync, bind, get_loop, set_lastCheckedEthHeight,
    time_Since, ret.
  cbn [loop now lastResyncWithInjective store_lastCheckedEthHeight].
  fold (store_lastCheckedEthHeight latestHeight w).
  destruct (_ >=? _) eqn:Due.
  - destruct (autoResync o _) as [[r4 w4] t4].
    intros [= <- <- <-]. right. split; [|reflexivity].
    apply Z.geb_le in Due. exact Due.
  - intros [= <- <- <-]. left. repeat split.
    rewrite Z.geb_leb in Due. apply Z.leb_gt in Due. exact Due.
Qed.

(** The first part of [tick], step by step. *)
Lemma scan_and_submit_eq w :
  scan_and_submit o w
  = match getLatestEthHeight o w with
    | (Ok h, w1, t1) =>
        match scan_window (lastCheckedEthHeight (loop w)) h with
        | None => (Ok None, w1, t1)
        | Some latest =>
            match getEthEvents o (lastCheckedEthHeight (loop w)) latest w1
            with
            | (Ok events, w2, t2) =>
                match sendNewEventClaims o events w2 with
                | (Ok _, w3, t3) => (Ok (Some latest), w3, t1 ++ t2 ++ t3)
                | (Error err, w3, t3) => (Error err, w3, t1 ++ t2 ++ t3)
                | (Panic msg, w3, t3) => (Panic msg, w3, t1 ++ t2 ++ t3)
                end
            | (Error err, w2, t2) => (Error err, w2, t1 ++ t2)
            | (Panic msg, w2, t2) => (Panic msg, w2, t1 ++ t2)
            end
        end
    | (Error err, w1, t1) => (Error err, w1, t1)
    | (Panic msg, w1, t1) => (Panic msg, w1, t1)
    end.
Proof.
  unfold scan_and_submit, bind, get_loop, ret.
  destruct (getLatestEthHeight o w) as [[[h|err|msg] w1] t1] eqn:E1;
    try reflexivity.
  apply quiet_getLatestEthHeight in E1 as [-> _].
  destruct (scan_window _ h) as [latest|]; [|now rewrite !app_nil_r].
  destruct (getEthEvents o _ latest w1) as [[[events|err|msg] w2] t2];
    try reflexivity.
  destruct (sendNewEventClaims o events w2) as [[[[]|err|msg] w3] t3];
    try reflexivity.
  now rewrite !app_nil_r.
Qed.

(** What [tick] does, by the result of its first part. *)
Lemma tick_inv w r w' t :
  tick o w = (r, w', t) ->
  exists r1 w1 t1,
    scan_and_submit o w = (r1, w1, t1)
    /\ match r1 with
       | Ok None => r = Ok tt /\ w' = w1 /\ t = t1
       | Ok (Some latestHeight) =>
           exists t2,
             advance_and_resync o latestHeight w1 = (r, w', t2)
             /\ t = t1 ++ t2
       | _ => stops r1 r /\ w' = w1 /\ t = t1
       end.
Proof.
  rewrite tick_phases. unfold bind.
  destruct (scan_and_submit o w) as [[[[latest|]|err|msg] w1] t1].
  - destruct (advance_and_resync o latest w1) as [[r2 w2] t2] eqn:E.
    intros [= <- <- <-]. exists (Ok (Some latest)), w1, t1.
    split; [reflexivity|]. now exists t2.
  - unfold ret. intros [= <- <- <-]. exists (Ok None), w1, t1.
    rewrite app_nil_r. auto.
  - intros [= <- <- <-]. exists (Error err), w1, t1. simpl. auto.
  - intros [= <- <- <-]. exists (Panic msg), w1, t1. simpl. auto.
Qed.

Lemma head_action_trace (t : trace) :
  Forall head_action t -> event_queries t = [] /\ submitted t = [].
Proof.
  intros F. split; [apply event_queries_none | apply submitted_none];
    (eapply Forall_impl; [|exact F]); now intros [].
Qed.

Lemma resync_action_trace (t : trace) :
  Forall resync_action t -> event_queries t = [].
Proof.
  intros F. apply event_queries_none.
  (eapply Forall_impl; [|exact F]); now intros [].
Qed.

Lemma advance_and_resync_trace latestHeight w r w' t :
  advance_and_resync o latestHeight w = (r, w', t) ->
  event_queries t = [].
Proof.
  intros E. apply advance_and_resync_inv in E as [(_&_&_& ->)|[_ E]];
    [reflexivity|].
  apply autoResync_inv in E as [F _]. now apply resync_action_trace.
Qed.

(** What a tick that returns no error did: either a gate stopped it
    after the head query, or the head query, the scan and the submit
    step succeeded, the cursor moved, and the resync ran if it was
    due. *)
Lemma tick_ok_inv w w' t :
  tick o w = (Ok tt, w', t) ->
  let c := lastCheckedEthHeight (loop w) in
  (exists h t1,
      getLatestEthHeight o w = (Ok h, w', t1)
      /\ scan_window c h = None
      /\ loop w' = loop w
      /\ event_queries t = [])
  \/ (exists h w1 t1 latest events w2 t2 w3 t3 t4,
        getLatestEthHeight o w = (Ok h, w1, t1)
        /\ scan_window c h = Some latest
        /\ getEthEvents o c latest w1 = (Ok events, w2, t2)
        /\ sendNewEventClaims o events w2 = (Ok tt, w3, t3)
        /\ loop w3 = loop w
        /\ t = t1 ++ t2 ++ t3 ++ t4
        /\ (forall s e, In (s, e) (event_queries t) -> s = c /\ e = latest)
        /\ ((clock o (now w3) - lastResyncWithInjective (loop w)
              < 48 * Hour
             /\ w' = store_lastCheckedEthHeight latest w3 /\ t4 = [])
            \/ (48 * Hour
                <= clock o (now w3) - lastResyncWithInjective (loop w)
                /\ autoResync o (store_lastCheckedEthHeight latest w3)
                   = (Ok tt, w', t4)))).
Proof.
  intros E c.
  apply tick_inv in E as (r1 & w1 & t1 & E1 & E).
  pose proof (scan_and_submit_inv _ _ _ _ E1)
    as [L1 [(r0 & E0 & S0)|(h & w2 & t2 & E0 & I)]].
  { destruct r0, r1; try contradiction; now destruct E. }
  fold c in I.
  rewrite scan_and_submit_eq, E0 in E1. fold c in E1.
  destruct (scan_window c h) as [latest|] eqn:W.
  - destruct I as (t3 & -> & F3 & _ & R3).
    destruct (getEthEvents o c latest w2) as [[[events|err|msg] w3] t4]
      eqn:E3;
      try (injection E1 as <- _ _; now destruct E).
    destruct (sendNewEventClaims o events w3) as [[[[]|err|msg] w4] t5]
      eqn:E4;
      try (injection E1 as <- _ _; now destruct E).
    injection E1 as <- <- T. destruct E as (t6 & E & ->).
    apply app_inv_head in T. subst t3.
    right. exists h, w2, t2, latest, events, w3, t4, w4, t5, t6.
    repeat (split; [first [reflexivity | assumption]|]).
    split; [now rewrite <- !app_assoc|].
    split.
    + pose proof (quiet_getLatestEthHeight _ _ _ _ E0) as [_ F2].
      apply head_action_trace in F2 as [Q2 _].
      rewrite !event_queries_app, Q2.
      rewrite (advance_and_resync_trace _ _ _ _ _ E), app_nil_r.
      cbn [app]. rewrite <- event_queries_app.
      apply (event_queries_all (fun s e => s = c /\ e = latest)).
      eapply Forall_impl; [|exact F3].
      intros [] [K|K]; simpl in *; auto; contradiction.
    + apply advance_and_resync_inv in E
        as [(Due & _ & -> & ->)|(Due & E)]; rewrite L1 in Due; auto.
  - destruct I as (-> & -> & ->). destruct E as (_ & -> & ->).
    left. exists h, t2. repeat split; auto.
    pose proof (quiet_getLatestEthHeight _ _ _ _ E0) as [_ F2].
    now apply head_action_trace in F2.
Qed.

(** *** One attempt to submit *)

Lemma sendEthEventClaim_known (event : any) (w : World) :
  known_kind event ->
  exists c (a : answer unit),
    claim_of event = Some c
    /\ sendEthEventClaim o event w
       = (of_answer a, advance w, [Submit c (accepted_answer a)]).
Proof.
  destruct event; simpl; intros K; try contradiction;
    unfold interact; eexists _, _; split; reflexivity.
Qed.

(** The loop over the sorted events submits a prefix of them, sleeps
    1200 ms after each accepted claim, and stops at the first claim
    that is refused. *)
Lemma send_each_inv (sortedEvents : list any) w r w' t :
  Forall known_kind sortedEvents ->
  send_each o sortedEvents w = (r, w', t) ->
  is_panic r = false
  /\ sleeps_between false t = true
  /\ (exists k, submitted t = claims_of (firstn k sortedEvents))
  /\ (r = Ok tt -> accepted t = claims_of sortedEvents).
Proof.
  intros K. revert w t.
  induction K as [|event rest Kev K IH]; intros w t; simpl.
  - intros [= <- <- <-]. repeat split; auto. now exists O.
  - destruct (sendEthEventClaim_known event w Kev) as (c & a & C & Sd).
    unfold bind at 1. rewrite Sd, C.
    destruct a as [[]|err]; simpl.
    + unfold bind at 1. unfold time_Sleep at 1.
      destruct (send_each o rest (advance (advance w)))
        as [[r2 w2] t2] eqn:E.
      intros [= <- <- <-].
      apply IH in E as (P & Sl & (k & Sub) & Acc).
      cbn [app sleeps_between submitted accepted negb andb].
      rewrite Z.eqb_refl. cbn [negb andb].
      repeat split; auto.
      * exists (S k). simpl. now rewrite C, Sub.
      * intros ->. now rewrite Acc.
    + intros [= <- <- <-]. repeat split; auto; try discriminate.
      exists 1%nat. simpl. now rewrite C.
Qed.

(** An attempt that succeeds got every event of nonce greater than the
    last claimed nonce accepted. *)
Lemma sendEventsFn_accepts (events : ethEvents) w w' t :
  sendEventsFn o events w = (Ok tt, w', t) ->
  exists lastClaim t',
    t = LastClaimRead (Answer lastClaim) :: t'
    /\ forall event c,
         In event (events_of events) ->
         EthereumEventNonce lastClaim < nonce_of event ->
         claim_of event = Some c -> In c (accepted t).
Proof.
  unfold sendEventsFn, bind at 1, interact.
  destruct (LastClaimEventByAddr (inj o) (now w)) as [lastClaim|err];
    simpl of_answer; cbv iota beta; [|discriminate].
  set (n := EthereumEventNonce lastClaim).
  destruct (Sort_ok (Filter events n)) as (sorted & So & P & _).
  assert (I' : forall event,
             In event (events_of events) -> n < nonce_of event ->
             In event (events_of (Filter events n))).
  { intros event I G. rewrite events_of_Filter. apply filter_In.
    split; [exact I | now apply Z.ltb_lt]. }
  destruct (Num (Filter events n) =? 0)%nat eqn:Z.
  - unfold ret. intros [= <- <-]. exists lastClaim, []. split; [reflexivity|].
    intros event c I G _. exfalso.
    apply Nat.eqb_eq in Z. rewrite <- events_of_length in Z.
    apply length_zero_iff_nil in Z.
    specialize (I' event I G). now rewrite Z in I'.
  - unfold bind at 1, lift. rewrite So.
    destruct (send_each o sorted (advance w)) as [[r2 w2] t2] eqn:E.
    intros [= -> <- <-].
    apply send_each_inv in E as (_ & _ & _ & Acc).
    2:{ apply Forall_forall. intros x Hx.
        apply (events_of_known (Filter events n)).
        apply (Permutation_in _ (Permutation_sym P)), Hx. }
    exists lastClaim, t2. split; [reflexivity|].
    intros event c I G C. cbn [app accepted]. rewrite (Acc eq_refl).
    apply (claims_of_In _ event); [|exact C].
    apply (Permutation_in _ P). now apply I'.
Qed.

Lemma sendNewEventClaims_accepts (events : ethEvents) w w' t :
  sendNewEventClaims o events w = (Ok tt, w', t) ->
  exists lastClaim,
    In (LastClaimRead (Answer lastClaim)) t
    /\ forall event c,
         In event (events_of events) ->
         EthereumEventNonce lastClaim < nonce_of event ->
         claim_of event = Some c -> In c (accepted t).
Proof.
  intros E. apply retry_Do_ok in E as (w0 & t0 & t1 & E & ->).
  apply sendEventsFn_accepts in E as (lastClaim & t2 & -> & A).
  exists lastClaim. split.
  - apply in_or_app. right. now left.
  - intros event c I G C. rewrite accepted_app. apply in_or_app. right.
    now apply (A event).
Qed.

End StepFacts.

(* ================================================================== *)
(** ** Claims on the loop *)

(** C4 (amended).  For every tick, with head height [h] and cursor [c] at
    the start of the tick: if [h <= c + 12] the tick ends without error,
    makes no event query, submits no claim and leaves the cursor
    unchanged; otherwise, provided [c + 2000] fits in 64 bits, every
    event query of the tick is over the window
    [[c, min(h - 12, c + 2000)]], which the tick does query unless the
    context is cancelled, so the width of the window never exceeds
    2000. *)
Theorem tick_scan_window {sorter : SliceSorter} (o : PeggyOrchestrator)
    (w : World) (h : Z) (w1 : World) (t1 : trace)
    (r : result unit) (w' : World) (t : trace) :
  U64.in_range (lastCheckedEthHeight (loop w)) ->
  getLatestEthHeight o w = (Ok h, w1, t1) ->
  tick o w = (r, w', t) ->
  let c := lastCheckedEthHeight (loop w) in
  (h <= c + 12 ->
   r = Ok tt
   /\ event_queries t = []
   /\ submitted t = []
   /\ lastCheckedEthHeight (loop w') = c)
  /\ (c + 12 < h -> c + 2000 <= U64.max ->
      let latest := Z.min (h - 12) (c + 2000) in
      (forall s e, In (s, e) (event_queries t) -> s = c /\ e = latest)
      /\ (ctx_Err o (now w1) = None -> In (c, latest) (event_queries t))
      /\ c < latest
      /\ latest - c <= 2000).
Proof.
  intros Rc E1 E c.
  pose proof (getLatestEthHeight_in_range _ _ _ _ _ E1) as Rh.
  pose proof (quiet_getLatestEthHeight _ _ _ _ _ E1) as [L1 F1].
  apply head_action_trace in F1 as [Q1 S1].
  apply tick_inv in E as (r1 & w2 & t2 & E2 & E).
  apply scan_and_submit_inv in E2
    as [L2 [(r0 & E0 & S0)|(h' & w1' & t1' & E0 & E2)]];
    rewrite E1 in E0; [injection E0 as <- _ _; contradiction|].
  injection E0 as <- <- <-. fold c in E2.
  split.
  - intros G. apply (scan_window_gate c h Rc Rh) in G.
    rewrite G in E2. destruct E2 as (-> & -> & ->).
    destruct E as (-> & -> & ->). now rewrite L1.
  - intros G Fit latest.
    destruct (scan_window c h) as [latest'|] eqn:W.
    2:{ apply (scan_window_gate c h Rc Rh) in W. lia. }
    apply (scan_window_end c h latest' Rc Rh Fit) in W as [W Lt].
    fold latest in W. subst latest'.
    destruct E2 as (t3 & -> & F3 & I3 & R3).
    assert (Q : event_queries t = event_queries t3).
    { destruct r1 as [[latest'|]|err|msg].
      - destruct E as (t4 & E & ->).
        apply advance_and_resync_trace in E.
        now rewrite !event_queries_app, Q1, E, app_nil_r.
      - destruct E as (_ & _ & ->). now rewrite event_queries_app, Q1.
      - destruct E as (_ & _ & ->). now rewrite event_queries_app, Q1.
      - destruct E as (_ & _ & ->). now rewrite event_queries_app, Q1. }
    rewrite Q. split; [|split; [|split]].
    + apply (event_queries_all (fun s e => s = c /\ e = latest)).
      eapply Forall_impl; [|exact F3].
      intros [] [K|K]; simpl in *; auto; contradiction.
    + intros Live. eapply event_queries_In. now apply I3.
    + exact Lt.
    + unfold latest. lia.
Qed.

Lemma tick_scan_window_witness :
  let t := snd (@tick insertion_sorter Examples.mixed_ordering
                  (Examples.start 1000)) in
  (forall s e, In (s, e) (event_queries t) -> s = 1000 /\ e = 1188)
  /\ In (1000, 1188) (event_queries t)
  /\ 1000 < 1188
  /\ 1188 - 1000 <= 2000.
Proof.
  assert (Rc : U64.in_range 1000) by (unfold U64.in_range; vm_compute;
                                      split; discriminate).
  assert (Above : 1000 + 12 < 1200) by reflexivity.
  assert (Fit : 1000 + 2000 <= U64.max) by (vm_compute; discriminate).
  destruct (proj2
              (@tick_scan_window insertion_sorter Examples.mixed_ordering
                 (Examples.start 1000) 1200 _ _ _ _ _ Rc eq_refl eq_refl)
              Above Fit) as (All & Some_ & Lt & Width).
  exact (conj All (conj (Some_ eq_refl) (conj Lt Width))).
Defined.

(** C4 (as stated) fails where [c + 2000] does not fit in 64 bits: with
    the cursor 1000 below the largest height and the head at the
    largest height, the tick passes the gates and queries the range
    that ends at block 999, not at [min(h - 12, c + 2000)]. *)
Lemma tick_scan_window_wraps :
  let c := U64.max - 1000 in
  let h := U64.max in
  let w := Examples.start c in
  U64.in_range c
  /\ fst (fst (getLatestEthHeight Examples.highest w)) = Ok h
  /\ ~ h <= c + 12
  /\ In (c, 999)
       (event_queries (snd (@tick insertion_sorter Examples.highest w)))
  /\ 999 <> Z.min (h - 12) (c + 2000).
Proof.
  vm_compute. repeat split; try discriminate; auto.
Qed.

(** C2 (amended).  For every tick that returns an error from the head
    query, from the scan or from the submit step (after the retries),
    the loop state, and with it [last_checked_height], is the same
    after the tick as before it; and whenever a tick changes
    [last_checked_height], the head query, the scan and the submit step
    all succeeded in it.  The resync that follows the advance of the
    cursor is not covered: when it fails, the tick returns its error and
    the cursor has moved. *)
Theorem tick_failure_keeps_cursor {sorter : SliceSorter}
    (o : PeggyOrchestrator) (w : World)
    (r : result unit) (w' : World) (t : trace) :
  tick o w = (r, w', t) ->
  let c := lastCheckedEthHeight (loop w) in
  (forall err w1 t1,
      getLatestEthHeight o w = (Error err, w1, t1) ->
      r = Error err /\ loop w' = loop w)
  /\ (forall h w1 t1 latest err w2 t2,
      getLatestEthHeight o w = (Ok h, w1, t1) ->
      scan_window c h = Some latest ->
      getEthEvents o c latest w1 = (Error err, w2, t2) ->
      r = Error err /\ loop w' = loop w)
  /\ (forall h w1 t1 latest events w2 t2 err w3 t3,
      getLatestEthHeight o w = (Ok h, w1, t1) ->
      scan_window c h = Some latest ->
      getEthEvents o c latest w1 = (Ok events, w2, t2) ->
      sendNewEventClaims o events w2 = (Error err, w3, t3) ->
      r = Error err /\ loop w' = loop w)
  /\ (lastCheckedEthHeight (loop w') <> c ->
      exists latest events w3, steps_succeeded o w latest events w3).
Proof.
  intros E c.
  apply tick_inv in E as (r1 & w1 & t1 & E1 & E).
  pose proof (scan_and_submit_inv _ _ _ _ _ E1) as [L1 _].
  rewrite scan_and_submit_eq in E1. fold c in E1.
  split; [|split; [|split]].
  - intros err w2 t2 H.
    rewrite H in E1. injection E1 as <- <- <-.
    destruct E as (S & -> & _). split; [|exact L1].
    destruct r; try contradiction. now rewrite S.
  - intros h w2 t2 latest err w3 t3 H H0 H1.
    rewrite H, H0, H1 in E1. injection E1 as <- <- <-.
    destruct E as (S & -> & _). split; [|exact L1].
    destruct r; try contradiction. now rewrite S.
  - intros h w2 t2 latest events w3 t3 err w4 t4 H H0 H1 H2.
    rewrite H, H0, H1, H2 in E1. injection E1 as <- <- <-.
    destruct E as (S & -> & _). split; [|exact L1].
    destruct r; try contradiction. now rewrite S.
  - intros Changed.
    destruct r1 as [[latest|]|err|msg];
      try (destruct E as (_ & -> & _); now rewrite L1 in Changed).
    destruct (getLatestEthHeight o w) as [[[h|err|msg] w2] t2] eqn:E2;
      try discriminate.
    destruct (scan_window c h) as [latest'|] eqn:W; [|discriminate].
    destruct (getEthEvents o c latest' w2) as [[[events|err|msg] w3] t3]
      eqn:E3; try discriminate.
    destruct (sendNewEventClaims o events w3) as [[[[]|err|msg] w4] t4]
      eqn:E4; try discriminate.
    exists latest', events, w4. exists h, w2, t2, w3, t3, t4. auto.
Qed.

Lemma tick_failure_keeps_cursor_witness :
  let x := @tick insertion_sorter Examples.scan_fails (Examples.start 1000) in
  fst (fst x)
  = Error "failed to get SendToCosmos events: no provider"%string
  /\ loop (snd (fst x)) = loop (Examples.start 1000).
Proof.
  refine (proj1 (proj2
            (@tick_failure_keeps_cursor insertion_sorter Examples.scan_fails
               (Examples.start 1000) _ _ _ eq_refl))
            1200 _ _ 1188 _ _ _ eq_refl eq_refl eq_refl).
Defined.

(** C2 (as stated) fails when the step that fails is the resync: the
    cursor has moved before.  Head at 1100, cursor at 1000, nothing to
    claim, 49 hours since the last resync, and the home chain fails to
    answer the resync: the tick returns an error and leaves the cursor
    at 1088. *)
Lemma tick_error_after_advance :
  let w := Examples.start 1000 in
  let x := @tick insertion_sorter Examples.resync_fails w in
  fst (fst x) = Error "timeout"%string
  /\ lastCheckedEthHeight (loop w) = 1000
  /\ lastCheckedEthHeight (loop (snd (fst x))) = 1088.
Proof. vm_compute. repeat split. Qed.

(** C1 (amended).  For every attempt of the submit step of a tick (one
    run of the retried operation: it reads the last claim, filters, sorts
    and submits): the claims handed to the home chain in the attempt are
    in ascending order of event nonce, strictly ascending when the nonces
    of the scanned events are unique; each nonce is strictly greater than
    the [ethereum_event_nonce] of the last claim read at the start of the
    attempt; a sleep of 1200 ms separates consecutive submissions; and an
    attempt that succeeds got every scanned event of greater nonce
    accepted.  When the read of the last claim fails, nothing is
    submitted. *)
Theorem submit_attempt_ascending {sorter : SliceSorter}
    (o : PeggyOrchestrator) (events : ethEvents) (w : World)
    (r : result unit) (w' : World) (t : trace) :
  sendEventsFn o events w = (r, w', t) ->
  match LastClaimEventByAddr (inj o) (now w) with
  | Failure err => r = Error err /\ submitted t = []
  | Answer lastClaim =>
      let n := EthereumEventNonce lastClaim in
      StronglySorted Z.le (map claim_nonce (submitted t))
      /\ (unique_nonces events ->
          StronglySorted Z.lt (map claim_nonce (submitted t)))
      /\ Forall (fun c => n < claim_nonce c) (submitted t)
      /\ sleeps_between false t = true
      /\ (r = Ok tt ->
          forall event c,
            In event (events_of events) -> n < nonce_of event ->
            claim_of event = Some c -> In c (accepted t))
  end.
Proof.
  unfold sendEventsFn, bind at 1, interact.
  destruct (LastClaimEventByAddr (inj o) (now w)) as [lastClaim|err];
    simpl of_answer; cbv iota beta.
  2:{ intros [= <- <- <-]. auto. }
  set (n := EthereumEventNonce lastClaim).
  destruct (Sort_ok (Filter events n)) as (sorted & So & P & St).
  assert (K : Forall known_kind sorted).
  { apply Forall_forall. intros x Hx.
    apply (events_of_known (Filter events n)).
    apply (Permutation_in _ (Permutation_sym P)), Hx. }
  destruct (Num (Filter events n) =? 0)%nat eqn:Z.
  - unfold ret. intros [= <- <- <-]. simpl.
    split; [constructor|]. split; [constructor|].
    split; [constructor|]. split; [reflexivity|].
    intros _ event c I G _. exfalso.
    apply Nat.eqb_eq in Z. rewrite <- events_of_length in Z.
    apply length_zero_iff_nil in Z.
    assert (I' : In event (events_of (Filter events n))).
    { rewrite events_of_Filter. apply filter_In. split; [exact I|].
      now apply Z.ltb_lt. }
    now rewrite Z in I'.
  - unfold bind at 1, lift. rewrite So.
    destruct (send_each o sorted (advance w)) as [[r2 w2] t2] eqn:E.
    intros [= <- <- <-].
    apply send_each_inv in E as (_ & Sl & (k & Sub) & Acc); [|exact K].
    cbn [app submitted accepted sleeps_between]. rewrite Sub.
    assert (Kk : Forall known_kind (firstn k sorted)).
    { apply Forall_forall. intros x Hx. rewrite Forall_forall in K.
      apply K. rewrite <- (firstn_skipn k sorted).
      apply in_or_app. now left. }
    rewrite (claims_of_nonces _ Kk).
    split; [|split; [|split; [|split]]].
    + apply StronglySorted_map_key. now apply StronglySorted_firstn.
    + intros U.
      destruct (Sort_strict (Filter events n)
                  (unique_nonces_Filter events n U))
        as (sorted' & So' & _ & St').
      rewrite So in So'. injection So' as <-.
      apply StronglySorted_map_key. now apply StronglySorted_firstn.
    + apply Forall_forall. intros c Hc.
      apply claims_of_from in Hc as (event & I & C).
      rewrite (claim_of_nonce _ _ C).
      assert (I' : In event (events_of (Filter events n))).
      { apply (Permutation_in _ (Permutation_sym P)).
        rewrite <- (firstn_skipn k sorted). apply in_or_app. now left. }
      rewrite events_of_Filter in I'. apply filter_In in I' as [_ G].
      now apply Z.ltb_lt in G.
    + exact Sl.
    + intros R event c I G C. rewrite (Acc R).
      apply (claims_of_In _ event); [|exact C].
      apply (Permutation_in _ P).
      rewrite events_of_Filter. apply filter_In. split; [exact I|].
      now apply Z.ltb_lt.
Qed.

Lemma submit_attempt_ascending_witness :
  let t := snd (@sendEventsFn insertion_sorter Examples.mixed_ordering
                  Examples.mixed (Examples.start 1000)) in
  unique_nonces Examples.mixed
  /\ map claim_nonce (submitted t) = [8; 9; 10]
  /\ StronglySorted Z.lt (map claim_nonce (submitted t))
  /\ Forall (fun c => 7 < claim_nonce c) (submitted t)
  /\ sleeps_between false t = true.
Proof.
  split; [exact mixed_unique|]. split; [reflexivity|].
  pose proof (@submit_attempt_ascending insertion_sorter
                Examples.mixed_ordering Examples.mixed (Examples.start 1000)
                _ _ _ eq_refl) as (_ & S & F & Sl & _).
  exact (conj (S mixed_unique) (conj F Sl)).
Defined.

(** C1 (as stated) fails over a whole tick.  When a claim is refused,
    the submit step is retried and starts again from the last claim the
    home chain reports: with the events 8, 9, 10, the last claim 7 and
    the second claim refused once, the tick hands over 8, 9, 8, 9, 10 and
    gets 8, 8, 9, 10 accepted, and no sleep of 1200 ms lies between the
    refused claim and the next one.  And when two scanned events carry
    the same nonce, both are submitted, one after the other. *)
Lemma tick_claims_not_ascending :
  let x := @tick insertion_sorter Examples.refused_once
             (Examples.start 1000) in
  let y := @tick insertion_sorter Examples.repeated_nonce
             (Examples.start 1000) in
  (unique_nonces Examples.mixed
   /\ fst (fst x) = Ok tt
   /\ map claim_nonce (submitted (snd x)) = [8; 9; 8; 9; 10]
   /\ map claim_nonce (accepted (snd x)) = [8; 8; 9; 10]
   /\ ~ StronglySorted Z.lt (map claim_nonce (accepted (snd x)))
   /\ sleeps_between false (snd x) = false)
  /\ (fst (fst y) = Ok tt
      /\ map claim_nonce (submitted (snd y)) = [8; 9; 10; 10]
      /\ ~ StronglySorted Z.lt (map claim_nonce (submitted (snd y)))).
Proof.
  split.
  - split; [exact mixed_unique|]. repeat split.
    change (~ StronglySorted Z.lt [8; 8; 9; 10]). intros S.
    apply StronglySorted_inv in S as [_ F].
    apply Forall_inv in F. lia.
  - repeat split.
    change (~ StronglySorted Z.lt [8; 9; 10; 10]). intros S.
    apply StronglySorted_inv in S as [S _].
    apply StronglySorted_inv in S as [S _].
    apply StronglySorted_inv in S as [_ F].
    apply Forall_inv in F. lia.
Qed.

(** The moment of the test for the resync, read off the steps of the
    tick. *)
Lemma resync_check_moment_gate {sorter : SliceSorter}
    (o : PeggyOrchestrator) w h w1 t1 :
  getLatestEthHeight o w = (Ok h, w1, t1) ->
  scan_window (lastCheckedEthHeight (loop w)) h = None ->
  resync_check_moment o w = None.
Proof.
  intros E W. unfold resync_check_moment.
  now rewrite scan_and_submit_eq, E, W.
Qed.

Lemma resync_check_moment_steps {sorter : SliceSorter}
    (o : PeggyOrchestrator) w h w1 t1 latest events w2 t2 w3 t3 :
  getLatestEthHeight o w = (Ok h, w1, t1) ->
  scan_window (lastCheckedEthHeight (loop w)) h = Some latest ->
  getEthEvents o (lastCheckedEthHeight (loop w)) latest w1
  = (Ok events, w2, t2) ->
  sendNewEventClaims o events w2 = (Ok tt, w3, t3) ->
  resync_check_moment o w = Some (now w3).
Proof.
  intros E1 W E2 E3. unfold resync_check_moment.
  now rewrite scan_and_submit_eq, E1, W, E2, E3.
Qed.

(** C3 (amended).  For every tick that completes without error, started
    with a cursor [c] such that [c + 2000] fits in 64 bits: when the
    autoresync does not run in the tick (the tick returns before the
    test for the resync, or less than 48 hours have passed since the
    last resync at the one moment the tick reads the clock for that
    test), [last_checked_height] after the tick is greater than or equal
    to its value before; and when the autoresync runs (48 hours or more
    have passed at that moment), [last_checked_height] is the
    [ethereum_event_height] of the last claim the tick read. *)
Theorem tick_cursor_monotone {sorter : SliceSorter} (o : PeggyOrchestrator)
    (w w' : World) (t : trace) :
  tick o w = (Ok tt, w', t) ->
  let c := lastCheckedEthHeight (loop w) in
  U64.in_range c -> c + 2000 <= U64.max ->
  ((forall m,
       resync_check_moment o w = Some m ->
       clock o m - lastResyncWithInjective (loop w) < 48 * Hour) ->
   c <= lastCheckedEthHeight (loop w'))
  /\ (forall m,
       resync_check_moment o w = Some m ->
       48 * Hour <= clock o m - lastResyncWithInjective (loop w) ->
       exists lastClaim,
         last_claim_read t = Some (Answer lastClaim)
         /\ lastCheckedEthHeight (loop w')
            = EthereumEventHeight lastClaim).
Proof.
  intros E c Rc Fit.
  apply tick_ok_inv in E
    as [(h & t1 & E1 & W & L & _)
       |(h & w1 & t1 & latest & events & w2 & t2 & w3 & t3 & t4
         & E1 & W & E2 & E3 & L3 & -> & _ & R)].
  { rewrite L. split; [intros; unfold c; lia|].
    intros m M. now rewrite (resync_check_moment_gate o _ _ _ _ E1 W) in M. }
  pose proof (resync_check_moment_steps o _ _ _ _ _ _ _ _ _ _ E1 W E2 E3)
    as M.
  apply getLatestEthHeight_in_range in E1.
  apply (scan_window_end _ _ _ Rc E1 Fit) in W as [_ Lt]. fold c in Lt.
  destruct R as [(Due & -> & ->)|(Due & E)].
  - split; [intros; simpl; lia|].
    intros m Hm Ge. rewrite M in Hm. injection Hm as <-. lia.
  - split.
    + intros Before. specialize (Before _ M). lia.
    + intros _ _ _. apply autoResync_inv in E as [_ (lc & Rd & ->)].
      exists lc. split; [|reflexivity].
      now do 3 apply last_claim_read_app_r.
Qed.

(** On a clock that advances by one second at every moment, the tick
    started with the cursor at 5000 and the head at 5100 reads the clock
    for the test at the moment 7: no resync, and the cursor moves to
    5088. *)
Lemma tick_cursor_monotone_witness :
  let w := Examples.start 5000 in
  let x := @tick insertion_sorter Examples.ticking w in
  @resync_check_moment insertion_sorter Examples.ticking w = Some 7%nat
  /\ lastCheckedEthHeight (loop w)
     <= lastCheckedEthHeight (loop (snd (fst x)))
  /\ lastCheckedEthHeight (loop (snd (fst x))) = 5088.
Proof.
  split; [reflexivity|]. split; [|reflexivity].
  refine (proj1
            (@tick_cursor_monotone insertion_sorter Examples.ticking
               (Examples.start 5000) _ _ eq_refl _ _) _).
  - unfold U64.in_range. vm_compute. split; discriminate.
  - vm_compute. discriminate.
  - intros m M. injection M as <-. vm_compute. reflexivity.
Defined.

(** C3 (as stated) fails for a tick in which the autoresync runs: with
    the cursor at 5000, the head at 5100, 49 hours since the last resync
    and the last claim observed at the height 4200, the tick completes
    without error and leaves the cursor at 4200. *)
Lemma tick_cursor_rewinds :
  let w := Examples.start 5000 in
  let x := @tick insertion_sorter Examples.rewind w in
  fst (fst x) = Ok tt
  /\ lastCheckedEthHeight (loop w) = 5000
  /\ lastCheckedEthHeight (loop (snd (fst x))) = 4200
  /\ ~ 5000 <= 4200.
Proof.
  split; [reflexivity|]. split; [reflexivity|]. split; [reflexivity|lia].
Qed.

(** C8 (amended).  Running the autoresync twice in a row, with
    [last_claim_event] giving the same answer to both runs, leaves
    [last_checked_height] as one run leaves it: the height of that
    answer, a function of the answer alone.  The loop duration is
    untouched, and [last_resync_time] is what the clock shows at the end
    of each run, so that the two states are equal exactly when the clock
    shows the same time at the end of both runs. *)
Theorem autoResync_twice (o : PeggyOrchestrator) (w w1 w2 : World)
    (t1 t2 : trace) (lastClaim : LastClaimEvent) :
  autoResync o w = (Ok tt, w1, t1) ->
  autoResync o w1 = (Ok tt, w2, t2) ->
  last_claim_read t1 = Some (Answer lastClaim) ->
  last_claim_read t2 = Some (Answer lastClaim) ->
  lastCheckedEthHeight (loop w1) = EthereumEventHeight lastClaim
  /\ lastCheckedEthHeight (loop w2) = lastCheckedEthHeight (loop w1)
  /\ loopDuration (loop w2) = loopDuration (loop w1)
  /\ lastResyncWithInjective (loop w1) = clock o (now w1)
  /\ lastResyncWithInjective (loop w2) = clock o (now w2)
  /\ (loop w2 = loop w1 <-> clock o (now w2) = clock o (now w1)).
Proof.
  intros E1 E2 R1 R2.
  apply autoResync_inv in E1 as [_ (lc1 & R1' & L1)].
  apply autoResync_inv in E2 as [_ (lc2 & R2' & L2)].
  rewrite R1 in R1'. injection R1' as <-.
  rewrite R2 in R2'. injection R2' as <-.
  rewrite L2, L1. simpl. repeat split; auto; congruence.
Qed.

Lemma autoResync_twice_witness :
  let x := autoResync Examples.rewind (Examples.start 5000) in
  let y := autoResync Examples.rewind (snd (fst x)) in
  lastCheckedEthHeight (loop (snd (fst x))) = 4200
  /\ lastCheckedEthHeight (loop (snd (fst y)))
     = lastCheckedEthHeight (loop (snd (fst x))).
Proof.
  pose proof (autoResync_twice Examples.rewind (Examples.start 5000) _ _ _ _
                {| EthereumEventNonce := 7; EthereumEventHeight := 4200 |}
                eq_refl eq_refl eq_refl eq_refl) as (H1 & H2 & _).
  exact (conj H1 H2).
Defined.

(** C8 (as stated) fails on [last_resync_time]: with a clock that
    advances between the two runs and the same answer of
    [last_claim_event] to both, the state after the second run differs
    from the state after the first. *)
Lemma autoResync_twice_differs :
  let x := autoResync Examples.ticking (Examples.start 5000) in
  let y := autoResync Examples.ticking (snd (fst x)) in
  fst (fst x) = Ok tt
  /\ fst (fst y) = Ok tt
  /\ last_claim_read (snd x) = Some (Examples.claimed 7 4200)
  /\ last_claim_read (snd y) = Some (Examples.claimed 7 4200)
  /\ loop (snd (fst y)) <> loop (snd (fst x)).
Proof.
  repeat (split; [reflexivity|]). vm_compute. discriminate.
Qed.





(** C10 (amended).  For every pair of consecutive ticks that complete
    without error and each make an event query: every event query of
    the first tick starts at the cursor, and every event query of the
    second tick starts at the cursor the first tick left.  When the
    first tick does not run the autoresync (less than 48 hours have
    passed since the last resync at the one moment it reads the clock
    for the test), that cursor is the block at which the queries of the
    first tick end, so that the boundary block is the inclusive end of
    one range and the inclusive start of the next (both ranges being
    proper when the heights fit in 64 bits).  When the first tick runs
    the autoresync (48 hours or more have passed at that moment), the
    second range starts at the [ethereum_event_height] of the last claim
    the first tick read instead.  The second tick hands all the events
    of its scan to the submit step, which excludes by nonce alone: every
    scanned event whose nonce is greater than that of a last claim the
    tick read is accepted as a claim in the tick. *)
Theorem consecutive_ticks_share_boundary {sorter : SliceSorter}
    (o : PeggyOrchestrator) (w0 w1 w2 : World) (t1 t2 : trace) :
  tick o w0 = (Ok tt, w1, t1) ->
  tick o w1 = (Ok tt, w2, t2) ->
  forall s1 e1 s2 e2,
    In (s1, e1) (event_queries t1) ->
    In (s2, e2) (event_queries t2) ->
    s1 = lastCheckedEthHeight (loop w0)
    /\ s2 = lastCheckedEthHeight (loop w1)
    /\ (exists m,
          resync_check_moment o w0 = Some m
          /\ ((clock o m - lastResyncWithInjective (loop w0) < 48 * Hour
               /\ lastCheckedEthHeight (loop w1) = e1
               /\ s2 = e1
               /\ (U64.in_range s1 -> s1 + 4000 <= U64.max ->
                   s1 < e1 /\ e1 < e2))
              \/ (48 * Hour
                  <= clock o m - lastResyncWithInjective (loop w0)
                  /\ exists lastClaim,
                       last_claim_read t1 = Some (Answer lastClaim)
                       /\ s2 = EthereumEventHeight lastClaim)))
    /\ exists h wa ta events wb tb lastClaim,
         getLatestEthHeight o w1 = (Ok h, wa, ta)
         /\ getEthEvents o s2 e2 wa = (Ok events, wb, tb)
         /\ In (LastClaimRead (Answer lastClaim)) t2
         /\ forall event c,
              In event (events_of events) ->
              EthereumEventNonce lastClaim < nonce_of event ->
              claim_of event = Some c -> In c (accepted t2).
Proof.
  intros E1 E2 s1 e1 s2 e2 I1 I2.
  apply tick_ok_inv in E1
    as [(h & t3 & _ & _ & _ & Q)
       |(h & wa & ta & latest & events & wb & tb & w3 & tc & td
         & H1 & W1 & S1 & Sub1 & L3 & -> & A & R)].
  { now rewrite Q in I1. }
  pose proof (resync_check_moment_steps o _ _ _ _ _ _ _ _ _ _
                H1 W1 S1 Sub1) as M.
  apply A in I1 as [-> ->].
  apply tick_ok_inv in E2
    as [(h2 & t5 & _ & _ & _ & Q)
       |(h2 & wa2 & ta2 & latest2 & events2 & wb2 & tb2 & w4 & tc2 & td2
         & H2 & W2 & S2 & Sub2 & _ & -> & A2 & _)].
  { now rewrite Q in I2. }
  apply A2 in I2 as [-> ->].
  split; [reflexivity|]. split; [reflexivity|]. split.
  - exists (now w3). split; [exact M|].
    destruct R as [(Due & -> & _)|(Due & E)].
    + left. split; [exact Due|].
      cbn [loop store_lastCheckedEthHeight lastCheckedEthHeight] in *.
      split; [reflexivity|]. split; [reflexivity|].
      intros Rc Fit.
      apply getLatestEthHeight_in_range in H1, H2.
      apply (scan_window_end _ _ _ Rc H1) in W1 as [M1 Lt1]; [|lia].
      apply (scan_window_end _ _ _) in W2 as [M2 Lt2]; auto.
      * unfold U64.in_range in *. lia.
      * lia.
    + right. split; [exact Due|].
      apply autoResync_inv in E as [_ (lc & Rd & ->)].
      exists lc. split; [|reflexivity].
      now do 3 apply last_claim_read_app_r.
  - apply sendNewEventClaims_accepts in Sub2 as (lastClaim & I & Acc).
    exists h2, wa2, ta2, events2, wb2, tb2, lastClaim.
    repeat split; auto.
    + apply in_or_app; right. apply in_or_app; right.
      apply in_or_app; now left.
    + intros event c Ie G C. rewrite !accepted_app.
      apply in_or_app; right. apply in_or_app; right.
      apply in_or_app; left. now apply (Acc event).
Qed.

(** On a clock that advances by one second at every moment, with the
    head far above the cursor: the first tick scans the blocks 1000 to
    3000 and reads the clock for the test at the moment 13, the second
    scans from the block 3000. *)
Lemma consecutive_ticks_share_boundary_witness :
  let w0 := Examples.start 1000 in
  let x1 := @tick insertion_sorter MoreExamples.catching_up w0 in
  let x2 := @tick insertion_sorter MoreExamples.catching_up (snd (fst x1)) in
  In (1000, 3000) (event_queries (snd x1))
  /\ In (3000, 5000) (event_queries (snd x2))
  /\ lastCheckedEthHeight (loop (snd (fst x1))) = 3000.
Proof.
  assert (I1 : In (1000, 3000)
                 (event_queries
                    (snd (@tick insertion_sorter MoreExamples.catching_up
                            (Examples.start 1000)))))
    by (left; reflexivity).
  assert (I2 : In (3000, 5000)
                 (event_queries
                    (snd (@tick insertion_sorter MoreExamples.catching_up
                            (snd (fst (@tick insertion_sorter
                                         MoreExamples.catching_up
                                         (Examples.start 1000))))))))
    by (left; reflexivity).
  pose proof (@consecutive_ticks_share_boundary insertion_sorter
                MoreExamples.catching_up (Examples.start 1000) _ _ _ _
                eq_refl eq_refl _ _ _ _ I1 I2)
    as (_ & _ & (m & M & [(_ & C & _)|(Due & _)]) & _).
  - exact (conj I1 (conj I2 C)).
  - exfalso. vm_compute in M. injection M as <-.
    vm_compute in Due. exact (Due eq_refl).
Defined.

(** C10 (as stated) fails when the first tick runs the autoresync: with
    the cursor at 5000, the head at 5100, 49 hours since the last resync
    and the last claim observed at the height 4200, the first tick scans
    the blocks 5000 to 5088 and resynchronises, and the second tick
    scans from the block 4200, not from the block 5088. *)
Lemma consecutive_ticks_after_resync :
  let w0 := Examples.start 5000 in
  let x1 := @tick insertion_sorter Examples.rewind w0 in
  let x2 := @tick insertion_sorter Examples.rewind (snd (fst x1)) in
  fst (fst x1) = Ok tt
  /\ fst (fst x2) = Ok tt
  /\ In (5000, 5088) (event_queries (snd x1))
  /\ In (4200, 5088) (event_queries (snd x2))
  /\ 4200 <> 5088.
Proof.
  split; [reflexivity|]. split; [reflexivity|].
  split; [left; reflexivity|]. split; [left; reflexivity|]. lia.
Qed.

(* ================================================================== *)
(** * Further properties of the event set *)

Lemma filter_twice {A : Type} (p q : A -> bool) (l : list A) :
  filter p (filter q l) = filter (fun x => q x && p x) l.
Proof.
  induction l as [|a l IH]; simpl; [reflexivity|].
  destruct (q a); simpl; [|exact IH].
  destruct (p a); now rewrite IH.
Qed.

Lemma filter_loop_twice {A : Type} (nonce_of' : A -> Z) (n1 n2 : Z)
    (xs : list A) :
  filter_loop nonce_of' n2 (filter_loop nonce_of' n1 xs)
  = filter_loop nonce_of' (Z.max n1 n2) xs.
Proof.
  rewrite !filter_loop_filter, filter_twice.
  apply filter_ext. intros a.
  destruct (n1 <? nonce_of' a) eqn:E1, (n2 <? nonce_of' a) eqn:E2,
    (Z.max n1 n2 <? nonce_of' a) eqn:E3; try reflexivity;
    rewrite ?Z.ltb_lt, ?Z.ltb_ge in *; lia.
Qed.

(** X1.  Filtering twice is filtering once by the greater of the two
    nonces; so [Filter] is idempotent and two filters commute. *)
Theorem Filter_Filter (e : ethEvents) (n1 n2 : Z) :
  Filter (Filter e n1) n2 = Filter e (Z.max n1 n2)
  /\ Filter (Filter e n1) n1 = Filter e n1
  /\ Filter (Filter e n1) n2 = Filter (Filter e n2) n1.
Proof.
  assert (G : forall a b, Filter (Filter e a) b = Filter e (Z.max a b)).
  { intros a b. unfold Filter; simpl. now rewrite !filter_loop_twice. }
  split; [apply G|]. split.
  - now rewrite G, Z.max_id.
  - now rewrite !G, Z.max_comm.
Qed.

Lemma Num_Filter_le (e : ethEvents) (n : Z) : (Num (Filter e n) <= Num e)%nat.
Proof.
  rewrite <- !events_of_length, events_of_Filter. apply filter_length_le.
Qed.

(** X2.  [Filter] is monotone: for [n1 <= n2] every event that
    [Filter(n2)] keeps is kept by [Filter(n1)], and the counts decrease:
    [Filter(n2).Num() <= Filter(n1).Num() <= Num()]. *)
Theorem Filter_monotone (e : ethEvents) (n1 n2 : Z) :
  n1 <= n2 ->
  (forall event,
      In event (events_of (Filter e n2)) ->
      In event (events_of (Filter e n1)))
  /\ (Num (Filter e n2) <= Num (Filter e n1) <= Num e)%nat.
Proof.
  intros Le. split.
  - intros event. rewrite !events_of_Filter, !filter_In, !Z.ltb_lt.
    intros [I G]. split; [exact I | lia].
  - split; [|apply Num_Filter_le].
    replace (Filter e n2) with (Filter (Filter e n1) n2).
    + apply Num_Filter_le.
    + unfold Filter; simpl. rewrite !filter_loop_twice.
      now rewrite Z.max_r by exact Le.
Qed.

Lemma Filter_monotone_witness :
  (Num (Filter Examples.mixed 9) <= Num (Filter Examples.mixed 7)
   <= Num Examples.mixed)%nat.
Proof.
  exact (proj2 (Filter_monotone Examples.mixed 7 9 ltac:(lia))).
Defined.

Lemma nonce_of_in_range (event : any) : U64.in_range (nonce_of event).
Proof.
  destruct event; simpl; try apply of_bigInt_in_range.
  unfold U64.in_range. vm_compute. split; discriminate.
Qed.

(** X3.  The nonce of an event is compared as a [uint64], so no event
    passes a filter at the largest value of 64 bits: the result is
    empty. *)
Theorem Filter_at_largest_nonce (e : ethEvents) (n : Z) :
  U64.max <= n ->
  events_of (Filter e n) = [] /\ Num (Filter e n) = O.
Proof.
  intros Top.
  assert (E : events_of (Filter e n) = []).
  { rewrite events_of_Filter.
    induction (events_of e) as [|a l IH]; simpl; [reflexivity|].
    pose proof (nonce_of_in_range a) as [_ R].
    destruct (n <? nonce_of a) eqn:G; [apply Z.ltb_lt in G; lia | exact IH]. }
  split; [exact E|]. now rewrite <- events_of_length, E.
Qed.

Lemma Filter_at_largest_nonce_witness :
  events_of (Filter Examples.mixed U64.max) = []
  /\ Num (Filter Examples.mixed U64.max) = O.
Proof.
  exact (Filter_at_largest_nonce Examples.mixed U64.max (Z.le_refl _)).
Defined.

(** X4.  On every event set, with or without repeated nonces, [Sort]
    returns without panic a permutation of all the events, of length
    [Num()], in ascending order of nonce; on a set without events it
    returns the empty sequence. *)
Theorem Sort_ascending_permutation {sorter : SliceSorter} (e : ethEvents) :
  exists sorted,
    Sort e = Ok sorted
    /\ Permutation (events_of e) sorted
    /\ length sorted = Num e
    /\ StronglySorted (fun a b => nonce_of a <= nonce_of b) sorted
    /\ (Num e = O <-> sorted = []).
Proof.
  destruct (Sort_ok e) as (sorted & E & P & S).
  assert (L : length sorted = Num e).
  { rewrite <- (Permutation_length P). apply events_of_length. }
  exists sorted. repeat split; auto.
  - intros Z. apply length_zero_iff_nil. congruence.
  - intros ->. now rewrite <- L.
Qed.

(** X5.  With unique nonces the result of [Sort] depends on the events
    alone: neither on the order of the events inside the five sequences
    nor on the algorithm behind [sort.Slice]. *)
Theorem Sort_depends_on_events_alone (sorter1 sorter2 : SliceSorter)
    (e1 e2 : ethEvents) :
  unique_nonces e1 ->
  Permutation (events_of e1) (events_of e2) ->
  @Sort sorter1 e1 = @Sort sorter2 e2.
Proof.
  intros U P.
  assert (U2 : unique_nonces e2).
  { unfold unique_nonces in *. rewrite <- events_of_nonces in *.
    eapply Permutation_NoDup; [|exact U]. now apply Permutation_map. }
  destruct (@Sort_strict sorter1 e1 U) as (y1 & -> & P1 & S1).
  destruct (@Sort_strict sorter2 e2 U2) as (y2 & -> & P2 & S2).
  f_equal. apply (strictly_sorted_unique nonce_of); auto.
  now rewrite <- P1, P, P2.
Qed.

Lemma two_deposits_unique : unique_nonces MoreExamples.two_deposits.
Proof.
  unfold unique_nonces. vm_compute.
  repeat constructor; simpl; intuition discriminate.
Defined.

Lemma Sort_depends_on_events_alone_witness :
  @Sort insertion_sorter MoreExamples.two_deposits
  = @Sort insertion_sorter MoreExamples.two_deposits_swapped.
Proof.
  apply (Sort_depends_on_events_alone insertion_sorter insertion_sorter
           MoreExamples.two_deposits MoreExamples.two_deposits_swapped
           two_deposits_unique).
  apply perm_swap.
Defined.

(* ================================================================== *)
(** * Further properties of the loop *)

(** ** No step panics *)

Lemma calm_ret {A : Type} (a : A) : calm (ret a).
Proof. intros w. reflexivity. Qed.

Lemma calm_bind {A B : Type} (m : M A) (k : A -> M B) :
  calm m -> (forall a, calm (k a)) -> calm (bind m k).
Proof.
  intros Hm Hk w. unfold bind. specialize (Hm w).
  destruct (m w) as [[[a|err|msg] w1] t1]; simpl in *;
    [|reflexivity|discriminate].
  specialize (Hk a w1). now destruct (k a w1) as [[r2 w2] t2].
Qed.

Lemma calm_interact {A : Type} (ask : moment -> answer A) log :
  calm (interact ask log).
Proof. intros w. unfold interact; simpl. now destruct (ask (now w)). Qed.

Lemma calm_wrap_error {A : Type} (msg : string) (m : M A) :
  calm m -> calm (wrap_error msg m).
Proof.
  intros Hm w. unfold wrap_error. specialize (Hm w).
  now destruct (m w) as [[[a|err|p] w1] t1].
Qed.

Lemma calm_retry_from {A : Type} o budget (op : M A) :
  calm op -> calm (retry_from o budget op).
Proof.
  intros Hop. induction budget as [|budget IH]; intros w; simpl;
    specialize (Hop w); destruct (op w) as [[[a|err|p] w1] t1];
    simpl in *; try reflexivity; try discriminate.
  destruct (ctx_Err o (now w1)); [reflexivity|].
  specialize (IH (advance w1)).
  now destruct (retry_from o budget op (advance w1)) as [[r2 w2] t2].
Qed.

Lemma calm_retry_Do {A : Type} o (op : M A) :
  calm op -> calm (retry_Do o op).
Proof.
  intros Hop w. unfold retry_Do.
  destruct (ctx_Err o (now w)); [reflexivity|].
  destruct (maxAttempts o); [reflexivity|].
  now apply calm_retry_from.
Qed.

Section Calm.

Context {sorter : SliceSorter}.
Variable o : PeggyOrchestrator.

Lemma calm_getLatestEthHeight : calm (getLatestEthHeight o).
Proof.
  apply calm_retry_Do, calm_bind; [|intros; apply calm_ret].
  apply calm_wrap_error, calm_interact.
Qed.

Lemma calm_getEthEvents startBlock endBlock :
  calm (getEthEvents o startBlock endBlock).
Proof.
  apply calm_retry_Do. unfold scanEthEventsFn.
  repeat (apply calm_bind;
          [apply calm_wrap_error, calm_interact | intros ?]).
  apply calm_ret.
Qed.

Lemma calm_send_each (sortedEvents : list any) :
  Forall known_kind sortedEvents -> calm (send_each o sortedEvents).
Proof.
  induction 1 as [|event rest K F IH]; simpl; [apply calm_ret|].
  apply calm_bind.
  - intros w.
    destruct (sendEthEventClaim_known o event w K) as (c & a & _ & ->).
    now destruct a.
  - intros _. apply calm_bind; [intros w; reflexivity | intros _; exact IH].
Qed.

Lemma calm_sendEventsFn (events : ethEvents) : calm (sendEventsFn o events).
Proof.
  apply calm_bind; [apply calm_interact|]. intros lastClaim. cbv beta zeta.
  destruct (Num (Filter events _) =? 0)%nat; [apply calm_ret|].
  destruct (Sort_ok (Filter events (EthereumEventNonce lastClaim)))
    as (sorted & E & P & _).
  assert (K : Forall known_kind sorted).
  { apply Forall_forall. intros x Hx.
    apply (events_of_known (Filter events (EthereumEventNonce lastClaim))).
    apply (Permutation_in _ (Permutation_sym P)), Hx. }
  intros w. unfold bind, lift.
  destruct (Sort (Filter events (EthereumEventNonce lastClaim)));
    try discriminate.
  injection E as ->.
  pose proof (calm_send_each sorted K w) as C.
  now destruct (send_each o sorted w) as [[r2 w2] t2].
Qed.

Lemma calm_autoResync : calm (autoResync o).
Proof.
  apply calm_bind.
  - apply calm_retry_Do, calm_bind; [apply calm_interact|].
    intros; apply calm_ret.
  - intros h. apply calm_bind; [intros w; reflexivity|]. intros _.
    apply calm_bind; [intros w; reflexivity | intros a w; reflexivity].
Qed.

Lemma calm_tick : calm (tick o).
Proof.
  apply calm_bind; [apply calm_getLatestEthHeight|]. intros h.
  destruct (h <=? ethBlockConfirmationDelay); [apply calm_ret|].
  cbv zeta. apply calm_bind; [intros w; reflexivity|]. intros l.
  destruct (_ <=? lastCheckedEthHeight l); [apply calm_ret|].
  apply calm_bind; [apply calm_getEthEvents|]. intros events.
  apply calm_bind; [apply calm_retry_Do, calm_sendEventsFn|]. intros _.
  apply calm_bind; [intros w; reflexivity|]. intros _.
  apply calm_bind; [intros w; reflexivity|]. intros l'.
  apply calm_bind; [intros w; reflexivity|]. intros elapsed.
  destruct (elapsed >=? 48 * Hour); [apply calm_autoResync | apply calm_ret].
Qed.

End Calm.

(** X6.  No iteration of the loop panics, whatever the two chains
    answer: [Sort] hands only events of the five kinds to the dispatcher,
    so the panics of the two type switches are out of reach of [Run].
    (Event pointers are non-nil, as the contract bindings return them,
    and the calls to the two chains return.) *)
Theorem tick_never_panics {sorter : SliceSorter} (o : PeggyOrchestrator)
    (w : World) (events : ethEvents) :
  is_panic (fst (fst (tick o w))) = false
  /\ is_panic (fst (fst (sendNewEventClaims o events w))) = false.
Proof.
  split; [apply calm_tick|]. apply calm_retry_Do, calm_sendEventsFn.
Qed.

(** ** What a successful query returns *)

Lemma steady_retry_from_ok {A : Type} o budget (op : M A) w a w' t :
  steady op ->
  retry_from o budget op w = (Ok a, w', t) ->
  exists w0 t0 t1,
    op w0 = (Ok a, w', t1) /\ t = t0 ++ t1 /\ (now w <= now w0)%nat.
Proof.
  intros St. revert w t.
  induction budget as [|budget IH]; intros w t; simpl;
    destruct (op w) as [[[a1|err|p] w1] t1] eqn:E;
    try discriminate;
    try (intros [= <- <- <-]; exists w, [], t1; auto).
  destruct (ctx_Err o (now w1)); [discriminate|].
  destruct (retry_from o budget op (advance w1)) as [[r2 w2] t2] eqn:R.
  intros [= -> <- <-].
  apply IH in R as (w0 & t0 & t3 & E3 & -> & Le).
  apply St in E. simpl in Le.
  exists w0, (t1 ++ RetryDelay :: t0), t3.
  repeat split; [exact E3 | now rewrite <- app_assoc | lia].
Qed.

Lemma steady_retry_Do_ok {A : Type} o (op : M A) w a w' t :
  steady op ->
  retry_Do o op w = (Ok a, w', t) ->
  exists w0 t0 t1,
    op w0 = (Ok a, w', t1) /\ t = t0 ++ t1 /\ (now w <= now w0)%nat.
Proof.
  unfold retry_Do. intros St.
  destruct (ctx_Err o (now w)); [discriminate|].
  destruct (maxAttempts o); [discriminate|].
  now apply steady_retry_from_ok.
Qed.

Section Queries.

Variable o : PeggyOrchestrator.

Lemma scanEthEventsFn_inv startBlock endBlock w r w' t :
  scanEthEventsFn o startBlock endBlock w = (r, w', t) ->
  (now w <= now w')%nat
  /\ (length (event_queries t) <= 5)%nat
  /\ forall events,
       r = Ok events ->
       now w' = (now w + 5)%nat
       /\ t = [EventQuery QSendToCosmos startBlock endBlock;
               EventQuery QSendToInjective startBlock endBlock;
               EventQuery QTransactionBatchExecuted startBlock endBlock;
               EventQuery QPeggyERC20Deployed startBlock endBlock;
               EventQuery QValsetUpdated startBlock endBlock]
       /\ GetSendToCosmosEvents (eth o) (now w) startBlock endBlock
          = Answer (OldDeposits events)
       /\ GetSendToInjectiveEvents (eth o) (now w + 1)%nat startBlock endBlock
          = Answer (Deposits events)
       /\ GetTransactionBatchExecutedEvents (eth o) (now w + 2)%nat
            startBlock endBlock
          = Answer (Withdrawals events)
       /\ GetPeggyERC20DeployedEvents (eth o) (now w + 3)%nat
            startBlock endBlock
          = Answer (ERC20Deployments events)
       /\ GetValsetUpdatedEvents (eth o) (now w + 4)%nat startBlock endBlock
          = Answer (ValsetUpdates events).
Proof.
  unfold scanEthEventsFn, bind, wrap_error, interact, ret.
  cbn [now advance]. rewrite !Nat.add_succ_r, Nat.add_0_r.
  destruct (GetSendToCosmosEvents _ _ _ _) as [a1|e1] eqn:E1; simpl.
  2:{ intros [= <- <- <-]. simpl.
      split; [lia|]. split; [lia|]. discriminate. }
  destruct (GetSendToInjectiveEvents _ _ _ _) as [a2|e2] eqn:E2; simpl.
  2:{ intros [= <- <- <-]. simpl.
      split; [lia|]. split; [lia|]. discriminate. }
  destruct (GetTransactionBatchExecutedEvents _ _ _ _) as [a3|e3] eqn:E3;
    simpl.
  2:{ intros [= <- <- <-]. simpl.
      split; [lia|]. split; [lia|]. discriminate. }
  destruct (GetPeggyERC20DeployedEvents _ _ _ _) as [a4|e4] eqn:E4; simpl.
  2:{ intros [= <- <- <-]. simpl.
      split; [lia|]. split; [lia|]. discriminate. }
  destruct (GetValsetUpdatedEvents _ _ _ _) as [a5|e5] eqn:E5; simpl.
  2:{ intros [= <- <- <-]. simpl.
      split; [lia|]. split; [lia|]. discriminate. }
  intros [= <- <- <-]. simpl.
  split; [lia|]. split; [lia|].
  intros events [= <-]. simpl. split; [lia|]. auto 10.
Qed.

Lemma getLatestEthHeightFn_inv w r w' t :
  getLatestEthHeightFn o w = (r, w', t) ->
  now w' = S (now w)
  /\ t = [HeadQuery]
  /\ forall h,
       r = Ok h ->
       exists number,
         HeaderByNumber (eth o) (now w) = Answer number
         /\ h = U64.of_bigInt number.
Proof.
  unfold getLatestEthHeightFn, bind, wrap_error, interact, ret.
  destruct (HeaderByNumber (eth o) (now w)) as [number|err]; simpl;
    intros [= <- <- <-]; (split; [reflexivity|]); (split; [reflexivity|]).
  - intros h [= <-]. now exists number.
  - discriminate.
Qed.

End Queries.

(** X7.  A scan that succeeds returns the answers of one attempt: the
    five sequences of the result are what the five event queries
    answered at five consecutive moments, all over the range asked for,
    and these five queries end the trace.  No result mixes the answers of
    two attempts, and the loop state is untouched. *)
Theorem getEthEvents_returns_one_attempt (o : PeggyOrchestrator)
    (startBlock endBlock : Z) (w : World) (events : ethEvents)
    (w' : World) (t : trace) :
  getEthEvents o startBlock endBlock w = (Ok events, w', t) ->
  exists (m : moment) (t0 : trace),
    (now w <= m)%nat
    /\ now w' = (m + 5)%nat
    /\ loop w' = loop w
    /\ t = t0 ++ [EventQuery QSendToCosmos startBlock endBlock;
                  EventQuery QSendToInjective startBlock endBlock;
                  EventQuery QTransactionBatchExecuted startBlock endBlock;
                  EventQuery QPeggyERC20Deployed startBlock endBlock;
                  EventQuery QValsetUpdated startBlock endBlock]
    /\ GetSendToCosmosEvents (eth o) m startBlock endBlock
       = Answer (OldDeposits events)
    /\ GetSendToInjectiveEvents (eth o) (m + 1)%nat startBlock endBlock
       = Answer (Deposits events)
    /\ GetTransactionBatchExecutedEvents (eth o) (m + 2)%nat
         startBlock endBlock
       = Answer (Withdrawals events)
    /\ GetPeggyERC20DeployedEvents (eth o) (m + 3)%nat startBlock endBlock
       = Answer (ERC20Deployments events)
    /\ GetValsetUpdatedEvents (eth o) (m + 4)%nat startBlock endBlock
       = Answer (ValsetUpdates events).
Proof.
  intros E.
  pose proof (quiet_getEthEvents o _ _ _ _ _ _ E) as [L _].
  apply steady_retry_Do_ok in E as (w0 & t0 & t1 & E & -> & Le).
  2:{ intros u r u' tr E'. now apply scanEthEventsFn_inv in E'. }
  apply scanEthEventsFn_inv in E as (_ & _ & E).
  destruct (E events eq_refl) as (N & -> & A).
  exists (now w0), t0. auto.
Qed.

Lemma getEthEvents_returns_one_attempt_witness :
  exists (m : moment) (t0 : trace),
    (0 <= m)%nat
    /\ GetSendToCosmosEvents (eth Examples.mixed_ordering) m 1000 1188
       = Answer (OldDeposits Examples.mixed)
    /\ GetValsetUpdatedEvents (eth Examples.mixed_ordering) (m + 4)%nat
         1000 1188
       = Answer (ValsetUpdates Examples.mixed).
Proof.
  destruct (getEthEvents_returns_one_attempt Examples.mixed_ordering
              1000 1188 (Examples.start 1000) Examples.mixed _ _ eq_refl)
    as (m & t0 & Le & _ & _ & _ & A1 & _ & _ & _ & A5).
  exists m, t0. auto.
Defined.

(** X8.  A head query that succeeds returns a value of [uint64], which
    is the number of the header answered last when that number fits in
    64 bits; it leaves the loop state untouched and makes nothing but
    head queries. *)
Theorem getLatestEthHeight_returns_header_number (o : PeggyOrchestrator)
    (w : World) (h : Z) (w' : World) (t : trace) :
  getLatestEthHeight o w = (Ok h, w', t) ->
  exists (m : moment) (number : Z),
    (now w <= m)%nat
    /\ now w' = S m
    /\ HeaderByNumber (eth o) m = Answer number
    /\ (0 <= number < 2 ^ 64 -> h = number)
    /\ 0 <= h < 2 ^ 64
    /\ loop w' = loop w
    /\ event_queries t = []
    /\ submitted t = [].
Proof.
  intros E.
  pose proof (quiet_getLatestEthHeight o _ _ _ _ E) as [L F].
  apply head_action_trace in F as [Q S].
  pose proof (getLatestEthHeight_in_range o _ _ _ _ E) as R.
  apply steady_retry_Do_ok in E as (w0 & t0 & t1 & E & -> & Le).
  2:{ intros u r u' tr E'. apply getLatestEthHeightFn_inv in E' as [N _].
      lia. }
  apply getLatestEthHeightFn_inv in E as (N & _ & E).
  destruct (E h eq_refl) as (number & A & ->).
  exists (now w0), number.
  split; [exact Le|]. split; [exact N|]. split; [exact A|].
  split; [|split; [|auto]].
  - intros Fit. unfold U64.of_bigInt, U64.wrap, U64.modulus.
    rewrite Z.abs_eq by lia. apply Z.mod_small. exact Fit.
  - destruct R as [R0 R]. unfold U64.max, U64.modulus in R. lia.
Qed.

Lemma getLatestEthHeight_returns_header_number_witness :
  exists (m : moment) (number : Z),
    HeaderByNumber (eth Examples.mixed_ordering) m = Answer number
    /\ (0 <= number < 2 ^ 64 -> 1200 = number).
Proof.
  destruct (getLatestEthHeight_returns_header_number
              Examples.mixed_ordering (Examples.start 1000) 1200 _ _ eq_refl)
    as (m & number & _ & _ & A & H & _).
  exists m, number. auto.
Defined.

(** ** The parts of a tick *)

Section TickParts.

Context {sorter : SliceSorter}.
Variable o : PeggyOrchestrator.

(** The trace of a tick is the trace of the head query, followed, as
    far as the tick went, by those of the scan, of the submit step and
    of the resync. *)
Lemma tick_parts w r w' t :
  tick o w = (r, w', t) ->
  let c := lastCheckedEthHeight (loop w) in
  exists r1 w1 t1,
    getLatestEthHeight o w = (r1, w1, t1)
    /\ (t = t1
        \/ exists h latest r2 w2 t2,
             r1 = Ok h
             /\ scan_window c h = Some latest
             /\ getEthEvents o c latest w1 = (r2, w2, t2)
             /\ (t = t1 ++ t2
                 \/ exists events r3 w3 t3,
                      r2 = Ok events
                      /\ sendNewEventClaims o events w2 = (r3, w3, t3)
                      /\ (t = t1 ++ t2 ++ t3
                          \/ exists r4 w4 t4,
                               r3 = Ok tt
                               /\ autoResync o
                                    (store_lastCheckedEthHeight latest w3)
                                  = (r4, w4, t4)
                               /\ t = t1 ++ t2 ++ t3 ++ t4))).
Proof.
  intros E c.
  apply tick_inv in E as (r0 & w0 & t0 & E0 & E).
  rewrite scan_and_submit_eq in E0. fold c in E0.
  destruct (getLatestEthHeight o w) as [[[h|err|msg] w1] t1] eqn:E1.
  2,3: injection E0 as <- <- <-; destruct E as (_ & _ & ->);
       eexists _, _, _; split; [reflexivity | now left].
  exists (Ok h), w1, t1. split; [reflexivity|].
  destruct (scan_window c h) as [latest|] eqn:W.
  2:{ injection E0 as <- <- <-. destruct E as (_ & _ & ->). now left. }
  right.
  destruct (getEthEvents o c latest w1) as [[r2 w2] t2] eqn:E2.
  exists h, latest, r2, w2, t2.
  split; [reflexivity|]. split; [exact W|]. split; [exact E2|].
  destruct r2 as [events|err|msg].
  2,3: injection E0 as <- <- <-; destruct E as (_ & _ & ->); now left.
  right.
  destruct (sendNewEventClaims o events w2) as [[r3 w3] t3] eqn:E3.
  exists events, r3, w3, t3.
  split; [reflexivity|]. split; [exact E3|].
  destruct r3 as [[]|err|msg].
  2,3: injection E0 as <- <- <-; destruct E as (_ & _ & ->); now left.
  injection E0 as <- <- <-. destruct E as (t4 & E & ->).
  apply advance_and_resync_inv in E as [(_ & _ & _ & ->)|(_ & E)].
  - left. now rewrite app_nil_r.
  - right. exists r, w', t4. repeat split; auto.
    now rewrite <- !app_assoc.
Qed.

End TickParts.

(** ** Calls per tick *)

Section Counting.

Variable cnt : trace -> nat.
Hypothesis cnt_app :
  forall t1 t2, cnt (t1 ++ t2) = (cnt t1 + cnt t2)%nat.
Hypothesis cnt_delay : cnt [RetryDelay] = O.

Lemma cnt_nil : cnt [] = O.
Proof. pose proof (cnt_app [] []) as E. simpl in E. lia. Qed.

(** A retried operation that counts at most [k] per run counts at most
    [k] times the number of attempts. *)
Lemma cnt_retry_from {A : Type} o budget (op : M A) (k : nat) :
  (forall w r w' t, op w = (r, w', t) -> (cnt t <= k)%nat) ->
  forall w r w' t,
    retry_from o budget op w = (r, w', t) -> (cnt t <= k * S budget)%nat.
Proof.
  intros B. induction budget as [|budget IH]; intros w r w' t; simpl;
    destruct (op w) as [[[a|err|msg] w1] t1] eqn:E;
    apply B in E;
    try (intros [= <- <- <-]; nia).
  destruct (ctx_Err o (now w1)); [intros [= <- <- <-]; nia|].
  destruct (retry_from o budget op (advance w1)) as [[r2 w2] t2] eqn:R.
  intros [= <- <- <-]. apply IH in R.
  change (t1 ++ RetryDelay :: t2) with (t1 ++ [RetryDelay] ++ t2).
  rewrite !cnt_app, cnt_delay. nia.
Qed.

Lemma cnt_retry_Do {A : Type} o (op : M A) (k : nat) :
  (forall w r w' t, op w = (r, w', t) -> (cnt t <= k)%nat) ->
  forall w r w' t,
    retry_Do o op w = (r, w', t) -> (cnt t <= k * maxAttempts o)%nat.
Proof.
  intros B w r w' t. unfold retry_Do.
  destruct (ctx_Err o (now w));
    [intros [= <- <- <-]; rewrite cnt_nil; lia|].
  destruct (maxAttempts o) as [|budget];
    [intros [= <- <- <-]; rewrite cnt_nil; lia|].
  now apply cnt_retry_from.
Qed.

End Counting.

Lemma head_queries_app (t1 t2 : trace) :
  head_queries (t1 ++ t2) = (head_queries t1 + head_queries t2)%nat.
Proof.
  induction t1 as [|[] t1 IH]; simpl; try exact IH; [reflexivity|].
  now rewrite IH.
Qed.

Lemma last_claim_reads_app (t1 t2 : trace) :
  last_claim_reads (t1 ++ t2)
  = (last_claim_reads t1 + last_claim_reads t2)%nat.
Proof.
  induction t1 as [|[] t1 IH]; simpl; try exact IH; [reflexivity|].
  now rewrite IH.
Qed.

Lemma event_queries_length_app (t1 t2 : trace) :
  length (event_queries (t1 ++ t2))
  = (length (event_queries t1) + length (event_queries t2))%nat.
Proof. now rewrite event_queries_app, length_app. Qed.

(** What the actions of each step count for. *)

Lemma head_action_counts (t : trace) :
  Forall head_action t ->
  event_queries t = [] /\ submitted t = [] /\ last_claim_reads t = O.
Proof.
  induction 1 as [|[] t Q F IH]; simpl; auto; contradiction.
Qed.

Lemma scan_action_counts (startBlock endBlock : Z) (t : trace) :
  Forall (scan_action startBlock endBlock) t ->
  head_queries t = O /\ submitted t = [] /\ last_claim_reads t = O.
Proof.
  induction 1 as [|[] t Q F IH]; simpl; auto; contradiction.
Qed.

Lemma submit_action_counts (t : trace) :
  Forall submit_action t -> head_queries t = O /\ event_queries t = [].
Proof.
  induction 1 as [|[] t Q F IH]; simpl; auto; contradiction.
Qed.

Lemma resync_action_counts (t : trace) :
  Forall resync_action t ->
  head_queries t = O /\ event_queries t = [] /\ submitted t = [].
Proof.
  induction 1 as [|[] t Q F IH]; simpl; auto; contradiction.
Qed.

Lemma send_action_counts (t : trace) :
  Forall send_action t -> last_claim_reads t = O.
Proof.
  induction 1 as [|[] t Q F IH]; simpl; auto; contradiction.
Qed.

Section Calls.

Context {sorter : SliceSorter}.
Variable o : PeggyOrchestrator.

Lemma quiet_send_each_send_action (sortedEvents : list any) :
  quiet send_action (send_each o sortedEvents).
Proof.
  induction sortedEvents as [|event rest IH]; simpl.
  - apply quiet_ret.
  - apply quiet_bind; [|intros _].
    + destruct event; simpl;
        try (apply quiet_interact; intros; exact I).
      apply quiet_panic.
    + apply quiet_bind; [now apply quiet_Sleep|intros _; exact IH].
Qed.

(** One attempt of the submit step reads the last claim once, before
    anything else. *)
Lemma sendEventsFn_reads (events : ethEvents) w r w' t :
  sendEventsFn o events w = (r, w', t) ->
  exists a t',
    LastClaimEventByAddr (inj o) (now w) = a
    /\ t = LastClaimRead a :: t' /\ Forall send_action t'.
Proof.
  unfold sendEventsFn, bind at 1, interact.
  destruct (LastClaimEventByAddr (inj o) (now w)) as [lastClaim|err];
    simpl of_answer; cbv iota beta.
  2:{ intros [= <- <- <-]. now eexists _, []. }
  destruct (_ =? _)%nat.
  - unfold ret. intros [= <- <- <-]. now eexists _, [].
  - destruct (bind _ _ _) as [[r2 w2] t2] eqn:E. intros [= <- <- <-].
    eexists _, t2. repeat split.
    revert E. apply quiet_bind;
      [apply quiet_lift | intros; apply quiet_send_each_send_action].
Qed.

Lemma calls_getLatestEthHeight w r w' t :
  getLatestEthHeight o w = (r, w', t) ->
  (head_queries t <= maxAttempts o)%nat
  /\ event_queries t = [] /\ last_claim_reads t = O.
Proof.
  intros E. split.
  - replace (maxAttempts o) with (1 * maxAttempts o)%nat by lia.
    revert E. apply cnt_retry_Do;
      [apply head_queries_app | reflexivity|].
    intros u r1 u' t1 E.
    now apply getLatestEthHeightFn_inv in E as (_ & -> & _).
  - apply quiet_getLatestEthHeight in E as [_ F].
    now apply head_action_counts in F.
Qed.

Lemma calls_getEthEvents startBlock endBlock w r w' t :
  getEthEvents o startBlock endBlock w = (r, w', t) ->
  head_queries t = O
  /\ (length (event_queries t) <= 5 * maxAttempts o)%nat
  /\ last_claim_reads t = O.
Proof.
  intros E.
  pose proof (quiet_getEthEvents _ _ _ _ _ _ _ E) as [_ F].
  apply scan_action_counts in F as (H & _ & L).
  split; [exact H|]. split; [|exact L].
  revert E.
  apply (cnt_retry_Do (fun t => length (event_queries t)));
    [apply event_queries_length_app | reflexivity|].
  intros u r1 u' t1 E. now apply scanEthEventsFn_inv in E.
Qed.

Lemma calls_sendNewEventClaims events w r w' t :
  sendNewEventClaims o events w = (r, w', t) ->
  head_queries t = O /\ event_queries t = []
  /\ (last_claim_reads t <= maxAttempts o)%nat.
Proof.
  intros E.
  pose proof (quiet_sendNewEventClaims _ _ _ _ _ _ E) as [_ F].
  apply submit_action_counts in F as (H & Q).
  split; [exact H|]. split; [exact Q|].
  replace (maxAttempts o) with (1 * maxAttempts o)%nat by lia.
  revert E. apply cnt_retry_Do;
    [apply last_claim_reads_app | reflexivity|].
  intros u r1 u' t1 E.
  apply sendEventsFn_reads in E as (a & t' & _ & -> & F).
  simpl. now rewrite (send_action_counts _ F).
Qed.

Lemma calls_autoResync w r w' t :
  autoResync o w = (r, w', t) ->
  head_queries t = O /\ event_queries t = []
  /\ (last_claim_reads t <= maxAttempts o)%nat.
Proof.
  intros E.
  pose proof (autoResync_inv _ _ _ _ _ E) as [F _].
  apply resync_action_counts in F as (H & Q & _).
  split; [exact H|]. split; [exact Q|].
  unfold autoResync in E.
  assert (B : forall u r1 u' t1,
             retry_Do o (getLastClaimBlockHeight o) u = (r1, u', t1) ->
             (last_claim_reads t1 <= maxAttempts o)%nat).
  { intros u r1 u' t1.
    replace (maxAttempts o) with (1 * maxAttempts o)%nat by lia.
    apply cnt_retry_Do; [apply last_claim_reads_app | reflexivity|].
    clear. intros u r1 u' t1.
    unfold getLastClaimBlockHeight, bind, interact, ret.
    destruct (LastClaimEventByAddr (inj o) (now u)); simpl;
      intros [= <- <- <-]; simpl; lia. }
  apply bind_inv in E
    as [(height & w1 & t1 & t2 & E1 & E & ->)|(r1 & E1 & _)].
  - unfold bind, set_lastCheckedEthHeight, time_Now,
      set_lastResyncWithInjective in E.
    injection E as <- <- <-. rewrite !app_nil_r. now apply B in E1.
  - now apply B in E1.
Qed.

End Calls.

(** X9.  The calls of one tick are bounded by the number of attempts of
    the retried steps: at most [maxAttempts] queries of the head, at
    most five event queries per attempt of the scan, and at most
    [maxAttempts] reads of the last claim in the submit step and as many
    in the resync. *)
Theorem tick_calls_bounded {sorter : SliceSorter}
    (o : PeggyOrchestrator) (w : World) :
  let t := snd (tick o w) in
  (head_queries t <= maxAttempts o)%nat
  /\ (length (event_queries t) <= 5 * maxAttempts o)%nat
  /\ (last_claim_reads t <= 2 * maxAttempts o)%nat.
Proof.
  destruct (tick o w) as [[r w'] t] eqn:E. simpl.
  apply tick_parts in E as (r1 & w1 & t1 & E1 & H).
  apply calls_getLatestEthHeight in E1 as (H1 & Q1 & L1).
  destruct H as [->|(h & latest & r2 & w2 & t2 & _ & _ & E2 & H)].
  { rewrite Q1, L1. simpl. lia. }
  apply calls_getEthEvents in E2 as (H2 & Q2 & L2).
  destruct H as [->|(events & r3 & w3 & t3 & _ & E3 & H)].
  { rewrite head_queries_app, event_queries_length_app,
      last_claim_reads_app, Q1, L1, H2, L2.
    simpl. lia. }
  apply calls_sendNewEventClaims in E3 as (H3 & Q3 & L3).
  destruct H as [->|(r4 & w4 & t4 & _ & E4 & ->)].
  { rewrite !head_queries_app, !event_queries_length_app,
      !last_claim_reads_app, Q1, L1, H2, L2, H3, Q3.
    simpl. lia. }
  apply calls_autoResync in E4 as (H4 & Q4 & L4).
  rewrite !head_queries_app, !event_queries_length_app,
    !last_claim_reads_app, Q1, L1, H2, L2, H3, Q3, H4, Q4.
  simpl. lia.
Qed.

(** ** The submit step *)

Lemma filter_none {A : Type} (p : A -> bool) (l : list A) :
  (forall x, In x l -> p x = false) -> filter p l = [].
Proof.
  induction l as [|a l IH]; simpl; intros H; [reflexivity|].
  rewrite (H a) by now left. apply IH. intros x I. apply H. now right.
Qed.

(** What holds of every run of the operation, of the empty trace and of
    a back-off, and is kept by concatenation, holds of the retried
    call. *)
Lemma retry_Do_closed {A : Type} (P : trace -> Prop) o (op : M A) :
  P [] -> P [RetryDelay] ->
  (forall t1 t2, P t1 -> P t2 -> P (t1 ++ t2)) ->
  (forall w r w' t, op w = (r, w', t) -> P t) ->
  forall w r w' t, retry_Do o op w = (r, w', t) -> P t.
Proof.
  intros N D C Hop w r w' t. unfold retry_Do.
  destruct (ctx_Err o (now w)); [now intros [= <- <- <-]|].
  destruct (maxAttempts o) as [|budget]; [now intros [= <- <- <-]|].
  revert w t.
  induction budget as [|budget IH]; intros w t; simpl;
    destruct (op w) as [[[a|err|msg] w1] t1] eqn:E;
    apply Hop in E;
    try (now intros [= <- <- <-]).
  destruct (ctx_Err o (now w1)); [now intros [= <- <- <-]|].
  destruct (retry_from o budget op (advance w1)) as [[r2 w2] t2] eqn:R.
  intros [= <- <- <-]. apply IH in R.
  apply C; [exact E|]. now apply (C [RetryDelay]).
Qed.

(** The runs of a retried call: the last one gives the result (or an
    error, when the context is cancelled during the back-off that
    follows it); the runs before it returned an error. *)
Lemma retry_from_runs {A : Type} (P : trace -> Prop) o budget (op : M A) :
  P [] -> P [RetryDelay] ->
  (forall t1 t2, P t1 -> P t2 -> P (t1 ++ t2)) ->
  (forall w err w' t, op w = (Error err, w', t) -> P t) ->
  forall w r w' t,
    retry_from o budget op w = (r, w', t) ->
    exists w0 r0 t0 t1,
      op w0 = (r0, w', t1) /\ t = t0 ++ t1 /\ P t0
      /\ (r0 = r \/ exists err0 err, r0 = Error err0 /\ r = Error err).
Proof.
  intros N D C Hop.
  induction budget as [|budget IH]; intros w r w' t; simpl;
    destruct (op w) as [[[a|err|msg] w1] t1] eqn:E;
    try (intros [= <- <- <-]; exists w; eexists; exists [], t1;
         split; [exact E|]; split; [reflexivity|]; split; [exact N|];
         now left).
  destruct (ctx_Err o (now w1)) as [cancelled|].
  { intros [= <- <- <-]. exists w; eexists; exists [], t1.
    split; [exact E|]. split; [reflexivity|]. split; [exact N|].
    right. now exists err, cancelled. }
  destruct (retry_from o budget op (advance w1)) as [[r2 w2] t2] eqn:R.
  intros [= <- <- <-].
  apply IH in R as (w0 & r0 & t0 & t3 & E3 & -> & P0 & R).
  exists w0, r0, (t1 ++ RetryDelay :: t0), t3.
  split; [exact E3|]. split; [now rewrite <- app_assoc|].
  split; [|exact R].
  apply C; [now apply Hop in E|]. now apply (C [RetryDelay]).
Qed.

Section SubmitStep.

Context {sorter : SliceSorter}.
Variable o : PeggyOrchestrator.

(** The loop over the sorted events submits them in order and returns
    at the first claim that is refused. *)
Lemma send_each_stops (sortedEvents : list any) w r w' t :
  Forall known_kind sortedEvents ->
  send_each o sortedEvents w = (r, w', t) ->
  nothing_after_refusal t = true
  /\ (exists k, submitted t = claims_of (firstn k sortedEvents))
  /\ match r with
     | Ok _ =>
         submitted t = claims_of sortedEvents /\ accepted t = submitted t
     | Error _ => exists c, submitted t = accepted t ++ [c]
     | Panic _ => False
     end.
Proof.
  intros K. revert w t.
  induction K as [|event rest Kev K IH]; intros w t; simpl.
  - intros [= <- <- <-]. simpl. repeat split; auto. now exists O.
  - destruct (sendEthEventClaim_known o event w Kev) as (c & a & C & Sd).
    unfold bind at 1. rewrite Sd, C.
    destruct a as [[]|err]; simpl.
    + unfold bind at 1. unfold time_Sleep at 1.
      destruct (send_each o rest (advance (advance w)))
        as [[r2 w2] t2] eqn:E.
      intros [= <- <- <-].
      apply IH in E as (N & (k & Sub) & R).
      cbn [app nothing_after_refusal submitted accepted].
      split; [exact N|]. split.
      * exists (S k). simpl. now rewrite C, Sub.
      * destruct r2 as [[]|err|msg]; [| |exact R].
        -- destruct R as [R1 R2]. split; congruence.
        -- destruct R as (c' & R). exists c'. simpl. now rewrite R.
    + intros [= <- <- <-]. simpl. split; [reflexivity|]. split.
      * exists 1%nat. simpl. now rewrite C.
      * now exists c.
Qed.

Lemma sendEventsFn_stops (events : ethEvents) w r w' t lastClaim :
  LastClaimEventByAddr (inj o) (now w) = Answer lastClaim ->
  sendEventsFn o events w = (r, w', t) ->
  exists sorted t',
    Sort (Filter events (EthereumEventNonce lastClaim)) = Ok sorted
    /\ Permutation
         (events_of (Filter events (EthereumEventNonce lastClaim))) sorted
    /\ t = LastClaimRead (Answer lastClaim) :: t'
    /\ nothing_after_refusal t' = true
    /\ (exists k, submitted t' = claims_of (firstn k sorted))
    /\ match r with
       | Ok _ =>
           submitted t' = claims_of sorted /\ accepted t' = submitted t'
       | Error _ => exists c, submitted t' = accepted t' ++ [c]
       | Panic _ => False
       end.
Proof.
  intros L. unfold sendEventsFn, bind at 1, interact. rewrite L.
  simpl of_answer; cbv iota beta.
  set (n := EthereumEventNonce lastClaim).
  destruct (Sort_ok (Filter events n)) as (sorted & So & P & _).
  destruct (Num (Filter events n) =? 0)%nat eqn:Z.
  - unfold ret. intros [= <- <- <-]. exists sorted, [].
    apply Nat.eqb_eq in Z. rewrite <- events_of_length in Z.
    apply length_zero_iff_nil in Z.
    assert (sorted = []) as ->.
    { rewrite Z in P. now apply Permutation_nil in P. }
    split; [exact So|]. split; [now rewrite Z|].
    split; [reflexivity|]. split; [reflexivity|].
    split; [now exists O|]. now split.
  - unfold bind at 1, lift. rewrite So.
    destruct (send_each o sorted (advance w)) as [[r2 w2] t2] eqn:E.
    intros [= <- <- <-]. exists sorted, t2.
    apply send_each_stops in E as (N & Sub & R).
    2:{ apply Forall_forall. intros x Hx.
        apply (events_of_known (Filter events n)).
        apply (Permutation_in _ (Permutation_sym P)), Hx. }
    split; [reflexivity|]. split; [exact P|]. split; [reflexivity|].
    split; [exact N|]. split; [exact Sub | exact R].
Qed.

(** Every claim that the submit step hands over is the claim of a
    scanned event whose nonce is above a last claim read in the step. *)
Lemma sendNewEventClaims_sources (events : ethEvents) w r w' t c :
  sendNewEventClaims o events w = (r, w', t) ->
  In c (submitted t) ->
  exists event lastClaim,
    In event (events_of events)
    /\ claim_of event = Some c
    /\ EthereumEventNonce lastClaim < nonce_of event
    /\ In (LastClaimRead (Answer lastClaim)) t.
Proof.
  intros E. revert c. revert E.
  apply (retry_Do_closed
           (fun t =>
              forall c, In c (submitted t) ->
              exists event lastClaim,
                In event (events_of events)
                /\ claim_of event = Some c
                /\ EthereumEventNonce lastClaim < nonce_of event
                /\ In (LastClaimRead (Answer lastClaim)) t)).
  - intros c [].
  - intros c [].
  - intros t1 t2 P1 P2 c. rewrite submitted_app.
    intros I. apply in_app_or in I as [I|I];
      [apply P1 in I|apply P2 in I];
      destruct I as (event & lc & I1 & I2 & I3 & I4);
      exists event, lc; repeat split; auto;
      apply in_or_app; auto.
  - clear. intros w r w' t E c I.
    destruct (LastClaimEventByAddr (inj o) (now w)) as [lc|err] eqn:L.
    2:{ revert E I. unfold sendEventsFn, bind at 1, interact.
        rewrite L. simpl. intros [= <- <- <-]. intros []. }
    apply (sendEventsFn_stops _ _ _ _ _ _ L) in E
      as (sorted & t' & _ & P & -> & _ & (k & Sub) & _).
    simpl in I. rewrite Sub in I.
    apply claims_of_from in I as (event & I & C).
    assert (I' : In event (events_of (Filter events (EthereumEventNonce lc)))).
    { apply (Permutation_in _ (Permutation_sym P)).
      rewrite <- (firstn_skipn k sorted). apply in_or_app. now left. }
    rewrite events_of_Filter in I'. apply filter_In in I' as [I0 G].
    apply Z.ltb_lt in G.
    exists event, lc. repeat split; auto. now left.
Qed.

End SubmitStep.

(** X10.  One attempt of the submit step hands over the new events in
    the order of the sort and returns at the first claim that is
    refused: the claims submitted are those of the first events in
    sorted order of the events above the last claim; nothing follows a
    refused claim; when the attempt succeeds all of them were submitted
    and accepted; when it fails after the read, the claims accepted are
    the claims submitted but the last. *)
Theorem attempt_stops_at_first_refusal {sorter : SliceSorter}
    (o : PeggyOrchestrator) (events : ethEvents) (w : World)
    (r : result unit) (w' : World) (t : trace)
    (lastClaim : LastClaimEvent) :
  LastClaimEventByAddr (inj o) (now w) = Answer lastClaim ->
  sendEventsFn o events w = (r, w', t) ->
  exists sorted k,
    Sort (Filter events (EthereumEventNonce lastClaim)) = Ok sorted
    /\ submitted t = claims_of (firstn k sorted)
    /\ nothing_after_refusal t = true
    /\ (r = Ok tt ->
        submitted t = claims_of sorted /\ accepted t = submitted t)
    /\ (forall err, r = Error err ->
        exists c, submitted t = accepted t ++ [c])
    /\ is_panic r = false.
Proof.
  intros L E.
  apply (sendEventsFn_stops _ _ _ _ _ _ _ L) in E
    as (sorted & t' & So & _ & -> & N & (k & Sub) & R).
  exists sorted, k. cbn [submitted accepted nothing_after_refusal].
  split; [exact So|]. split; [exact Sub|]. split; [exact N|].
  split; [|split].
  - intros ->. exact R.
  - intros err ->. exact R.
  - destruct r; [reflexivity | reflexivity | contradiction].
Qed.

Lemma attempt_stops_at_first_refusal_witness :
  let t := snd (@sendEventsFn insertion_sorter MoreExamples.refusing
                  Examples.mixed (Examples.start 1000)) in
  exists c, submitted t = accepted t ++ [c].
Proof.
  destruct (@attempt_stops_at_first_refusal insertion_sorter
              MoreExamples.refusing Examples.mixed (Examples.start 1000)
              _ _ _ _ eq_refl eq_refl)
    as (sorted & k & _ & _ & _ & _ & E & _).
  exact (E _ eq_refl).
Defined.

(** X11.  When no scanned event has a nonce above the last claim, the
    submit step reads the last claim once, submits nothing, does not
    sleep and succeeds at the first attempt. *)
Theorem sendNewEventClaims_no_new_events {sorter : SliceSorter}
    (o : PeggyOrchestrator) (events : ethEvents) (w : World)
    (lastClaim : LastClaimEvent) :
  ctx_Err o (now w) = None ->
  maxAttempts o <> O ->
  LastClaimEventByAddr (inj o) (now w) = Answer lastClaim ->
  (forall event,
     In event (events_of events) ->
     nonce_of event <= EthereumEventNonce lastClaim) ->
  sendNewEventClaims o events w
  = (Ok tt, advance w, [LastClaimRead (Answer lastClaim)]).
Proof.
  intros Ctx Att L Old.
  assert (E : sendEventsFn o events w
              = (Ok tt, advance w, [LastClaimRead (Answer lastClaim)])).
  { unfold sendEventsFn, bind at 1, interact. rewrite L.
    simpl of_answer; cbv iota beta.
    rewrite <- events_of_length, events_of_Filter, filter_none.
    - reflexivity.
    - intros event I. apply Z.ltb_ge. now apply Old. }
  unfold sendNewEventClaims, retry_Do. rewrite Ctx.
  destruct (maxAttempts o) as [|budget]; [contradiction|].
  destruct budget; simpl; now rewrite E.
Qed.

Lemma sendNewEventClaims_no_new_events_witness :
  @sendNewEventClaims insertion_sorter MoreExamples.caught_up
    Examples.mixed (Examples.start 1000)
  = (Ok tt, advance (Examples.start 1000),
     [LastClaimRead (Examples.claimed 10 1020)]).
Proof.
  apply (@sendNewEventClaims_no_new_events insertion_sorter
           MoreExamples.caught_up Examples.mixed (Examples.start 1000)
           {| EthereumEventNonce := 10; EthereumEventHeight := 1020 |});
    [reflexivity | discriminate | reflexivity |].
  intros event I. simpl in I.
  destruct I as [<-|[<-|[<-|[]]]]; simpl; vm_compute; discriminate.
Defined.

(** X12.  A tick submits only claims of events that its own scan
    returned, for the range from the cursor to the end of the window,
    and only of events whose nonce is above a last claim that the tick
    read. *)
Theorem tick_submits_scanned_events {sorter : SliceSorter}
    (o : PeggyOrchestrator) (w : World) (r : result unit) (w' : World)
    (t : trace) (c : claim) :
  tick o w = (r, w', t) ->
  In c (submitted t) ->
  exists h w1 t1 latest events w2 t2 event lastClaim,
    getLatestEthHeight o w = (Ok h, w1, t1)
    /\ scan_window (lastCheckedEthHeight (loop w)) h = Some latest
    /\ getEthEvents o (lastCheckedEthHeight (loop w)) latest w1
       = (Ok events, w2, t2)
    /\ In event (events_of events)
    /\ claim_of event = Some c
    /\ EthereumEventNonce lastClaim < nonce_of event
    /\ In (LastClaimRead (Answer lastClaim)) t.
Proof.
  intros E I.
  apply tick_parts in E as (r1 & w1 & t1 & E1 & H).
  pose proof (quiet_getLatestEthHeight _ _ _ _ _ E1) as [_ F1].
  apply head_action_counts in F1 as (_ & S1 & _).
  destruct H as [->|(h & latest & r2 & w2 & t2 & -> & W & E2 & H)].
  { rewrite S1 in I. destruct I. }
  pose proof (quiet_getEthEvents _ _ _ _ _ _ _ E2) as [_ F2].
  apply scan_action_counts in F2 as (_ & S2 & _).
  destruct H as [->|(events & r3 & w3 & t3 & -> & E3 & H)].
  { rewrite submitted_app, S1, S2 in I. destruct I. }
  assert (I3 : In c (submitted t3)).
  { destruct H as [->|(r4 & w4 & t4 & _ & E4 & ->)].
    - now rewrite !submitted_app, S1, S2 in I.
    - apply autoResync_inv in E4 as [F4 _].
      apply resync_action_counts in F4 as (_ & _ & S4).
      now rewrite !submitted_app, S1, S2, S4, app_nil_r in I. }
  destruct (sendNewEventClaims_sources _ _ _ _ _ _ _ E3 I3)
    as (event & lc & Ie & C & G & R).
  exists h, w1, t1, latest, events, w2, t2, event, lc.
  repeat split; auto.
  destruct H as [->|(r4 & w4 & t4 & _ & _ & ->)];
    apply in_or_app; right; apply in_or_app; right; auto.
  apply in_or_app; auto.
Qed.

Lemma tick_submits_scanned_events_witness :
  exists event lastClaim,
    In event (events_of Examples.mixed)
    /\ claim_of event = Some (WithdrawalClaim Examples.withdrawal_8)
    /\ EthereumEventNonce lastClaim < nonce_of event.
Proof.
  destruct (@tick_submits_scanned_events insertion_sorter
              Examples.mixed_ordering (Examples.start 1000) _ _ _
              (WithdrawalClaim Examples.withdrawal_8) eq_refl
              ltac:(simpl; auto))
    as (h & w1 & t1 & latest & events & w2 & t2 & event & lc
        & E1 & W & E2 & I & C & G & _).
  exists event, lc. split; [|split; [exact C | exact G]].
  assert (Ev : events = Examples.mixed).
  { vm_compute in E1. injection E1 as <- <- <-.
    vm_compute in W. injection W as <-.
    vm_compute in E2. now injection E2 as <- _ _. }
  now rewrite <- Ev.
Defined.

(** ** The resync *)

Lemma reads_failed_app (t1 t2 : trace) :
  reads_failed t1 -> reads_failed t2 -> reads_failed (t1 ++ t2).
Proof.
  intros F1 F2 a I. apply in_app_or in I as [I|I]; auto.
Qed.

Lemma reads_failed_nil : reads_failed [].
Proof. intros a []. Qed.

Lemma reads_failed_delay : reads_failed [RetryDelay].
Proof. intros a [I|[]]. discriminate. Qed.

Section Resync.

Variable o : PeggyOrchestrator.

Lemma getLastClaimBlockHeight_inv w r w' t :
  getLastClaimBlockHeight o w = (r, w', t) ->
  match r with
  | Ok height =>
      exists lastClaim,
        t = [LastClaimRead (Answer lastClaim)]
        /\ height = EthereumEventHeight lastClaim
  | Error _ => reads_failed t
  | Panic _ => False
  end.
Proof.
  unfold getLastClaimBlockHeight, bind, interact, ret.
  destruct (LastClaimEventByAddr (inj o) (now w)) as [lc|err]; simpl;
    intros [= <- <- <-].
  - now exists lc.
  - intros a [[= <-]|[]]. now exists err.
Qed.

(** The retried read of the last claim: the reads before the one that
    answers all failed. *)
Lemma retried_read_inv w r w' t :
  retry_Do o (getLastClaimBlockHeight o) w = (r, w', t) ->
  match r with
  | Ok height =>
      exists t0 lastClaim,
        t = t0 ++ [LastClaimRead (Answer lastClaim)]
        /\ reads_failed t0
        /\ height = EthereumEventHeight lastClaim
  | Error _ => reads_failed t
  | Panic _ => False
  end.
Proof.
  unfold retry_Do.
  destruct (ctx_Err o (now w));
    [intros [= <- <- <-]; apply reads_failed_nil|].
  destruct (maxAttempts o) as [|budget];
    [intros [= <- <- <-]; apply reads_failed_nil|].
  intros E.
  apply (retry_from_runs reads_failed) in E
    as (w0 & r0 & t0 & t1 & E & -> & F0 & R).
  - apply getLastClaimBlockHeight_inv in E.
    destruct R as [<-|(err0 & err & -> & ->)].
    + destruct r0 as [height|err|msg]; [| |exact E].
      * destruct E as (lc & -> & ->). now exists t0, lc.
      * now apply reads_failed_app.
    + now apply reads_failed_app.
  - apply reads_failed_nil.
  - apply reads_failed_delay.
  - apply reads_failed_app.
  - intros u err u' tr E'.
    now apply getLastClaimBlockHeight_inv in E'.
Qed.

End Resync.

(** X13.  The resync takes the first answer that the home chain gives:
    when it succeeds, the trace ends with the read that answered, every
    read before it failed, the cursor is the height of that answer and
    the time of the resync is the clock's at the end; when it fails,
    every read failed and the loop state is as before.  It never
    panics. *)
Theorem autoResync_uses_first_answer (o : PeggyOrchestrator) (w : World)
    (r : result unit) (w' : World) (t : trace) :
  autoResync o w = (r, w', t) ->
  match r with
  | Ok _ =>
      exists t0 lastClaim,
        t = t0 ++ [LastClaimRead (Answer lastClaim)]
        /\ reads_failed t0
        /\ lastCheckedEthHeight (loop w') = EthereumEventHeight lastClaim
        /\ lastResyncWithInjective (loop w') = clock o (now w')
        /\ loopDuration (loop w') = loopDuration (loop w)
  | Error _ => reads_failed t /\ loop w' = loop w
  | Panic _ => False
  end.
Proof.
  unfold autoResync. intros E.
  apply bind_inv in E
    as [(height & w1 & t1 & t2 & E1 & E & ->)|(r1 & E1 & S)].
  - pose proof (quiet_getLastClaimBlockHeight _ _ _ _ _ E1) as [L1 _].
    apply retried_read_inv in E1 as (t0 & lc & -> & F0 & ->).
    unfold bind, set_lastCheckedEthHeight, time_Now,
      set_lastResyncWithInjective in E.
    injection E as <- <- <-. rewrite !app_nil_r.
    exists t0, lc.
    unfold store_lastResyncWithInjective, store_lastCheckedEthHeight.
    cbn [loop now loopDuration lastCheckedEthHeight
         lastResyncWithInjective].
    rewrite L1. auto.
  - pose proof (quiet_getLastClaimBlockHeight _ _ _ _ _ E1) as [L1 _].
    apply retried_read_inv in E1.
    destruct r1 as [height|err1|msg1], r as [[]|err|msg];
      try contradiction.
    now split.
Qed.

Lemma autoResync_uses_first_answer_witness :
  exists t0 lastClaim,
    snd (autoResync Examples.rewind (Examples.start 5000))
    = t0 ++ [LastClaimRead (Answer lastClaim)]
    /\ EthereumEventHeight lastClaim = 4200.
Proof.
  destruct (autoResync_uses_first_answer Examples.rewind
              (Examples.start 5000) _ _ _ eq_refl)
    as (t0 & lc & E & _ & H & _).
  exists t0, lc. split; [exact E|]. now rewrite <- H.
Defined.

(** X14.  A tick never changes the duration of the loop, and it changes
    the time of the last resync only when it returns without error after
    a resync: then 48 hours or more had passed since the last resync at
    the one moment the tick reads the clock for the test, the time of
    the resync is the clock's at the end of the tick, and the cursor is
    the height of the last claim read.  Conversely, a tick that returns
    without error and for which 48 hours or more have passed at that
    moment sets the time of the resync to the clock's at its end. *)
Theorem tick_resync_time {sorter : SliceSorter} (o : PeggyOrchestrator)
    (w : World) (r : result unit) (w' : World) (t : trace) :
  tick o w = (r, w', t) ->
  loopDuration (loop w') = loopDuration (loop w)
  /\ (lastResyncWithInjective (loop w')
      = lastResyncWithInjective (loop w)
      \/ (r = Ok tt
          /\ lastResyncWithInjective (loop w') = clock o (now w')
          /\ (exists m,
                resync_check_moment o w = Some m
                /\ 48 * Hour
                   <= clock o m - lastResyncWithInjective (loop w))
          /\ exists lastClaim,
               last_claim_read t = Some (Answer lastClaim)
               /\ lastCheckedEthHeight (loop w')
                  = EthereumEventHeight lastClaim))
  /\ (forall m,
       resync_check_moment o w = Some m ->
       48 * Hour <= clock o m - lastResyncWithInjective (loop w) ->
       r = Ok tt ->
       lastResyncWithInjective (loop w') = clock o (now w'))
  /\ (forall m,
       resync_check_moment o w = Some m ->
       clock o m - lastResyncWithInjective (loop w) < 48 * Hour ->
       r = Ok tt
       /\ lastResyncWithInjective (loop w')
          = lastResyncWithInjective (loop w)).
Proof.
  intros E.
  apply tick_inv in E as (r1 & w1 & t1 & E1 & E).
  assert (M : resync_check_moment o w
              = match r1 with
                | Ok (Some _) => Some (now w1)
                | _ => None
                end).
  { unfold resync_check_moment. rewrite E1.
    destruct r1 as [[latest|]|err|msg]; reflexivity. }
  apply scan_and_submit_inv in E1 as [L1 _].
  destruct r1 as [[latest|]|err|msg];
    try (destruct E as (_ & -> & _); rewrite L1;
         split; [reflexivity|]; split; [now left|];
         split; intros m Hm; rewrite M in Hm; discriminate).
  destruct E as (t2 & E & ->).
  apply advance_and_resync_inv in E as [(Lt & -> & -> & _)|(Due & E)].
  { rewrite L1 in Lt.
    unfold store_lastCheckedEthHeight. simpl loop. rewrite L1.
    split; [reflexivity|]. split; [now left|]. split.
    - intros m Hm Ge. rewrite M in Hm. injection Hm as <-. lia.
    - intros m Hm _. now split. }
  rewrite L1 in Due.
  apply autoResync_inv in E as [_ E].
  unfold store_lastCheckedEthHeight in E.
  cbn [loop loopDuration lastResyncWithInjective] in E.
  destruct r as [[]|err|msg].
  - destruct E as (lc & R & ->).
    cbn [loopDuration lastResyncWithInjective lastCheckedEthHeight].
    rewrite L1. split; [reflexivity|]. split; [|split].
    + right. split; [reflexivity|]. split; [reflexivity|]. split.
      * exists (now w1). now split.
      * exists lc. split; [|reflexivity]. now apply last_claim_read_app_r.
    + reflexivity.
    + intros m Hm Lt. rewrite M in Hm. injection Hm as <-. lia.
  - rewrite E, L1. split; [reflexivity|]. split; [now left|]. split.
    + discriminate.
    + intros m Hm Lt. rewrite M in Hm. injection Hm as <-. lia.
  - rewrite E, L1. split; [reflexivity|]. split; [now left|]. split.
    + discriminate.
    + intros m Hm Lt. rewrite M in Hm. injection Hm as <-. lia.
Qed.

Lemma tick_resync_time_witness :
  let w' := snd (fst (@tick insertion_sorter Examples.rewind
                        (Examples.start 5000))) in
  lastResyncWithInjective (loop w') = 49 * Hour
  /\ lastCheckedEthHeight (loop w') = 4200.
Proof.
  destruct (@tick_resync_time insertion_sorter Examples.rewind
              (Examples.start 5000) _ _ _ eq_refl)
    as [_ [[Same|(_ & R & _ & lc & L & H)] _]].
  - vm_compute in Same. discriminate.
  - split; [exact R|].
    vm_compute in L. injection L as <-. exact H.
Defined.

(** ** One attempt of the scan *)

Ltac earlier_answered :=
  let i := fresh "i" in
  let q := fresh "q" in
  let Hi := fresh "Hi" in
  let Hq := fresh "Hq" in
  intros i q Hi Hq;
  destruct i as [|[|[|[|i]]]]; try lia;
  injection Hq as <-; unfold query_failure;
  rewrite ?Nat.add_succ_r, ?Nat.add_0_r;
  match goal with
  | E : ?a = Answer _ |- failure_of ?a = None => now rewrite E
  end.

(** X15.  One attempt of the scan makes the five event queries in a
    fixed order, each at its own moment and over the range asked for,
    and returns at the first query that fails: the trace is a prefix of
    the five queries, and every query but the last one made was
    answered.  When the attempt succeeds the last query was answered too
    and all five were made.  When it fails, the last query made is the
    one that failed, and the error of the attempt is the error that this
    query answered, wrapped under the message of that kind of event.
    It never panics. *)
Theorem scan_attempt_stops_at_first_failure (o : PeggyOrchestrator)
    (startBlock endBlock : Z) (w : World) (r : result ethEvents)
    (w' : World) (t : trace) :
  scanEthEventsFn o startBlock endBlock w = (r, w', t) ->
  exists k,
    (1 <= k <= 5)%nat
    /\ t = firstn k (scan_queries startBlock endBlock)
    /\ now w' = (now w + k)%nat
    /\ (forall i q,
          (S i < k)%nat ->
          nth_error scan_order i = Some q ->
          query_failure o q (now w + i)%nat startBlock endBlock = None)
    /\ match r with
       | Ok _ =>
           k = 5%nat
           /\ query_failure o QValsetUpdated (now w + 4)%nat
                startBlock endBlock
              = None
       | Error err =>
           exists q msg cause,
             nth_error scan_order (k - 1) = Some q
             /\ nth_error scan_messages (k - 1) = Some msg
             /\ query_failure o q (now w + (k - 1))%nat
                  startBlock endBlock
                = Some cause
             /\ err = String.append msg (String.append ": " cause)
       | Panic _ => False
       end.
Proof.
  unfold scanEthEventsFn, bind, wrap_error, interact, ret.
  cbn [now advance].
  destruct (GetSendToCosmosEvents _ _ _ _) as [a1|e1] eqn:E1; simpl.
  2:{ intros [= <- <- <-]. exists 1%nat.
      split; [lia|]. split; [reflexivity|]. split; [simpl; lia|].
      split; [intros i q Hi; lia|].
      exists QSendToCosmos. eexists. exists e1.
      split; [reflexivity|]. split; [reflexivity|].
      split; [|reflexivity].
      simpl. rewrite Nat.add_0_r. now rewrite E1. }
  destruct (GetSendToInjectiveEvents _ _ _ _) as [a2|e2] eqn:E2; simpl.
  2:{ intros [= <- <- <-]. exists 2%nat.
      split; [lia|]. split; [reflexivity|]. split; [simpl; lia|].
      split; [earlier_answered|].
      exists QSendToInjective. eexists. exists e2.
      split; [reflexivity|]. split; [reflexivity|].
      split; [|reflexivity].
      simpl. rewrite ?Nat.add_succ_r, ?Nat.add_0_r. now rewrite E2. }
  destruct (GetTransactionBatchExecutedEvents _ _ _ _) as [a3|e3] eqn:E3;
    simpl.
  2:{ intros [= <- <- <-]. exists 3%nat.
      split; [lia|]. split; [reflexivity|]. split; [simpl; lia|].
      split; [earlier_answered|].
      exists QTransactionBatchExecuted. eexists. exists e3.
      split; [reflexivity|]. split; [reflexivity|].
      split; [|reflexivity].
      simpl. rewrite ?Nat.add_succ_r, ?Nat.add_0_r. now rewrite E3. }
  destruct (GetPeggyERC20DeployedEvents _ _ _ _) as [a4|e4] eqn:E4; simpl.
  2:{ intros [= <- <- <-]. exists 4%nat.
      split; [lia|]. split; [reflexivity|]. split; [simpl; lia|].
      split; [earlier_answered|].
      exists QPeggyERC20Deployed. eexists. exists e4.
      split; [reflexivity|]. split; [reflexivity|].
      split; [|reflexivity].
      simpl. rewrite ?Nat.add_succ_r, ?Nat.add_0_r. now rewrite E4. }
  destruct (GetValsetUpdatedEvents _ _ _ _) as [a5|e5] eqn:E5; simpl.
  2:{ intros [= <- <- <-]. exists 5%nat.
      split; [lia|]. split; [reflexivity|]. split; [simpl; lia|].
      split; [earlier_answered|].
      exists QValsetUpdated. eexists. exists e5.
      split; [reflexivity|]. split; [reflexivity|].
      split; [|reflexivity].
      simpl. rewrite ?Nat.add_succ_r, ?Nat.add_0_r. now rewrite E5. }
  intros [= <- <- <-]. exists 5%nat.
  split; [lia|]. split; [reflexivity|]. split; [simpl; lia|].
  split; [earlier_answered|].
  split; [reflexivity|].
  simpl. rewrite ?Nat.add_succ_r, ?Nat.add_0_r. now rewrite E5.
Qed.

(** The first query answers and the second fails: two queries are made,
    and the error is that of the second query under its message. *)
Lemma scan_attempt_stops_at_first_failure_witness :
  let run := scanEthEventsFn MoreExamples.second_query_fails 1000 1188
               (Examples.start 1000) in
  snd run
  = [EventQuery QSendToCosmos 1000 1188;
     EventQuery QSendToInjective 1000 1188]
  /\ exists cause,
       query_failure MoreExamples.second_query_fails QSendToInjective
         1%nat 1000 1188
       = Some cause
       /\ fst (fst run)
          = Error
              (String.append "failed to get SendToInjective events"
                 (String.append ": " cause)).
Proof.
  destruct (scan_attempt_stops_at_first_failure
              MoreExamples.second_query_fails
              1000 1188 (Examples.start 1000) _ _ _ eq_refl)
    as (k & B & T & N & _ & q & msg & cause & Q & Msg & F & E).
  assert (k = 2%nat) as -> by (simpl in N; lia).
  split; [exact T|].
  simpl in Q, Msg. injection Q as <-. injection Msg as <-.
  exists cause. split; [exact F|]. exact (f_equal Error E).
Defined.

(** ** A tick in which every call is answered *)

Lemma retry_Do_first_ok {A : Type} o (op : M A) w a w1 t1 :
  ctx_Err o (now w) = None ->
  maxAttempts o <> O ->
  op w = (Ok a, w1, t1) ->
  retry_Do o op w = (Ok a, w1, t1).
Proof.
  intros Ctx Att E. unfold retry_Do. rewrite Ctx.
  destruct (maxAttempts o) as [|budget]; [contradiction|].
  destruct budget; simpl; now rewrite E.
Qed.

Lemma answers_inv {A : Type} (a : answer A) :
  answers a -> exists x, a = Answer x.
Proof. destruct a as [x|err]; [now exists x | contradiction]. Qed.

Section Answered.

Context {sorter : SliceSorter}.
Variable o : PeggyOrchestrator.
Hypothesis Ctx : forall m, ctx_Err o m = None.
Hypothesis Att : maxAttempts o <> O.

Lemma scanEthEventsFn_answered startBlock endBlock w :
  ethereum_answers o ->
  exists events,
    scanEthEventsFn o startBlock endBlock w
    = (Ok events, advance (advance (advance (advance (advance w)))),
       scan_queries startBlock endBlock).
Proof.
  intros Eth.
  unfold scanEthEventsFn, bind, wrap_error, interact, ret.
  cbn [now advance].
  destruct (Eth (now w) startBlock endBlock) as (A1 & _).
  destruct (Eth (S (now w)) startBlock endBlock) as (_ & A2 & _).
  destruct (Eth (S (S (now w))) startBlock endBlock) as (_ & _ & A3 & _).
  destruct (Eth (S (S (S (now w)))) startBlock endBlock)
    as (_ & _ & _ & A4 & _).
  destruct (Eth (S (S (S (S (now w))))) startBlock endBlock)
    as (_ & _ & _ & _ & A5).
  apply answers_inv in A1 as (a1 & ->). simpl.
  apply answers_inv in A2 as (a2 & ->). simpl.
  apply answers_inv in A3 as (a3 & ->). simpl.
  apply answers_inv in A4 as (a4 & ->). simpl.
  apply answers_inv in A5 as (a5 & ->). simpl.
  eexists. reflexivity.
Qed.

Lemma send_each_accepted (sortedEvents : list any) w :
  injective_accepts o ->
  Forall known_kind sortedEvents ->
  exists w' t,
    send_each o sortedEvents w = (Ok tt, w', t)
    /\ now w' = (now w + 2 * length sortedEvents)%nat.
Proof.
  clear Ctx Att. intros Inj K. revert w.
  induction K as [|event rest Kev K IH]; intros w; simpl send_each.
  - exists w, []. split; [reflexivity | simpl; lia].
  - destruct (Inj (now w)) as (_ & A1 & A2 & A3 & A4 & A5).
    assert (S : exists c,
               sendEthEventClaim o event w
               = (Ok tt, advance w, [Submit c true])).
    { destruct event as [e|e|e|e|e|T]; simpl in *; try contradiction;
        unfold interact;
        [destruct (answers_inv _ (A1 e)) as ([] & ->)
        |destruct (answers_inv _ (A2 e)) as ([] & ->)
        |destruct (answers_inv _ (A3 e)) as ([] & ->)
        |destruct (answers_inv _ (A4 e)) as ([] & ->)
        |destruct (answers_inv _ (A5 e)) as ([] & ->)];
        eexists; reflexivity. }
    destruct S as (c & S). unfold bind at 1. rewrite S.
    unfold bind at 1. unfold time_Sleep at 1.
    destruct (IH (advance (advance w))) as (w' & t & E & N). rewrite E.
    eexists _, _. split; [reflexivity|].
    rewrite N. cbn [now advance length]. lia.
Qed.

Lemma sendEventsFn_accepted (events : ethEvents) w :
  injective_accepts o ->
  exists lastClaim w' t,
    LastClaimEventByAddr (inj o) (now w) = Answer lastClaim
    /\ sendEventsFn o events w
       = (Ok tt, w', LastClaimRead (Answer lastClaim) :: t)
    /\ now w'
       = (now w + 1
          + 2 * Num (Filter events (EthereumEventNonce lastClaim)))%nat.
Proof.
  clear Ctx Att. intros Inj. destruct (Inj (now w)) as (L & _).
  apply answers_inv in L as (lc & L). exists lc.
  unfold sendEventsFn, bind at 1, interact. rewrite L.
  simpl of_answer; cbv iota beta.
  destruct (_ =? _)%nat eqn:Z.
  { exists (advance w), []. apply Nat.eqb_eq in Z. rewrite Z.
    split; [reflexivity|]. split; [reflexivity|]. simpl. lia. }
  destruct (Sort_ok (Filter events (EthereumEventNonce lc)))
    as (sorted & So & P & _).
  unfold bind at 1, lift. rewrite So.
  destruct (send_each_accepted sorted (advance w) Inj)
    as (w' & t & E & N).
  { apply Forall_forall. intros x Hx.
    apply (events_of_known (Filter events (EthereumEventNonce lc))).
    apply (Permutation_in _ (Permutation_sym P)), Hx. }
  rewrite E. exists w', t.
  split; [reflexivity|]. split; [reflexivity|].
  rewrite N, <- (Permutation_length P), events_of_length.
  cbn [now advance]. lia.
Qed.

End Answered.

(** X16.  When the context is not cancelled, an attempt is allowed, the
    head lies far enough above the cursor, and both chains answer every
    call, a tick succeeds without any retry: it queries the head once,
    makes the five event queries once over the window, reads the last
    claim once and gets every claim it submits accepted, in the order of
    the sort.  It then reads the clock for the test of the resync, seven
    moments and two per claim after its start: when less than 48 hours
    have passed since the last resync at that moment, it makes no other
    call, leaves the cursor at the end of the window and keeps the time
    of the last resync; when 48 hours or more have passed, it reads the
    last claim once more, leaves the cursor at the height of that claim
    and sets the time of the resync to the clock's at its end. *)
Theorem tick_succeeds_when_answered {sorter : SliceSorter}
    (o : PeggyOrchestrator) (w : World) (number latest : Z) :
  (forall m, ctx_Err o m = None) ->
  maxAttempts o <> O ->
  HeaderByNumber (eth o) (now w) = Answer number ->
  scan_window (lastCheckedEthHeight (loop w)) (U64.of_bigInt number)
  = Some latest ->
  ethereum_answers o ->
  injective_accepts o ->
  exists w' events lastClaim sorted t3 t4 m,
    tick o w
    = (Ok tt, w',
       HeadQuery
       :: scan_queries (lastCheckedEthHeight (loop w)) latest
          ++ LastClaimRead (Answer lastClaim) :: t3 ++ t4)
    /\ fst (fst (getEthEvents o (lastCheckedEthHeight (loop w)) latest
                   (advance w)))
       = Ok events
    /\ Sort (Filter events (EthereumEventNonce lastClaim)) = Ok sorted
    /\ Forall send_action t3
    /\ submitted t3 = claims_of sorted
    /\ accepted t3 = submitted t3
    /\ resync_check_moment o w = Some m
    /\ m = (now w + 7 + 2 * length sorted)%nat
    /\ ((clock o m - lastResyncWithInjective (loop w) < 48 * Hour
         /\ t4 = []
         /\ lastCheckedEthHeight (loop w') = latest
         /\ lastResyncWithInjective (loop w')
            = lastResyncWithInjective (loop w))
        \/ (48 * Hour <= clock o m - lastResyncWithInjective (loop w)
            /\ exists lastClaim',
                 LastClaimEventByAddr (inj o) m = Answer lastClaim'
                 /\ t4 = [LastClaimRead (Answer lastClaim')]
                 /\ lastCheckedEthHeight (loop w')
                    = EthereumEventHeight lastClaim'
                 /\ lastResyncWithInjective (loop w')
                    = clock o (now w'))).
Proof.
  intros Ctx Att Head Win Eth Inj.
  set (c := lastCheckedEthHeight (loop w)) in *.
  assert (E1 : getLatestEthHeight o w
               = (Ok (U64.of_bigInt number), advance w, [HeadQuery])).
  { apply retry_Do_first_ok; auto.
    unfold getLatestEthHeightFn, bind, wrap_error, interact, ret.
    now rewrite Head. }
  destruct (scanEthEventsFn_answered o c latest (advance w) Eth)
    as (events & E2).
  apply (retry_Do_first_ok o _ _ _ _ _ (Ctx _) Att) in E2.
  fold (getEthEvents o c latest) in E2.
  set (w2 := advance (advance (advance (advance (advance (advance w))))))
    in *.
  destruct (sendEventsFn_accepted o events w2 Inj)
    as (lc & w3 & t3 & Lc & E3 & N3).
  pose proof (sendEventsFn_stops o _ _ _ _ _ lc Lc E3)
    as (sorted & t' & So & P & [= <-] & _ & _ & Sub & Acc).
  pose proof (sendEventsFn_reads o _ _ _ _ _ E3)
    as (a & t' & _ & [= _ <-] & F3).
  apply (retry_Do_first_ok o _ _ _ _ _ (Ctx _) Att) in E3.
  fold (sendNewEventClaims o events) in E3.
  pose proof (quiet_sendNewEventClaims o _ _ _ _ _ E3) as [L3 _].
  assert (L : loop w3 = loop w) by (rewrite L3; reflexivity).
  assert (N : now w3 = (now w + 7 + 2 * length sorted)%nat).
  { rewrite N3, <- (Permutation_length P), events_of_length.
    unfold w2. cbn [now advance]. lia. }
  pose proof (resync_check_moment_steps o _ _ _ _ _ _ _ _ _ _
                E1 Win E2 E3) as M.
  destruct (advance_and_resync o latest w3) as [[r4 w4] t4] eqn:E4.
  assert (T : tick o w
              = (r4, w4,
                 ([HeadQuery] ++ scan_queries c latest
                  ++ LastClaimRead (Answer lc) :: t3) ++ t4)).
  { rewrite tick_phases. unfold bind. rewrite scan_and_submit_eq.
    fold c. rewrite E1, Win, E2, E3, E4. reflexivity. }
  exists w4, events, lc, sorted, t3, t4, (now w3).
  assert (R : r4 = Ok tt
              /\ ((clock o (now w3) - lastResyncWithInjective (loop w)
                   < 48 * Hour
                   /\ t4 = []
                   /\ lastCheckedEthHeight (loop w4) = latest
                   /\ lastResyncWithInjective (loop w4)
                      = lastResyncWithInjective (loop w))
                  \/ (48 * Hour
                      <= clock o (now w3)
                         - lastResyncWithInjective (loop w)
                      /\ exists lastClaim',
                           LastClaimEventByAddr (inj o) (now w3)
                           = Answer lastClaim'
                           /\ t4 = [LastClaimRead (Answer lastClaim')]
                           /\ lastCheckedEthHeight (loop w4)
                              = EthereumEventHeight lastClaim'
                           /\ lastResyncWithInjective (loop w4)
                              = clock o (now w4)))).
  { apply advance_and_resync_inv in E4
      as [(Lt & -> & -> & ->)|(Due & E4)].
    - split; [reflexivity|]. left. rewrite L in Lt.
      split; [exact Lt|]. split; [reflexivity|]. split; [reflexivity|].
      simpl. now rewrite L.
    - destruct (Inj (now w3)) as (A & _).
      apply answers_inv in A as (lc' & A).
      assert (E : autoResync o (store_lastCheckedEthHeight latest w3)
                  = (Ok tt,
                     store_lastResyncWithInjective
                       (clock o (S (now w3)))
                       (store_lastCheckedEthHeight
                          (EthereumEventHeight lc')
                          (advance
                             (store_lastCheckedEthHeight latest w3))),
                     [LastClaimRead (Answer lc')])).
      { unfold autoResync, bind at 1.
        rewrite (retry_Do_first_ok o _ _ (EthereumEventHeight lc')
                   (advance (store_lastCheckedEthHeight latest w3))
                   [LastClaimRead (Answer lc')] (Ctx _) Att).
        - reflexivity.
        - unfold getLastClaimBlockHeight, bind, interact, ret.
          cbn [now store_lastCheckedEthHeight]. now rewrite A. }
      rewrite E in E4. injection E4 as <- <- <-.
      split; [reflexivity|]. right. rewrite L in Due.
      split; [exact Due|]. exists lc'.
      split; [exact A|]. split; [reflexivity|]. split; reflexivity. }
  destruct R as (-> & R).
  split; [|split; [now rewrite E2|]; split;
           [exact So|split; [exact F3|split; [exact Sub|]]]].
  - rewrite T. cbn [app]. now rewrite <- !app_assoc.
  - split; [exact Acc|]. split; [exact M|]. split; [exact N|]. exact R.
Qed.

(** On a clock that advances by one second at every moment, with the
    head far above the cursor at 1000 and the events 8, 9 and 10 to
    claim: the tick reads the clock for the test at the moment 13, makes
    no resync and leaves the cursor at 3000. *)
Lemma tick_succeeds_when_answered_witness :
  exists w' t,
    @tick insertion_sorter MoreExamples.catching_up (Examples.start 1000)
    = (Ok tt, w', t)
    /\ @resync_check_moment insertion_sorter MoreExamples.catching_up
         (Examples.start 1000)
       = Some 13%nat
    /\ lastCheckedEthHeight (loop w') = 3000.
Proof.
  destruct (@tick_succeeds_when_answered insertion_sorter
              MoreExamples.catching_up (Examples.start 1000) 99999 3000)
    as (w' & events & lc & sorted & t3 & t4 & m
        & T & _ & _ & _ & _ & _ & M & _ & R).
  - intros m. reflexivity.
  - discriminate.
  - reflexivity.
  - reflexivity.
  - intros m s e. simpl. auto.
  - intros m. simpl. auto 10.
  - eexists _, _. split; [exact T|]. split; [reflexivity|].
    vm_compute in M. injection M as <-.
    destruct R as [(_ & _ & C & _)|(Due & _)]; [exact C|].
    exfalso. vm_compute in Due. exact (Due eq_refl).
Defined.
